(** * Substack Friend Finder: scan orchestration and scoring engine

    A shallow embedding of [extension/src/content/injected.js] (the scan
    engine that runs in the page) and of the start-up handler of the popup
    script ([src/popup/popup.js]), together with the properties of the
    planner, the navigator, the extraction pipeline, the appearance
    accumulator and the scorer.

    Conventions of the embedding:
    - a JavaScript number that holds an identifier is a [Z], a subscriber
      count is an [N]; [undefined]/[null] is [None];
    - a field of which the code only ever observes the truthiness before it
      uses the value ([subdomain], [author_id]) is a plain value whose falsy
      element ([""], [0]) stands for every falsy JavaScript value;
    - scores are real numbers (the code computes them in binary floating
      point; the embedding states the formula, not its rounding);
    - [state.personAppearances] is the association list of the object's
      own properties in the order of their creation; [entries] gives the
      order in which [Object.entries] enumerates them (array indices
      first), and [member] what reading a property gives, the members
      inherited from [Object.prototype] included. *)

From Stdlib Require Import List String Ascii Bool Arith ZArith NArith Lia.
From Stdlib Require Import Permutation Sorted.
From Stdlib Require Import Reals Lra.
Import ListNotations.

Local Open Scope string_scope.
Local Open Scope Z_scope.

(* ------------------------------------------------------------------ *)
(** ** JavaScript helpers *)

Module JS.

(** [!!s] for a string-or-undefined value. *)
Definition truthy_str (o : option string) : bool :=
  match o with
  | Some s => negb (s =? "")%string
  | None => false
  end.

(** [!!o] for an object-or-undefined value. *)
Definition truthy_obj {A : Type} (o : option A) : bool :=
  match o with Some _ => true | None => false end.

(** [a || b] on optional strings. *)
Definition or_str (a b : option string) : option string :=
  if truthy_str a then a else b.

(** [a || b] on numbers, [0] being the falsy number. *)
Definition or_num (a b : Z) : Z := if a =? 0 then b else a.

(** [c || d] on a count that may be missing. *)
Definition or_count (c : option N) (d : N) : N :=
  match c with
  | Some n => if (n =? 0)%N then d else n
  | None => d
  end.

(** [String.prototype.includes]. *)
Fixpoint includes (hay needle : string) : bool :=
  String.prefix needle hay ||
  match hay with
  | EmptyString => false
  | String _ rest => includes rest needle
  end.

Definition lower_ascii (c : ascii) : ascii :=
  let n := nat_of_ascii c in
  if ((65 <=? n) && (n <=? 90))%nat then ascii_of_nat (n + 32) else c.

(** [String.prototype.toLowerCase], on the ASCII letters. *)
Fixpoint toLowerCase (s : string) : string :=
  match s with
  | EmptyString => EmptyString
  | String c rest => String (lower_ascii c) (toLowerCase rest)
  end.

Section Sort.
Context {A : Type}.
(** [cmp_le x y] holds when the comparator gives [cmp(x, y) <= 0]. *)
Variable cmp_le : A -> A -> bool.

Fixpoint insert (x : A) (l : list A) : list A :=
  match l with
  | [] => [x]
  | y :: l' => if cmp_le x y then x :: l else y :: insert x l'
  end.

(** [Array.prototype.sort] with a consistent comparator: the stable
    sorted arrangement (an element stays before the later elements it
    compares equal to). *)
Fixpoint sort (l : list A) : list A :=
  match l with
  | [] => []
  | x :: l' => insert x (sort l')
  end.
End Sort.

End JS.

(* ------------------------------------------------------------------ *)
(** ** Data model *)

Inductive PageType := subscribers | followers.

Definition pageType_str (t : PageType) : string :=
  match t with subscribers => "subscribers" | followers => "followers" end.

(** A publication as the profile endpoint returns it. *)
Record Publication := mkPublication {
  pub_id : Z;
  pub_name : string;
  pub_subdomain : string;
  pub_author_id : Z;
  pub_primary_user_id : Z;
  pub_subscriber_count : option N
}.

(** An element of [profile.subscriptions]; [publication] may be missing. *)
Record Subscription := mkSubscription {
  publication : option Publication
}.

(** An element of [state.newsletters]. *)
Record Newsletter := mkNewsletter {
  nl_id : Z;
  nl_name : string;
  nl_subdomain : string;
  nl_authorId : Z;
  nl_subscriberCount : option N
}.

(** An element of [state.pagesToVisit]. *)
Record PageVisit := mkPageVisit {
  newsletterId : Z;
  pv_name : string;
  subdomain : string;
  authorId : Z;
  subscriberCount : option N;
  pageType : PageType
}.

(** [primaryPublication] of a user record. *)
Record UserPublication := mkUserPublication {
  up_url : option string
}.

(** A person record as the extraction pipeline returns it. *)
Record User := mkUser {
  user_id : option Z;
  handle : option string;
  user_name : option string;
  bio : option string;
  photo_url : option string;
  primaryPublication : option UserPublication
}.

(** A value of [state.personAppearances]. *)
Record Appearance := mkAppearance {
  profile : User;
  newsletterIds : list Z
}.

Definition Appearances := list (string * Appearance).

(** The record kept in [sessionStorage] under [STATE_KEY]. *)
Record ScanState := mkScanState {
  username : string;
  profileId : option Z;
  newsletters : list Newsletter;
  pagesToVisit : list PageVisit;
  currentPageIndex : nat;
  personAppearances : Appearances
}.

(* ------------------------------------------------------------------ *)
(** ** Scan planner (the planning part of [startScan]) *)

(** The predicate of [.filter(pub => pub && pub.subdomain &&
    (pub.author_id || pub.primary_user_id))]. *)
Definition scannable (p : Publication) : bool :=
  negb (pub_subdomain p =? "")%string &&
  negb (JS.or_num (pub_author_id p) (pub_primary_user_id p) =? 0).

(** [subscriptions.map(sub => sub.publication).filter(...)]. *)
Fixpoint scannable_publications (subs : list Subscription) : list Publication :=
  match subs with
  | [] => []
  | s :: rest =>
      match publication s with
      | Some p => if scannable p then p :: scannable_publications rest
                  else scannable_publications rest
      | None => scannable_publications rest
      end
  end.

(** [a.subscriber_count || 0]. *)
Definition sort_key (p : Publication) : Z :=
  Z.of_N (JS.or_count (pub_subscriber_count p) 0).

(** The comparator [(a, b) => (a.subscriber_count || 0) -
    (b.subscriber_count || 0)], as "the result is not positive". *)
Definition by_subscriber_count (a b : Publication) : bool :=
  sort_key a - sort_key b <=? 0.

(** The constant [newsletters] of [startScan]. *)
Definition plan_newsletters (subs : list Subscription) : list Publication :=
  JS.sort by_subscriber_count (scannable_publications subs).

Definition visit_of (nl : Publication) (t : PageType) : PageVisit :=
  {| newsletterId := pub_id nl;
     pv_name := pub_name nl;
     subdomain := pub_subdomain nl;
     authorId := JS.or_num (pub_author_id nl) (pub_primary_user_id nl);
     subscriberCount := pub_subscriber_count nl;
     pageType := t |}.

(** [subscriberCount || 0] of a planned visit: the planner's sort key. *)
Definition visit_key (p : PageVisit) : Z :=
  Z.of_N (JS.or_count (subscriberCount p) 0).

(** The loop that fills [pagesToVisit]. *)
Fixpoint plan_pages (nls : list Publication) : list PageVisit :=
  match nls with
  | [] => []
  | nl :: rest =>
      visit_of nl subscribers :: visit_of nl followers :: plan_pages rest
  end.

Definition newsletter_of (n : Publication) : Newsletter :=
  {| nl_id := pub_id n;
     nl_name := pub_name n;
     nl_subdomain := pub_subdomain n;
     nl_authorId := JS.or_num (pub_author_id n) (pub_primary_user_id n);
     nl_subscriberCount := pub_subscriber_count n |}.

(** The visit of list [t] of a newsletter of [state.newsletters]. *)
Definition visit_for (n : Newsletter) (t : PageType) : PageVisit :=
  {| newsletterId := nl_id n;
     pv_name := nl_name n;
     subdomain := nl_subdomain n;
     authorId := nl_authorId n;
     subscriberCount := nl_subscriberCount n;
     pageType := t |}.

(** The state [startScan] persists for a profile. *)
Definition initial_state (user : string) (pid : option Z)
    (subs : list Subscription) : ScanState :=
  let nls := plan_newsletters subs in
  {| username := user;
     profileId := pid;
     newsletters := map newsletter_of nls;
     pagesToVisit := plan_pages nls;
     currentPageIndex := 0;
     personAppearances := [] |}.

(* ------------------------------------------------------------------ *)
(** ** Extraction pipeline ([getUsersForPage]) *)

(** A user object of the subscriber-lists schema. *)
Record ApiUser := mkApiUser {
  au_id : option Z;
  au_handle : option string;
  au_username : option string;
  au_name : option string;
  au_bio : option string;
  au_photo_url : option string;
  au_primaryPublication : option UserPublication
}.

(** [group.users] and [list.groups] may be missing ([|| []]). *)
Record Group := mkGroup { users : option (list ApiUser) }.
Record SubscriberList := mkSubscriberList { groups : option (list Group) }.

(** What [fetchSubscriberList] resolves to when it is not [null]. *)
Record ApiData := mkApiData {
  subscriberLists : option (list SubscriberList)
}.

(** The three places of the parsed [__NEXT_DATA__] blob in which the code
    looks for [subscriberLists]. *)
Record NextData := mkNextData {
  pageProps_lists : option (list SubscriberList);
  initialData_lists : option (list SubscriberList);
  dehydrated_lists : option (list SubscriberList)
}.

(** An [a[href*="/@"]] element with what the code reads around it:
    its trimmed text, and the bio text and image source of its card. *)
Record Link := mkLink {
  link_href : string;
  link_text : string;
  card_bio : option string;
  card_img : option string
}.

(** The page the script runs in: its location, what the list endpoint
    answers from it ([None] for a failed or refused request), the
    [__NEXT_DATA__] element ([Some None] when its text does not parse) and
    the profile links of the rendered document. *)
Record PageContext := mkPageContext {
  href : string;
  fetchSubscriberList : Z -> PageType -> option ApiData;
  nextDataElement : option (option NextData);
  profileLinks : list Link
}.

(** The object literal pushed for each user by tiers 1 and 2. *)
Definition user_of_api (u : ApiUser) : User :=
  {| user_id := au_id u;
     handle := JS.or_str (au_handle u) (au_username u);
     user_name := au_name u;
     bio := au_bio u;
     photo_url := au_photo_url u;
     primaryPublication := au_primaryPublication u |}.

Definition or_empty {A : Type} (o : option (list A)) : list A :=
  match o with Some l => l | None => [] end.

(** The three nested [for ... of] loops over list, group and user. *)
Definition users_of_lists (lists : list SubscriberList) : list User :=
  flat_map (fun l =>
    flat_map (fun g => map user_of_api (or_empty (users g)))
             (or_empty (groups l)))
    lists.

Definition extractUsersFromApiResponse (data : option ApiData) : list User :=
  match data with
  | None => []
  | Some d =>
      match subscriberLists d with
      | None => []
      | Some lists => users_of_lists lists
      end
  end.

(** [a || b] on values that are truthy whenever present (arrays). *)
Definition or_opt {A : Type} (a b : option A) : option A :=
  match a with Some _ => a | None => b end.

(** Tier 2: the users of the embedded blob; nothing when the element is
    absent, its text does not parse, or no list is found. *)
Definition nextDataUsers (elem : option (option NextData)) : list User :=
  match elem with
  | Some (Some d) =>
      match or_opt (pageProps_lists d)
              (or_opt (initialData_lists d) (dehydrated_lists d)) with
      | Some lists => users_of_lists lists
      | None => []
      end
  | _ => []
  end.

(** The character class [[a-zA-Z0-9_-]]. *)
Definition handle_char (c : ascii) : bool :=
  let n := nat_of_ascii c in
  (((97 <=? n) && (n <=? 122)) || ((65 <=? n) && (n <=? 90)) ||
   ((48 <=? n) && (n <=? 57)) || (n =? 95) || (n =? 45))%nat.

Fixpoint take_handle (s : string) : string :=
  match s with
  | EmptyString => EmptyString
  | String c rest =>
      if handle_char c then String c (take_handle rest) else EmptyString
  end.

(** [href.match(/@([a-zA-Z0-9_-]+)/)]: the first group of the leftmost
    match, if any. *)
Fixpoint match_handle (s : string) : option string :=
  match s with
  | EmptyString => None
  | String c rest =>
      if (c =? "@")%char then
        match take_handle rest with
        | EmptyString => match_handle rest
        | h => Some h
        end
      else match_handle rest
  end.

Definition user_of_link (h : string) (l : Link) : User :=
  {| user_id := None;
     handle := Some h;
     user_name := Some (if (link_text l =? "")%string then h else link_text l);
     bio := card_bio l;
     photo_url := card_img l;
     primaryPublication := None |}.

(** Tier 3: the loop over [profileLinks] with its [seenHandles] set. *)
Fixpoint scrapeLinks (seenHandles : list string) (links : list Link)
  : list User :=
  match links with
  | [] => []
  | l :: rest =>
      match match_handle (link_href l) with
      | None => scrapeLinks seenHandles rest
      | Some h =>
          if existsb (String.eqb h) seenHandles
          then scrapeLinks seenHandles rest
          else user_of_link h l :: scrapeLinks (h :: seenHandles) rest
      end
  end.

Definition non_empty {A : Type} (l : list A) : bool :=
  match l with [] => false | _ :: _ => true end.

(** The result of each tier on a page. *)
Definition tier1 (ctx : PageContext) (author : Z) (t : PageType) : list User :=
  extractUsersFromApiResponse (fetchSubscriberList ctx author t).
Definition tier2 (ctx : PageContext) : list User :=
  nextDataUsers (nextDataElement ctx).
Definition tier3 (ctx : PageContext) : list User :=
  scrapeLinks [] (profileLinks ctx).

Definition getUsersForPage (ctx : PageContext) (author : Z) (t : PageType)
  : list User :=
  let apiData := fetchSubscriberList ctx author t in
  let from_api :=
    match apiData with
    | Some _ => extractUsersFromApiResponse apiData
    | None => []
    end in
  if non_empty from_api then from_api
  else
    let from_next := nextDataUsers (nextDataElement ctx) in
    if non_empty from_next then from_next
    else scrapeLinks [] (profileLinks ctx).

(* ------------------------------------------------------------------ *)
(** ** Appearance accumulator (the tracking loop of [processScan]) *)

(** [state.personAppearances] is an ordinary object (an object literal in
    [startScan], the result of [JSON.parse] afterwards): the list holds its
    own properties, in the order in which they were created. *)

(** The own property [key] of the map, if it has one. *)
Fixpoint lookup (key : string) (m : Appearances) : option Appearance :=
  match m with
  | [] => None
  | (k, a) :: rest => if (k =? key)%string then Some a else lookup key rest
  end.

(** In-place update of the value stored under [key]. *)
Fixpoint alter (f : Appearance -> Appearance) (key : string) (m : Appearances)
  : Appearances :=
  match m with
  | [] => []
  | (k, a) :: rest =>
      if (k =? key)%string then (k, f a) :: rest
      else (k, a) :: alter f key rest
  end.

(** [newsletterIds.includes(id)]. *)
Definition ids_include (ids : list Z) (id : Z) : bool :=
  existsb (Z.eqb id) ids.

(** [if (!ids.includes(id)) ids.push(id)]. *)
Definition push_id (id : Z) (a : Appearance) : Appearance :=
  if ids_include (newsletterIds a) id then a
  else {| profile := profile a; newsletterIds := (newsletterIds a ++ [id])%list |}.

(** The names of the members that every ordinary object inherits from
    [Object.prototype]. *)
Definition inherited (key : string) : bool :=
  existsb (String.eqb key)
    ["constructor"; "hasOwnProperty"; "isPrototypeOf";
     "propertyIsEnumerable"; "toLocaleString"; "toString"; "valueOf";
     "__proto__"; "__defineGetter__"; "__defineSetter__";
     "__lookupGetter__"; "__lookupSetter__"].

(** What [state.personAppearances[key]] evaluates to: the entry the map
    has under [key]; else, for the name of an inherited member, that member
    (a function, or the prototype itself: truthy, and without a
    [newsletterIds]); else [undefined]. *)
Inductive Member :=
| Own (a : Appearance)
| Inherited
| Undefined.

Definition member (key : string) (m : Appearances) : Member :=
  match lookup key m with
  | Some a => Own a
  | None => if inherited key then Inherited else Undefined
  end.

(** Whether the iteration for [u] ends in a [TypeError]: the handle is
    truthy and [state.personAppearances[key]] is an inherited member, so
    no entry is created and [.newsletterIds.includes] is called on
    [undefined]. *)
Definition throws (m : Appearances) (u : User) : bool :=
  JS.truthy_str (handle u) &&
  match handle u with
  | Some key =>
      match member key m with Inherited => true | _ => false end
  | None => false
  end.

(** One iteration of [for (const user of users)]: the map after it.  An
    iteration that throws has changed nothing. *)
Definition track_user (id : Z) (m : Appearances) (u : User) : Appearances :=
  if JS.truthy_str (handle u) then
    match handle u with
    | Some key =>
        match member key m with
        | Own _ => alter (push_id id) key m
        | Undefined =>
            alter (push_id id) key
              (m ++ [(key, {| profile := u; newsletterIds := [] |})])%list
        | Inherited => m
        end
    | None => m
    end
  else m.

(** The tracking loop.  [track_users] is the map as the loop leaves it, at
    its end or at the first iteration that throws; [tracking_throws] tells
    whether it was left by a [TypeError]. *)
Fixpoint track_users (id : Z) (m : Appearances) (us : list User)
  : Appearances :=
  match us with
  | [] => m
  | u :: rest =>
      if throws m u then m else track_users id (track_user id m u) rest
  end.

Fixpoint tracking_throws (id : Z) (m : Appearances) (us : list User) : bool :=
  match us with
  | [] => false
  | u :: rest => throws m u || tracking_throws id (track_user id m u) rest
  end.

(** The state after a tracking loop that did not throw and
    [state.currentPageIndex++]. *)
Definition record_visit (st : ScanState) (page : PageVisit) (us : list User)
  : ScanState :=
  {| username := username st;
     profileId := profileId st;
     newsletters := newsletters st;
     pagesToVisit := pagesToVisit st;
     currentPageIndex := S (currentPageIndex st);
     personAppearances :=
       track_users (newsletterId page) (personAppearances st) us |}.

(** A handle is settled for [id] in [m] when it has an entry that already
    lists [id]. *)
Definition settled (id : Z) (m : Appearances) (key : string) : Prop :=
  exists a, lookup key m = Some a /\ ids_include (newsletterIds a) id = true.

(** Every entry is stored under the handle of its own snapshot. *)
Definition well_keyed (m : Appearances) : Prop :=
  Forall (fun e => handle (profile (snd e)) = Some (fst e)) m.

(** [new] when it is non-empty, else [old]: what a field would hold after a
    last-write-wins merge that ignores empty values. *)
Definition newest_non_empty (old new : option string) : option string :=
  if JS.truthy_str new then new else old.

(** [st] with only its cursor moved to the next position. *)
Definition advance (st : ScanState) : ScanState :=
  {| username := username st;
     profileId := profileId st;
     newsletters := newsletters st;
     pagesToVisit := pagesToVisit st;
     currentPageIndex := S (currentPageIndex st);
     personAppearances := personAppearances st |}.

(* ------------------------------------------------------------------ *)
(** ** Scorer ([computeNichenessWeight], [computeQualityScore],
       [finishScan]) *)

Local Open Scope R_scope.

Definition count_R (n : N) : R := IZR (Z.of_N n).

(** [1.0 / Math.log((subscriberCount || 1000) + 2)]. *)
Definition computeNichenessWeight (subscriberCount : option N) : R :=
  1 / ln (count_R (JS.or_count subscriberCount 1000) + 2).

Definition computeQualityScore (p : User) : R :=
  (if JS.truthy_str (bio p) then 1 else 0) +
  (if JS.truthy_obj (primaryPublication p) then 2 else 0) +
  (if JS.truthy_str (photo_url p) then 5 / 10 else 0).

(** The [user] object of a match. *)
Record MatchUser := mkMatchUser {
  mu_id : option Z;
  mu_username : string;
  mu_name : string;
  mu_bio : string;
  mu_photoUrl : string;
  mu_hasPublication : bool;
  mu_publicationUrl : string
}.

Record Match := mkMatch {
  user : MatchUser;
  score : R;
  sharedNewsletters : list Newsletter
}.

(** [s || ''] on a string that may be missing. *)
Definition str_or_empty (o : option string) : string :=
  match o with Some s => s | None => "" end.

Definition match_user (p : User) : MatchUser :=
  {| mu_id := user_id p;
     mu_username := str_or_empty (handle p);
     mu_name := str_or_empty (JS.or_str (user_name p) (handle p));
     mu_bio := str_or_empty (bio p);
     mu_photoUrl := str_or_empty (photo_url p);
     mu_hasPublication := JS.truthy_obj (primaryPublication p);
     mu_publicationUrl :=
       match primaryPublication p with
       | Some pub => str_or_empty (up_url pub)
       | None => ""
       end |}.

(** [newsletterMap.get(id)] for [new Map(nls.map(n => [n.id, n]))]: the
    last newsletter of the list with that id. *)
Definition newsletterMap_get (nls : list Newsletter) (id : Z)
  : option Newsletter :=
  find (fun n => (nl_id n =? id)%Z) (rev nls).

(** The inner loop of [finishScan]: the newsletters the ids resolve to. *)
Fixpoint resolve (nls : list Newsletter) (ids : list Z) : list Newsletter :=
  match ids with
  | [] => []
  | id :: rest =>
      match newsletterMap_get nls id with
      | Some nl => nl :: resolve nls rest
      | None => resolve nls rest
      end
  end.

(** The sum the inner loop accumulates in [score]. *)
Definition nicheness_sum (shared : list Newsletter) : R :=
  fold_left (fun acc nl => acc + computeNichenessWeight (nl_subscriberCount nl))
            shared 0.

(** The threshold written in [if (newsletterIds.length < 2) continue]. *)
Definition min_overlap : nat := 2.

Definition match_of (nls : list Newsletter) (a : Appearance) : Match :=
  let shared := resolve nls (newsletterIds a) in
  {| user := match_user (profile a);
     score := nicheness_sum shared + computeQualityScore (profile a) * (1 / 10);
     sharedNewsletters := shared |}.

(** A decimal digit. *)
Definition is_digit (c : ascii) : bool :=
  (48 <=? nat_of_ascii c)%nat && (nat_of_ascii c <=? 57)%nat.

(** The number a string of decimal digits writes, after [acc]. *)
Fixpoint digits_value (s : string) (acc : N) : option N :=
  match s with
  | EmptyString => Some acc
  | String c rest =>
      if is_digit c
      then digits_value rest (10 * acc + N.of_nat (nat_of_ascii c - 48))%N
      else None
  end.

(** A property name that is an array index: the decimal writing, without
    leading zeros, of an integer from 0 to 2^32 - 2. *)
Definition array_index (s : string) : option N :=
  match s with
  | EmptyString => None
  | String c rest =>
      if (c =? "0")%char && negb (rest =? "")%string then None
      else
        match digits_value s 0%N with
        | Some v => if (v <? 4294967295)%N then Some v else None
        | None => None
        end
  end.

Definition indexed (e : string * Appearance) : bool :=
  match array_index (fst e) with Some _ => true | None => false end.

(** The index under which an entry is enumerated. *)
Definition entry_index (e : string * Appearance) : N :=
  match array_index (fst e) with Some i => i | None => 0%N end.

Definition index_le (a b : string * Appearance) : bool :=
  (entry_index a <=? entry_index b)%N.

(** [Object.entries(state.personAppearances)]: the entries whose handle is
    an array index come first, in ascending order of the index, then the
    others in the order in which they were created. *)
Definition entries (m : Appearances) : Appearances :=
  (JS.sort index_le (filter indexed m) ++
   filter (fun e => negb (indexed e)) m)%list.

(** The outer loop of [finishScan], over the entries in the order given. *)
Fixpoint collect_matches (seed : string) (nls : list Newsletter)
    (m : Appearances) : list Match :=
  match m with
  | [] => []
  | (h, a) :: rest =>
      if (JS.toLowerCase h =? JS.toLowerCase seed)%string
      then collect_matches seed nls rest
      else if (List.length (newsletterIds a) <? min_overlap)%nat
      then collect_matches seed nls rest
      else match_of nls a :: collect_matches seed nls rest
  end.

(** The comparator [(a, b) => b.score - a.score], as "the result is not
    positive". *)
Definition by_score_desc (a b : Match) : bool :=
  if Rle_dec (score b - score a) 0 then true else false.

(** The list [finishScan] hands to [sendComplete]. *)
Definition finishScan (st : ScanState) : list Match :=
  JS.sort by_score_desc
    (collect_matches (username st) (newsletters st)
       (entries (personAppearances st))).

Local Close Scope R_scope.

(* ------------------------------------------------------------------ *)
(** ** Messages *)

Inductive StatusText :=
| FetchingProfile (user : string)
| FoundSubscriptions (n : nat)
| ComputingMatches.

(** The payload of [sendProgress]. *)
Inductive Progress :=
| Scanning (current total : nat) (name : string) (pt : PageType)
           (newsletterCount matchCount : nat)
| ScanningFirst (current total : nat) (name : string) (matchCount : nat)
| Status (message : StatusText).

Inductive ErrorText :=
| ProfileFetchFailed (status : nat)
| NoSubscriptionsFound
| TypeError.

(** What the script posts to the content script. *)
Inductive Message :=
| READY
| PROGRESS (p : Progress)
| COMPLETE (matches : list Match)
| ERROR (e : ErrorText).

(** The observable actions of the script: a posted message, an assignment
    to [window.location.href], and the completion of the tracking loop for
    the visit at a cursor position. *)
Inductive Output :=
| Post (msg : Message)
| Navigate (url : string)
| Visited (index : nat) (page : PageVisit) (found : list User).

(** [`https://substack.com/@${next.subdomain}/${next.pageType}`]. *)
Definition visit_url (p : PageVisit) : string :=
  "https://substack.com/@" ++ subdomain p ++ "/" ++ pageType_str (pageType p).

(* ------------------------------------------------------------------ *)
(** ** Starting a scan ([startScan]) *)

Record Profile := mkProfile {
  profile_id : option Z;
  subscriptions : option (list Subscription)
}.

(** [startScan] up to its navigation, given what the profile endpoint
    answered (a profile, or the status of a refused request): the content
    of the store afterwards and the actions, in order. *)
Definition startScan (user : string) (fetched : Profile + nat)
  : option ScanState * list Output :=
  let fetching := Post (PROGRESS (Status (FetchingProfile user))) in
  match fetched with
  | inr status => (None, [fetching; Post (ERROR (ProfileFetchFailed status))])
  | inl p =>
      match or_empty (subscriptions p) with
      | [] => (None, [fetching; Post (ERROR NoSubscriptionsFound)])
      | subs =>
          let found :=
            Post (PROGRESS (Status (FoundSubscriptions (List.length subs)))) in
          let state := initial_state user (profile_id p) subs in
          match pagesToVisit state with
          | [] => (Some state, [fetching; found; Post (ERROR TypeError)])
          | first :: _ =>
              (Some state,
               [fetching; found;
                Post (PROGRESS (ScanningFirst 1
                        (List.length (pagesToVisit state))
                        (pv_name first ++ " (" ++
                           pageType_str (pageType first) ++ ")")
                        0));
                Navigate (visit_url first)])
          end
      end
  end.

(* ------------------------------------------------------------------ *)
(** ** Navigator: the script across page loads

    A page load creates a fresh script instance; the only thing that
    survives is the store.  Within an instance [processScan] suspends at
    [await getUsersForPage(...)] and at [await sleep(delay)]; a
    CANCEL_SCAN command may arrive while it is suspended.

    The machine covers a scan from the page load that follows the
    navigation of [startScan] to its end.  [startScan] itself is the
    function [startScan] above: a START_SCAN command and the two
    suspensions of [startScan] are not events or tasks of this machine, so
    nothing stated about the machine speaks of a command that arrives while
    [startScan] is in flight. *)

Inductive Task :=
| Idle
| Pending                                         (* [setTimeout(processScan, 3000)] *)
| Extracting (state : ScanState) (page : PageVisit) (* [await getUsersForPage] *)
| Sleeping (state : ScanState) (next : PageVisit).  (* [await sleep(delay)] *)

Record Machine := mkMachine {
  storage : option ScanState;     (* [sessionStorage[STATE_KEY]] *)
  document : PageContext;
  task : Task
}.

Inductive Event :=
| Load (ctx : PageContext)   (* the host loads a page and injects the script *)
| TimerFired                 (* the 3000 ms timer runs [processScan] *)
| FetchDone                  (* [getUsersForPage] resolves *)
| SleepDone                  (* [sleep(delay)] resolves *)
| Cancel.                    (* the [CANCEL_SCAN] command *)

Definition scanning (st : ScanState) (p : PageVisit) : Output :=
  Post (PROGRESS (Scanning (currentPageIndex st + 1)
                           (List.length (pagesToVisit st))
                           (pv_name p) (pageType p)
                           (List.length (newsletters st))
                           (List.length (personAppearances st)))).

(** The part of [processScan] after the tracking block: "Move to next page
    or finish".  [store] is the store as it is when this part runs; the
    plan has an entry at the cursor exactly when the cursor is below its
    length. *)
Definition move_on (store : option ScanState) (doc : PageContext)
    (st : ScanState) : Machine * list Output :=
  match nth_error (pagesToVisit st) (currentPageIndex st) with
  | Some next =>
      ({| storage := store; document := doc; task := Sleeping st next |},
       [scanning st next])
  | None =>
      ({| storage := None; document := doc; task := Idle |},
       [Post (PROGRESS (Status ComputingMatches));
        Post (COMPLETE (finishScan st))])
  end.

(** [processScan] up to its first suspension. *)
Definition processScan (m : Machine) : Machine * list Output :=
  match storage m with
  | None => ({| storage := None; document := document m; task := Idle |}, [])
  | Some st =>
      match nth_error (pagesToVisit st) (currentPageIndex st) with
      | Some currentPage =>
          if JS.includes (href (document m)) ("@" ++ subdomain currentPage)
          then ({| storage := storage m; document := document m;
                   task := Extracting st currentPage |},
                [scanning st currentPage])
          else move_on (storage m) (document m) st
      | None => move_on (storage m) (document m) st
      end
  end.

(** [processScan] from the moment [getUsersForPage] resolves.  When the
    tracking loop throws, the promise of [processScan] is rejected: the
    cursor is not advanced, [setState] is not reached, so the store is as
    it was, and this script instance does nothing more. *)
Definition after_fetch (m : Machine) (st : ScanState) (page : PageVisit)
  : Machine * list Output :=
  let found := getUsersForPage (document m) (authorId page) (pageType page) in
  if tracking_throws (newsletterId page) (personAppearances st) found
  then ({| storage := storage m; document := document m; task := Idle |}, [])
  else
    let st' := record_visit st page found in
    let '(m', out) := move_on (Some st') (document m) st' in
    (m', Visited (currentPageIndex st) page found :: out).

Definition step (m : Machine) (e : Event) : Machine * list Output :=
  match e with
  | Load ctx =>
      match storage m with
      | Some _ => ({| storage := storage m; document := ctx; task := Pending |}, [])
      | None => ({| storage := None; document := ctx; task := Idle |}, [Post READY])
      end
  | TimerFired =>
      match task m with
      | Pending => processScan m
      | _ => (m, [])
      end
  | FetchDone =>
      match task m with
      | Extracting st page => after_fetch m st page
      | _ => (m, [])
      end
  | SleepDone =>
      match task m with
      | Sleeping st next =>
          ({| storage := storage m; document := document m; task := Idle |},
           [Navigate (visit_url next)])
      | _ => (m, [])
      end
  | Cancel =>
      ({| storage := None; document := document m; task := task m |}, [])
  end.

Fixpoint run (m : Machine) (es : list Event) : Machine * list Output :=
  match es with
  | [] => (m, [])
  | e :: rest =>
      let '(m1, out1) := step m e in
      let '(m2, out2) := run m1 rest in
      (m2, (out1 ++ out2)%list)
  end.

(** The cursor positions whose visits were processed, in order. *)
Fixpoint visited (out : list Output) : list nat :=
  match out with
  | [] => []
  | Visited i _ _ :: rest => i :: visited rest
  | _ :: rest => visited rest
  end.

(** A host that lets every timer and request complete and loads the page
    the script navigates to; [world n url] is the page found at [url] when
    [n] more steps remain. *)
Fixpoint drive (fuel : nat) (world : nat -> string -> PageContext)
    (m : Machine) : Machine * list Output :=
  match fuel with
  | O => (m, [])
  | S fuel' =>
      match task m with
      | Idle => (m, [])
      | Pending =>
          let '(m1, out1) := step m TimerFired in
          let '(m2, out2) := drive fuel' world m1 in
          (m2, (out1 ++ out2)%list)
      | Extracting _ _ =>
          let '(m1, out1) := step m FetchDone in
          let '(m2, out2) := drive fuel' world m1 in
          (m2, (out1 ++ out2)%list)
      | Sleeping _ next =>
          let '(m1, out1) := step m SleepDone in
          let '(m2, out2) := step m1 (Load (world fuel' (visit_url next))) in
          let '(m3, out3) := drive fuel' world m2 in
          (m3, (out1 ++ out2 ++ out3)%list)
      end
  end.

(** The script instance of a page load that finds [st] in the store. *)
Definition resumed (st : ScanState) (ctx : PageContext) : Machine :=
  {| storage := Some st; document := ctx; task := Pending |}.

(* ------------------------------------------------------------------ *)
(** ** Popup start-up (the [DOMContentLoaded] handler of the popup script) *)

(** The record kept in [chrome.storage.local] under [SCAN_STATE_KEY]: the
    last progress message, stamped with [Date.now()] when it was saved. *)
Record Snapshot := mkSnapshot {
  inProgress : bool;
  snap_current : option Z;
  snap_total : option Z;
  snap_name : option string;
  snap_newsletterCount : option Z;
  snap_matchCount : option Z;
  timestamp : option Z
}.

(** The record kept under [STORAGE_KEY]. *)
Record CachedResults := mkCachedResults {
  cached_matches : list Match;
  cached_timestamp : Z
}.

Inductive PopupSection := form_section | progress_section | results_section
                    | not_substack_section.

(** What the handler does to the popup and to the extension storage. *)
Inductive PopupAction :=
| ShowSection (s : PopupSection)
| ClearScanState
| SetProgressStatus (nlIndex nlCount : option Z)
| SetProgressDetail (name : string) (candidates : option Z)
| SetProgressFill (current total : option Z)
| DisplayResults (matches : list Match) (stamp : Z)
| ShowError (message : string).

Definition ONE_HOUR : Z := 60 * 60 * 1000.

(** [Math.ceil(x / 2)]; a missing [x] gives [NaN], here [None]. *)
Definition ceil_half (x : option Z) : option Z :=
  option_map (fun v => (v + 1) / 2) x.

Definition truthy_Z (x : option Z) : bool :=
  match x with Some v => negb (v =? 0) | None => false end.

(** [scanState.timestamp && (Date.now() - scanState.timestamp > ONE_HOUR)]. *)
Definition is_stale (now : Z) (s : Snapshot) : bool :=
  match timestamp s with
  | Some t => negb (t =? 0) && (ONE_HOUR <? now - t)
  | None => false
  end.

(** The tail of the handler: "Check for cached results". *)
Definition show_cached (cached : option CachedResults) : list PopupAction :=
  match cached with
  | Some c =>
      if non_empty (cached_matches c)
      then [DisplayResults (cached_matches c) (cached_timestamp c);
            ShowSection results_section]
      else [ShowSection form_section]
  | None => [ShowSection form_section]
  end.

Definition restore_progress (s : Snapshot) : list PopupAction :=
  [ShowSection progress_section;
   SetProgressStatus (ceil_half (snap_current s))
     (if truthy_Z (snap_newsletterCount s) then snap_newsletterCount s
      else ceil_half (snap_total s));
   SetProgressDetail (str_or_empty (snap_name s))
     (match snap_matchCount s with
      | Some c => if 0 <? c then Some c else None
      | None => None
      end);
   SetProgressFill (snap_current s) (snap_total s)].

(** [tab.url && (tab.url.includes('substack.com') || tab.url.match(...))];
    an address the pattern matches contains [substack.com] already. *)
Definition isSubstack (tab_url : option string) : bool :=
  JS.truthy_str tab_url && JS.includes (str_or_empty tab_url) "substack.com".

(** The handler, for the active tab's address, the time and the two
    stored records. *)
Definition popup_init (tab_url : option string) (now : Z)
    (scanState : option Snapshot) (cached : option CachedResults)
  : list PopupAction :=
  if negb (isSubstack tab_url)
  then [ShowSection not_substack_section]
  else
    match scanState with
    | Some s =>
        if inProgress s then
          if is_stale now s
          then (ClearScanState :: show_cached cached)%list
          else restore_progress s
        else show_cached cached
    | None => show_cached cached
    end.

(** Whether a list of actions reports an error to the user. *)
Definition reports_error (acts : list PopupAction) : bool :=
  existsb (fun a => match a with ShowError _ => true | _ => false end) acts.

(** Whether a list of actions puts progress data on display. *)
Definition shows_progress (acts : list PopupAction) : bool :=
  existsb (fun a => match a with
                    | ShowSection progress_section
                    | SetProgressStatus _ _
                    | SetProgressDetail _ _
                    | SetProgressFill _ _ => true
                    | _ => false
                    end) acts.

(** Whether a list of script actions contains a [PROGRESS] message. *)
Definition posts_progress (out : list Output) : bool :=
  existsb (fun o => match o with Post (PROGRESS _) => true | _ => false end) out.

(* ------------------------------------------------------------------ *)
(** ** Predicates used in the statements *)

(** An entry of the map that is neither the seed user's (handles compared
    without regard to case) nor short of [min_overlap] newsletter ids. *)
Definition qualifies (seed : string) (e : string * Appearance) : bool :=
  negb (JS.toLowerCase (fst e) =? JS.toLowerCase seed)%string &&
  negb (List.length (newsletterIds (snd e)) <? min_overlap)%nat.

(** The field-by-field merge of the snapshot of an entry already stored
    under [key], when the record [u] of the same handle is processed. *)
Definition merges_snapshot (id : Z) (m : Appearances) (u : User)
    (key : string) : Prop :=
  forall old, lookup key m = Some old ->
  exists new,
    lookup key (track_user id m u) = Some new /\
    user_name (profile new) =
      newest_non_empty (user_name (profile old)) (user_name u) /\
    bio (profile new) = newest_non_empty (bio (profile old)) (bio u) /\
    photo_url (profile new) =
      newest_non_empty (photo_url (profile old)) (photo_url u).

(** The staleness rule at one resume attempt: the popup opens at time [now]
    on snapshot [snap], and a page load finds [st] in the store.  The rule
    asks that the stale state be discarded, that the failure be reported,
    and that no progress be shown or posted from it. *)
Definition staleness_rule_at (tab_url : option string) (now : Z)
    (snap : Snapshot) (cached : option CachedResults)
    (st : ScanState) (ctx : PageContext) : Prop :=
  let acts := popup_init tab_url now (Some snap) cached in
  In ClearScanState acts /\
  reports_error acts = true /\
  shows_progress acts = false /\
  posts_progress (snd (step (resumed st ctx) TimerFired)) = false.




(** A page on which no extracted record has the name of a member of
    [Object.prototype] as its handle. *)
Definition plain_page (ctx : PageContext) : Prop :=
  forall author t u key,
    In u (getUsersForPage ctx author t) -> handle u = Some key ->
    inherited key = false.

(** A run that processed the [d] visits from cursor [k] on, in order, and
    ended by posting the result and clearing the store. *)
Definition completed (k d : nat) (r : Machine * list Output) : Prop :=
  visited (snd r) = seq k d /\
  storage (fst r) = None /\
  task (fst r) = Idle /\
  exists before matches, snd r = (before ++ [Post (COMPLETE matches)])%list.

(** Every copy of the scan state a script instance can read, in the store
    or held by a suspended [processScan], satisfies [P]. *)
Definition every_state (P : ScanState -> Prop) (m : Machine) : Prop :=
  (forall st, storage m = Some st -> P st) /\
  match task m with
  | Extracting st _ | Sleeping st _ => P st
  | Idle | Pending => True
  end.

(** A state of the scan of [seed] whose entries are stored under their own
    handles. *)
Definition sound_state (seed : string) (st : ScanState) : Prop :=
  username st = seed /\ well_keyed (personAppearances st).

(* ------------------------------------------------------------------ *)
(** ** Fixed-point squaring, for bounds on logarithms *)

(** [a] stands for the real [a / s].  [sq_up] squares rounding up,
    [sq_down] rounding down. *)
Definition sq_up (s a : Z) : Z := a * a / s + 1.
Definition sq_down (s a : Z) : Z := a * a / s.

Fixpoint repeat_sq (f : Z -> Z) (n : nat) (a : Z) : Z :=
  match n with
  | O => a
  | S n' => repeat_sq f n' (f a)
  end.

(* ------------------------------------------------------------------ *)
(** ** Concrete scans *)

(** A profile with two scannable subscriptions and one without a
    publication, and the scan planned from it. *)
Definition demo_subscriptions : list Subscription :=
  [ {| publication := Some {| pub_id := 1; pub_name := "Maps";
         pub_subdomain := "maps"; pub_author_id := 5;
         pub_primary_user_id := 0; pub_subscriber_count := Some 100%N |} |};
    {| publication := Some {| pub_id := 2; pub_name := "Tea";
         pub_subdomain := "tea"; pub_author_id := 0;
         pub_primary_user_id := 6; pub_subscriber_count := Some 40%N |} |};
    {| publication := None |} ].

Definition demo_profile : Profile :=
  {| profile_id := Some 99; subscriptions := Some demo_subscriptions |}.

Definition demo_state : ScanState :=
  initial_state "seed" (Some 99) demo_subscriptions.

(** A page on which the list endpoint and the embedded blob give nothing. *)
Definition bare_page (url : string) : PageContext :=
  {| href := url;
     fetchSubscriberList := fun _ _ => None;
     nextDataElement := None;
     profileLinks := [] |}.

(** A host that answers every address with a bare page. *)
Definition bare_world (n : nat) (url : string) : PageContext := bare_page url.

(** A page on which the list endpoint answers with no list at all while
    the embedded blob holds two users. *)
Definition embedded_page : PageContext :=
  {| href := "https://substack.com/@maps/subscribers";
     fetchSubscriberList := fun _ _ => Some {| subscriberLists := Some [] |};
     nextDataElement :=
       Some (Some
         {| pageProps_lists := None;
            initialData_lists :=
              Some [ {| groups := Some [ {| users := Some
                [ {| au_id := Some 11; au_handle := Some "ann";
                     au_username := None; au_name := Some "Ann";
                     au_bio := None; au_photo_url := None;
                     au_primaryPublication := None |};
                  {| au_id := Some 7; au_handle := None;
                     au_username := Some "bob"; au_name := Some "Bob";
                     au_bio := Some "tea"; au_photo_url := None;
                     au_primaryPublication := None |} ] |} ] |} ];
            dehydrated_lists := None |});
     profileLinks :=
       [ {| link_href := "/@carol"; link_text := "Carol";
            card_bio := None; card_img := None |} ] |}.

(** The same person as two lists report her: first without a bio, later
    with one. *)
Definition ann_first : User :=
  {| user_id := Some 11; handle := Some "ann"; user_name := Some "Ann";
     bio := None; photo_url := None; primaryPublication := None |}.

Definition ann_later : User :=
  {| user_id := Some 11; handle := Some "ann"; user_name := Some "Ann";
     bio := Some "writes about maps"; photo_url := None;
     primaryPublication := None |}.

Definition ann_seen_once : Appearances :=
  [("ann", {| profile := ann_first; newsletterIds := [1] |})].

Definition bob : User :=
  {| user_id := Some 7; handle := Some "bob"; user_name := Some "Bob";
     bio := None; photo_url := None; primaryPublication := None |}.

(** A finished scan in which the ids listed for a person are not ids of
    [state.newsletters]. *)
Definition scan_with_unlisted_ids : ScanState :=
  {| username := "seed";
     profileId := None;
     newsletters :=
       [{| nl_id := 1; nl_name := "Maps"; nl_subdomain := "maps";
           nl_authorId := 5; nl_subscriberCount := Some 100%N |}];
     pagesToVisit := [];
     currentPageIndex := 0;
     personAppearances :=
       [("bob", {| profile := bob; newsletterIds := [8; 9] |})] |}.

(** The two newsletters of the worked example: 100 and 1,000,000
    subscribers. *)
Definition small_newsletter : Newsletter :=
  {| nl_id := 1; nl_name := "N1"; nl_subdomain := "n1"; nl_authorId := 5;
     nl_subscriberCount := Some 100%N |}.

Definition large_newsletter : Newsletter :=
  {| nl_id := 2; nl_name := "N2"; nl_subdomain := "n2"; nl_authorId := 6;
     nl_subscriberCount := Some 1000000%N |}.

(** A progress snapshot saved at [1700000000000] ms, read 61 minutes
    later. *)
Definition old_snapshot : Snapshot :=
  {| inProgress := true;
     snap_current := Some 3; snap_total := Some 4;
     snap_name := Some "Maps";
     snap_newsletterCount := Some 2; snap_matchCount := Some 12;
     timestamp := Some 1700000000000 |}.

Definition sixty_one_minutes_later : Z := 1700000000000 + 61 * 60 * 1000.

(* ------------------------------------------------------------------ *)
(** ** Predicates on handles and on the appearance map *)

Fixpoint all_chars (p : ascii -> bool) (s : string) : bool :=
  match s with
  | EmptyString => true
  | String c rest => p c && all_chars p rest
  end.

(** A non-empty string of characters of the class [[a-zA-Z0-9_-]]. *)
Definition handle_like (s : string) : bool :=
  negb (s =? "")%string && all_chars handle_char s.

(** A string at which a run of handle characters ends: the empty string or
    one that starts outside the class. *)
Definition stops_handle (rest : string) : bool :=
  match rest with
  | EmptyString => true
  | String c _ => negb (handle_char c)
  end.

(** Whether the pattern finds the handle [h] in the address of [l]. *)
Definition links_to (h : string) (l : Link) : bool :=
  match match_handle (link_href l) with
  | Some h' => (h' =? h)%string
  | None => false
  end.

(** The handles under which the map has entries, in the order in which
    the entries were created. *)
Definition keys (m : Appearances) : list string := map fst m.

(** A map with one entry per handle, no empty handle, and no newsletter id
    listed twice for a person. *)
Definition tidy (m : Appearances) : Prop :=
  NoDup (keys m) /\
  Forall (fun e => fst e <> "" /\ NoDup (newsletterIds (snd e))) m.

(** The visit a suspended extraction works on is the plan's visit at the
    cursor of the state it holds. *)
Definition task_in_plan (m : Machine) : Prop :=
  match task m with
  | Extracting st page =>
      nth_error (pagesToVisit st) (currentPageIndex st) = Some page
  | Sleeping _ _ | Idle | Pending => True
  end.

(** What the script across page loads can emit, when every state it holds
    satisfies [P]: a result computed by [finishScan] from such a state, a
    scanning progress message built from such a state and the plan's visit
    at its cursor, status messages, READY, navigations and visit records;
    never an error. *)
Definition emitted_from (P : ScanState -> Prop) (o : Output) : Prop :=
  match o with
  | Post (COMPLETE ms) => exists st, P st /\ ms = finishScan st
  | Post (PROGRESS (Scanning _ _ _ _ _ _)) =>
      exists st p,
        P st /\
        nth_error (pagesToVisit st) (currentPageIndex st) = Some p /\
        o = scanning st p
  | Post (PROGRESS (ScanningFirst _ _ _ _)) => False
  | Post (ERROR _) => False
  | Post (PROGRESS (Status _)) | Post READY | Navigate _ | Visited _ _ _ =>
      True
  end.

(** An id that names a newsletter of the list. *)
Definition names_newsletter (nls : list Newsletter) (id : Z) : Prop :=
  exists n, In n nls /\ nl_id n = id.

(** The state of a scan of [seed] as [startScan] plans it and the tracking
    loop fills it. *)
Definition planned (seed : string) (st : ScanState) : Prop :=
  username st = seed /\
  List.length (pagesToVisit st) = (2 * List.length (newsletters st))%nat /\
  (forall p, In p (pagesToVisit st) ->
             names_newsletter (newsletters st) (newsletterId p)) /\
  well_keyed (personAppearances st) /\
  tidy (personAppearances st) /\
  Forall (fun e => Forall (names_newsletter (newsletters st))
                          (newsletterIds (snd e)))
         (personAppearances st).

(** The script has nothing left to do: no stored state, nothing pending. *)
Definition finished (m : Machine) : Prop :=
  storage m = None /\ task m = Idle.

Definition is_complete (o : Output) : bool :=
  match o with Post (COMPLETE _) => true | _ => false end.

(** Outputs in which everything after the first COMPLETE is READY. *)
Fixpoint orderly (out : list Output) : Prop :=
  match out with
  | [] => True
  | Post (COMPLETE _) :: rest => Forall (fun o => o = Post READY) rest
  | _ :: rest => orderly rest
  end.

(** The store is empty and no extraction is in flight. *)
Definition cancelled (m : Machine) : Prop :=
  storage m = None /\
  match task m with
  | Extracting _ _ => False
  | Sleeping _ _ | Idle | Pending => True
  end.

(** READY or a navigation. *)
Definition silent (o : Output) : Prop :=
  o = Post READY \/ exists url, o = Navigate url.

(** The navigations a script instance has announced and not yet carried
    out: one while [processScan] waits in [await sleep(delay)]. *)
Definition awaiting_navigation (m : Machine) : nat :=
  match task m with
  | Sleeping _ _ => 1
  | Extracting _ _ | Idle | Pending => 0
  end.

(** [Math.ceil(c / 2)] on a natural number. *)
Definition half_up (c : nat) : nat := ((c + 1) / 2)%nat.

(** A page whose list endpoint reports Ann and Bob for every author. *)
Definition busy_page (url : string) : PageContext :=
  {| href := url;
     fetchSubscriberList := fun _ _ =>
       Some {| subscriberLists := Some [ {| groups := Some [ {| users := Some
         [ {| au_id := Some 11; au_handle := Some "ann";
              au_username := None; au_name := Some "Ann";
              au_bio := None; au_photo_url := None;
              au_primaryPublication := None |};
           {| au_id := Some 7; au_handle := Some "bob";
              au_username := None; au_name := Some "Bob";
              au_bio := Some "tea"; au_photo_url := None;
              au_primaryPublication := None |} ] |} ] |} ] |};
     nextDataElement := None;
     profileLinks := [] |}.

(** The events of a whole scan of [demo_state] on busy pages. *)
Definition busy_scan : list Event :=
  [ TimerFired; FetchDone; SleepDone;
    Load (busy_page "https://substack.com/@tea/followers");
    TimerFired; FetchDone; SleepDone;
    Load (busy_page "https://substack.com/@maps/subscribers");
    TimerFired; FetchDone; SleepDone;
    Load (busy_page "https://substack.com/@maps/followers");
    TimerFired; FetchDone ].

(** The state that scan reaches before it computes its result. *)
Definition busy_final : ScanState :=
  {| username := username demo_state;
     profileId := profileId demo_state;
     newsletters := newsletters demo_state;
     pagesToVisit := pagesToVisit demo_state;
     currentPageIndex := 4;
     personAppearances :=
       [ ("ann", {| profile := user_of_api
                      {| au_id := Some 11; au_handle := Some "ann";
                         au_username := None; au_name := Some "Ann";
                         au_bio := None; au_photo_url := None;
                         au_primaryPublication := None |};
                    newsletterIds := [2; 1] |});
         ("bob", {| profile := user_of_api
                      {| au_id := Some 7; au_handle := Some "bob";
                         au_username := None; au_name := Some "Bob";
                         au_bio := Some "tea"; au_photo_url := None;
                         au_primaryPublication := None |};
                    newsletterIds := [2; 1] |}) ] |}.

(** Whether a match has exactly the score [v]. *)
Definition has_score (v : R) (x : Match) : bool :=
  if Req_dec_T (score x) v then true else false.

(** Whether a publication is ordered by the planner under the key [k]. *)
Definition has_key (k : Z) (p : Publication) : bool := sort_key p =? k.

Definition is_navigation (o : Output) : bool :=
  match o with Navigate _ => true | _ => false end.

Definition is_error (o : Output) : bool :=
  match o with Post (ERROR _) => true | _ => false end.

(** A profile whose only subscription has no subdomain. *)
Definition unscannable_profile : Profile :=
  {| profile_id := Some 99;
     subscriptions := Some
       [ {| publication := Some {| pub_id := 3; pub_name := "Draft";
              pub_subdomain := ""; pub_author_id := 8;
              pub_primary_user_id := 0;
              pub_subscriber_count := Some 12%N |} |} ] |}.

(* ------------------------------------------------------------------ *)
(** ** Popup: message handlers, result list, time stamps, CSV export *)

(** Strings are sequences of characters as [substring], [length] and
    [includes] count them; times are milliseconds as [Date.now()] gives
    them. *)

(** The snapshot both the popup ([handleProgress]) and the content script
    save for a scanning progress message: [newsletterCount] falls back to
    half the total, rounded up, and the time of saving is attached. *)
Definition scanning_snapshot (now : Z) (current total : Z) (name : string)
    (newsletterCount : option Z) (matchCount : Z) : Snapshot :=
  {| inProgress := true;
     snap_current := Some current;
     snap_total := Some total;
     snap_name := Some name;
     snap_newsletterCount :=
       if truthy_Z newsletterCount then newsletterCount
       else ceil_half (Some total);
     snap_matchCount := Some matchCount;
     timestamp := Some now |}.

(** The snapshot [handleProgress] saves for a status message:
    [{ inProgress: true, status }] and the time.  Nothing reads the
    [status] field back; the record has none of the other fields. *)
Definition status_snapshot (now : Z) : Snapshot :=
  {| inProgress := true;
     snap_current := None; snap_total := None; snap_name := None;
     snap_newsletterCount := None; snap_matchCount := None;
     timestamp := Some now |}.

(** What a handler of the popup does: an action on the popup, a status
    line, a write to the extension storage, or the result list shown
    without a time stamp. *)
Inductive PopupEffect :=
| Display (a : PopupAction)
| StatusLine (t : StatusText)
| EmptyDetail
| SaveScanState (s : Snapshot)
| SaveResults (c : CachedResults)
| ShowMatches (matches : list Match).

(** The fields of a progress message as the popup reads them. *)
Definition progress_fields (p : Progress)
  : option (Z * Z * string * option Z * Z) :=
  match p with
  | Scanning c t name _ nc mc =>
      Some (Z.of_nat c, Z.of_nat t, name, Some (Z.of_nat nc), Z.of_nat mc)
  | ScanningFirst c t name mc =>
      Some (Z.of_nat c, Z.of_nat t, name, None, Z.of_nat mc)
  | Status _ => None
  end.

Definition handleProgress (now : Z) (p : Progress) : list PopupEffect :=
  match p with
  | Status t => [StatusLine t; EmptyDetail; SaveScanState (status_snapshot now)]
  | Scanning _ _ _ _ _ _ | ScanningFirst _ _ _ _ =>
      match progress_fields p with
      | Some (c, t, name, nc, mc) =>
          [Display (SetProgressStatus (ceil_half (Some c))
                      (if truthy_Z nc then nc else ceil_half (Some t)));
           Display (SetProgressDetail name (if 0 <? mc then Some mc else None));
           Display (SetProgressFill (Some c) (Some t));
           SaveScanState (scanning_snapshot now c t name nc mc)]
      | None => []
      end
  end.

Definition handleComplete (now : Z) (matches : list Match)
  : list PopupEffect :=
  [Display ClearScanState;
   SaveResults {| cached_matches := matches; cached_timestamp := now |};
   ShowMatches matches;
   Display (ShowSection results_section)].

Definition handleError (message : string) : list PopupEffect :=
  [Display ClearScanState;
   Display (ShowSection form_section);
   Display (ShowError message)].

(** The two records of the extension storage. *)
Definition ExtStorage : Type := option Snapshot * option CachedResults.

Definition store_effect (s : ExtStorage) (e : PopupEffect) : ExtStorage :=
  match e with
  | Display ClearScanState => (None, snd s)
  | SaveScanState snap => (Some snap, snd s)
  | SaveResults c => (fst s, Some c)
  | _ => s
  end.

Definition store_effects (s : ExtStorage) (es : list PopupEffect)
  : ExtStorage :=
  fold_left store_effect es s.

(** The actions on the popup among the effects of a handler. *)
Fixpoint displayed (es : list PopupEffect) : list PopupAction :=
  match es with
  | [] => []
  | Display a :: rest => a :: displayed rest
  | _ :: rest => displayed rest
  end.

(** [getTimeAgo]: the phrase, with its number. *)
Inductive TimeAgo :=
| JustNow
| MinutesAgo (n : Z)
| HoursAgo (n : Z)
| DaysAgo (n : Z).

Definition getTimeAgo (now date : Z) : TimeAgo :=
  let seconds := (now - date) / 1000 in
  if seconds <? 60 then JustNow
  else if seconds <? 3600 then MinutesAgo (seconds / 60)
  else if seconds <? 86400 then HoursAgo (seconds / 3600)
  else DaysAgo (seconds / 86400).

(** [matches.slice(0, 50)]: the matches that get a card. *)
Definition shown_matches (matches : list Match) : list Match :=
  firstn 50 matches.

(** [bioSnippet] of [displayResults]. *)
Definition bioSnippet (bio : string) : string :=
  if (bio =? "")%string then ""
  else substring 0 100 bio ++
       (if (100 <? String.length bio)%nat then "..." else "").

Definition dquote : ascii := "034"%char.
Definition newline : ascii := "010"%char.
Definition carriage_return : ascii := "013"%char.

(** [str.includes(c)] for a one-character string. *)
Fixpoint has_char (c : ascii) (s : string) : bool :=
  match s with
  | EmptyString => false
  | String d rest => (d =? c)%char || has_char c rest
  end.

(** [str.replace] of every double quote by two of them. *)
Fixpoint double_quotes (s : string) : string :=
  match s with
  | EmptyString => EmptyString
  | String c rest =>
      if (c =? dquote)%char
      then String dquote (String dquote (double_quotes rest))
      else String c (double_quotes rest)
  end.

Definition needs_quoting (s : string) : bool :=
  has_char "," s || has_char dquote s || has_char newline s.

(** [escapeCSV] of [exportMatchesToCSV], on a value that is a string. *)
Definition escapeCSV (s : string) : string :=
  if needs_quoting s
  then String dquote (double_quotes s ++ String dquote EmptyString)
  else s.

Definition is_break (c : ascii) : bool :=
  (c =? newline)%char || (c =? carriage_return)%char.

(** [s.replace(/[\n\r]+/g, ' ')]: [in_run] tells that the previous
    character was part of a run of line breaks, already replaced. *)
Fixpoint flatten_breaks (in_run : bool) (s : string) : string :=
  match s with
  | EmptyString => EmptyString
  | String c rest =>
      if is_break c
      then if in_run then flatten_breaks true rest
           else String " " (flatten_breaks true rest)
      else String c (flatten_breaks false rest)
  end.

(** The Bio field of a CSV row. *)
Definition csv_bio (bio : string) : string :=
  escapeCSV (flatten_breaks false bio).

(* ------------------------------------------------------------------ *)
(** ** Content script: the bridge between popup and page script *)

(** [extension-firefox/src/content/content.js]: its two variables, its
    listener for the page script's messages and its listener for the
    popup's requests. *)

(** A command posted to the page script. *)
Inductive Command :=
| START_SCAN (user : string)
| CANCEL_SCAN.

(** A message of the popup to the content script. *)
Inductive PopupRequest :=
| RequestStart (user : string)
| RequestPing
| RequestCancel.

Inductive Response :=
| Started
| ReadyStatus (ready : bool)
| CancelledStatus.

Record Bridge := mkBridge {
  injectedReady : bool;
  pendingCommand : option Command
}.

Inductive BridgeEffect :=
| ToPage (c : Command)          (* [window.postMessage(command)] *)
| ToPopup (m : Message)         (* [chrome.runtime.sendMessage] *)
| StoreSnapshot (s : Snapshot)  (* [chrome.storage.local.set], scan state *)
| StoreResults (c : CachedResults)
| RemoveSnapshot
| Respond (r : Response).

(** The listener for messages of the page script, for a message that
    passes its two tests of origin ([event.source] and [data.source]); the
    time is [Date.now()]. *)
Definition on_page_message (now : Z) (b : Bridge) (m : Message)
  : Bridge * list BridgeEffect :=
  match m with
  | READY =>
      ({| injectedReady := true; pendingCommand := None |},
       match pendingCommand b with
       | Some c => [ToPage c]
       | None => []
       end)
  | PROGRESS p =>
      (b,
       match progress_fields p with
       | Some (c, t, name, nc, mc) =>
           [StoreSnapshot (scanning_snapshot now c t name nc mc); ToPopup m]
       | None => [ToPopup m]
       end)
  | COMPLETE matches =>
      (b, [StoreResults {| cached_matches := matches;
                           cached_timestamp := now |};
           RemoveSnapshot; ToPopup m])
  | ERROR _ => (b, [RemoveSnapshot; ToPopup m])
  end.

(** The listener for messages of the popup. *)
Definition on_popup_message (b : Bridge) (r : PopupRequest)
  : Bridge * list BridgeEffect :=
  match r with
  | RequestStart user =>
      if injectedReady b
      then (b, [ToPage (START_SCAN user); Respond Started])
      else ({| injectedReady := injectedReady b;
               pendingCommand := Some (START_SCAN user) |},
            [Respond Started])
  | RequestPing => (b, [Respond (ReadyStatus (injectedReady b))])
  | RequestCancel => (b, [ToPage CANCEL_SCAN; Respond CancelledStatus])
  end.

Fixpoint popup_requests (b : Bridge) (rs : list PopupRequest)
  : Bridge * list BridgeEffect :=
  match rs with
  | [] => (b, [])
  | r :: rest =>
      let '(b1, e1) := on_popup_message b r in
      let '(b2, e2) := popup_requests b1 rest in
      (b2, (e1 ++ e2)%list)
  end.

(** The commands posted to the page script, in order. *)
Fixpoint to_page (es : list BridgeEffect) : list Command :=
  match es with
  | [] => []
  | ToPage c :: rest => c :: to_page rest
  | _ :: rest => to_page rest
  end.

(** The last start requested, or [p] when none was. *)
Fixpoint last_start (rs : list PopupRequest) (p : option Command)
  : option Command :=
  match rs with
  | [] => p
  | RequestStart user :: rest => last_start rest (Some (START_SCAN user))
  | _ :: rest => last_start rest p
  end.

Definition bridge_store (s : ExtStorage) (e : BridgeEffect) : ExtStorage :=
  match e with
  | StoreSnapshot snap => (Some snap, snd s)
  | StoreResults c => (fst s, Some c)
  | RemoveSnapshot => (None, snd s)
  | _ => s
  end.

(* ------------------------------------------------------------------ *)
(** ** Delays *)

(** [Math.floor(Math.random() * (max - min + 1)) + min], the random number
    being the fraction [num / den] of the unit interval. *)
Definition randomDelay (num den : Z) (min max : Z) : Z :=
  num * (max - min + 1) / den + min.

(** [row.map(escapeCSV).join(',')]: one line of the exported file. *)
Fixpoint join (sep : string) (l : list string) : string :=
  match l with
  | [] => ""
  | [x] => x
  | x :: rest => x ++ sep ++ join sep rest
  end.

Definition csv_row (fields : list string) : string :=
  join "," (map escapeCSV fields).

(** The content script over a sequence of messages of the page script. *)
Fixpoint page_messages (now : Z) (b : Bridge) (ms : list Message)
  : Bridge * list BridgeEffect :=
  match ms with
  | [] => (b, [])
  | m :: rest =>
      let '(b1, e1) := on_page_message now b m in
      let '(b2, e2) := page_messages now b1 rest in
      (b2, (e1 ++ e2)%list)
  end.

(** The messages handed to the popup, in order. *)
Fixpoint to_popup (es : list BridgeEffect) : list Message :=
  match es with
  | [] => []
  | ToPopup m :: rest => m :: to_popup rest
  | _ :: rest => to_popup rest
  end.

(** The responses given to the popup, in order. *)
Fixpoint responses (es : list BridgeEffect) : list Response :=
  match es with
  | [] => []
  | Respond r :: rest => r :: responses rest
  | _ :: rest => responses rest
  end.

Definition is_ready (m : Message) : bool :=
  match m with READY => true | _ => false end.

(** The commands a sequence of popup requests asks for. *)
Fixpoint requested (rs : list PopupRequest) : list Command :=
  match rs with
  | [] => []
  | RequestStart user :: rest => START_SCAN user :: requested rest
  | RequestCancel :: rest => CANCEL_SCAN :: requested rest
  | RequestPing :: rest => requested rest
  end.

Definition is_cancel (c : Command) : bool :=
  match c with CANCEL_SCAN => true | _ => false end.

(** Whether a string is empty or begins with the given character. *)
Definition empty_or_starts (c : ascii) (s : string) : bool :=
  match s with
  | EmptyString => true
  | String d _ => (d =? c)%char
  end.

(** The response the popup gets to a request. *)
Definition response_to (ready : bool) (r : PopupRequest) : Response :=
  match r with
  | RequestStart _ => Started
  | RequestPing => ReadyStatus ready
  | RequestCancel => CancelledStatus
  end.

(** The first page of the scan of [demo_state]. *)
Definition tea_subscribers : PageContext :=
  busy_page "https://substack.com/@tea/subscribers".

(** Ann as the scan [busy_scan] has recorded her. *)
Definition ann_recorded : Appearance :=
  {| profile := user_of_api
       {| au_id := Some 11; au_handle := Some "ann";
          au_username := None; au_name := Some "Ann";
          au_bio := None; au_photo_url := None;
          au_primaryPublication := None |};
     newsletterIds := [2; 1] |}.

(** A scan whose plan is empty, loaded on a page. *)
Definition empty_plan_scan : Machine :=
  resumed scan_with_unlisted_ids (bare_page "https://substack.com/home").

Definition home : option string := Some "https://substack.com/home".

Definition a_minute_later : Z := 1700000000000 + 60 * 1000.

Definition not_ready : Bridge :=
  {| injectedReady := false; pendingCommand := None |}.

Definition ready : Bridge :=
  {| injectedReady := true; pendingCommand := None |}.

(** A host that answers every address with a busy page. *)
Definition busy_world (n : nat) (url : string) : PageContext := busy_page url.

(** The subscribers page of Tea, on which the list endpoint reports Ann and
    a user whose handle is [constructor]. *)
Definition constructor_page : PageContext :=
  {| href := "https://substack.com/@tea/subscribers";
     fetchSubscriberList := fun _ _ =>
       Some {| subscriberLists := Some [ {| groups := Some [ {| users := Some
         [ {| au_id := Some 11; au_handle := Some "ann";
              au_username := None; au_name := Some "Ann";
              au_bio := None; au_photo_url := None;
              au_primaryPublication := None |};
           {| au_id := Some 12; au_handle := Some "constructor";
              au_username := None; au_name := Some "Con";
              au_bio := None; au_photo_url := None;
              au_primaryPublication := None |} ] |} ] |} ] |};
     nextDataElement := None;
     profileLinks := [] |}.

(** The scan of [demo_state] in the delay before its second page. *)
Definition sleeping_scan : Machine :=
  fst (run (resumed demo_state tea_subscribers) [TimerFired; FetchDone]).

(** The first visit of the plan of [demo_state]. *)
Definition tea_visit : PageVisit :=
  {| newsletterId := 2; pv_name := "Tea"; subdomain := "tea";
     authorId := 6; subscriberCount := Some 40%N; pageType := subscribers |}.

(** The position of the first element of a list that satisfies [p]; the
    length of the list when there is none. *)
Fixpoint position {A : Type} (p : A -> bool) (l : list A) : nat :=
  match l with
  | [] => O
  | x :: rest => if p x then O else S (position p rest)
  end.

(** The position, among the links, of the first link to the handle of a
    record. *)
Definition first_link (links : list Link) (u : User) : nat :=
  position (links_to (str_or_empty (handle u))) links.

(** A string that is empty or begins with a character that is not a line
    break. *)
Definition starts_plain (s : string) : bool :=
  match s with
  | EmptyString => true
  | String c _ => negb (is_break c)
  end.

(* ================================================================== *)
(** * Properties *)

(* ------------------------------------------------------------------ *)
(** ** Sorting *)

Section SortFacts.
Context {A : Type}.
Variable cmp_le : A -> A -> bool.

Lemma insert_perm (x : A) (l : list A) :
  Permutation (JS.insert cmp_le x l) (x :: l).
Proof.
  induction l as [|y l IH]; simpl.
  - apply Permutation_refl.
  - destruct (cmp_le x y).
    + apply Permutation_refl.
    + apply perm_trans with (y :: x :: l).
      * now apply perm_skip.
      * apply perm_swap.
Qed.

Lemma sort_perm (l : list A) : Permutation (JS.sort cmp_le l) l.
Proof.
  induction l as [|x l IH]; simpl.
  - apply perm_nil.
  - apply perm_trans with (x :: JS.sort cmp_le l).
    + apply insert_perm.
    + now apply perm_skip.
Qed.

Lemma sort_length (l : list A) : List.length (JS.sort cmp_le l) = List.length l.
Proof. apply Permutation_length, sort_perm. Qed.

Lemma sort_In (x : A) (l : list A) : In x (JS.sort cmp_le l) <-> In x l.
Proof.
  split; apply Permutation_in; [| apply Permutation_sym]; apply sort_perm.
Qed.

Hypothesis cmp_total : forall x y, cmp_le x y = false -> cmp_le y x = true.
Hypothesis cmp_trans :
  forall x y z, cmp_le x y = true -> cmp_le y z = true -> cmp_le x z = true.

Let le (x y : A) : Prop := cmp_le x y = true.

Lemma insert_sorted (x : A) (l : list A) :
  StronglySorted le l -> StronglySorted le (JS.insert cmp_le x l).
Proof.
  induction 1 as [|y l Hs IH Hall]; simpl.
  - constructor; [constructor | constructor].
  - destruct (cmp_le x y) eqn:E.
    + constructor.
      * now constructor.
      * constructor; [exact E|].
        rewrite Forall_forall in *. intros z Hz.
        apply cmp_trans with y; [exact E | now apply Hall].
    + constructor; [exact IH|].
      rewrite Forall_forall in *. intros z Hz.
      apply (Permutation_in _ (insert_perm x l)) in Hz.
      destruct Hz as [<- | Hz].
      * now apply cmp_total.
      * now apply Hall.
Qed.

Lemma sort_sorted (l : list A) : StronglySorted le (JS.sort cmp_le l).
Proof.
  induction l as [|x l IH]; simpl.
  - constructor.
  - now apply insert_sorted.
Qed.

End SortFacts.

Lemma StronglySorted_weaken {A : Type} (R1 R2 : A -> A -> Prop) (l : list A) :
  (forall a b, R1 a b -> R2 a b) -> StronglySorted R1 l -> StronglySorted R2 l.
Proof.
  intros HR. induction 1 as [|x l Hs IH Hall]; constructor.
  - exact IH.
  - eapply Forall_impl; [| exact Hall]. intros a. apply HR.
Qed.

(* ------------------------------------------------------------------ *)
(** ** Scan planner *)

Lemma plan_pages_length (nls : list Publication) :
  List.length (plan_pages nls) = (2 * List.length nls)%nat.
Proof. induction nls as [|n nls IH]; simpl; [reflexivity | lia]. Qed.

Lemma plan_pages_nth (nls : list Publication) (i : nat) (nl : Publication) :
  nth_error nls i = Some nl ->
  nth_error (plan_pages nls) (2 * i) = Some (visit_of nl subscribers) /\
  nth_error (plan_pages nls) (2 * i + 1) = Some (visit_of nl followers).
Proof.
  revert i; induction nls as [|n nls IH]; intros [|i] H; simpl in H;
    try discriminate.
  - injection H as ->. now split.
  - replace (2 * S i)%nat with (S (S (2 * i))) by lia.
    replace (S (S (2 * i)) + 1)%nat with (S (S (2 * i + 1))) by lia.
    simpl. now apply IH.
Qed.

Lemma plan_newsletters_sorted (subs : list Subscription) :
  StronglySorted (fun a b => sort_key a <= sort_key b) (plan_newsletters subs).
Proof.
  unfold plan_newsletters.
  apply StronglySorted_weaken
    with (R1 := fun a b => by_subscriber_count a b = true).
  { intros a b H. unfold by_subscriber_count in H.
    apply Z.leb_le in H. lia. }
  apply sort_sorted.
  - intros x y H. unfold by_subscriber_count in *.
    apply Z.leb_gt in H. apply Z.leb_le. lia.
  - intros x y z H1 H2. unfold by_subscriber_count in *.
    apply Z.leb_le in H1, H2. apply Z.leb_le. lia.
Qed.

Lemma plan_pages_sorted (nls : list Publication) :
  StronglySorted (fun a b => sort_key a <= sort_key b) nls ->
  StronglySorted (fun p q => visit_key p <= visit_key q) (plan_pages nls).
Proof.
  induction 1 as [|n nls Hs IH Hall]; simpl.
  - constructor.
  - assert (Hrest : Forall (fun q => sort_key n <= visit_key q) (plan_pages nls)).
    { clear - Hall. induction Hall as [|m nls Hm _ IH]; simpl.
      - constructor.
      - constructor; [exact Hm|]. constructor; [exact Hm | exact IH]. }
    constructor.
    + constructor; [exact IH | exact Hrest].
    + constructor; [apply Z.le_refl | exact Hrest].
Qed.

Lemma scannable_publications_all (subs : list Subscription) :
  (forall s, In s subs ->
     exists p, publication s = Some p /\ scannable p = true) ->
  List.length (scannable_publications subs) = List.length subs.
Proof.
  induction subs as [|s subs IH]; intros H; simpl.
  - reflexivity.
  - destruct (H s (or_introl eq_refl)) as (p & -> & ->). simpl.
    f_equal. apply IH. intros s' Hs'. apply H. now right.
Qed.

Lemma startScan_persists (user : string) (p : Profile)
    (subs : list Subscription) :
  subscriptions p = Some subs -> subs <> [] ->
  fst (startScan user (inl p)) = Some (initial_state user (profile_id p) subs).
Proof.
  intros Hs Hne. unfold startScan. rewrite Hs. unfold or_empty.
  destruct subs as [|s subs]; [congruence|].
  destruct (pagesToVisit (initial_state user (profile_id p) (s :: subs)));
    reflexivity.
Qed.

(** C2. For a profile with a non-empty subscription list, the state
    [startScan] persists has a plan of exactly twice as many visits as it
    has newsletters; the plan is in ascending order of subscriber count (a
    missing count ordered as 0); the newsletter at position [i] owns the
    visits at positions [2i] and [2i+1], its subscribers list then its
    followers list; the newsletters are the scannable subscriptions, each
    once (so twice the subscription count when all are scannable); and the
    plan is a function of the subscription list alone. *)
Theorem planner_output (user : string) (p : Profile)
    (subs : list Subscription) :
  subscriptions p = Some subs -> subs <> [] ->
  exists st,
    fst (startScan user (inl p)) = Some st /\
    List.length (pagesToVisit st) = (2 * List.length (newsletters st))%nat /\
    StronglySorted (fun a b => visit_key a <= visit_key b) (pagesToVisit st) /\
    (forall i n, nth_error (newsletters st) i = Some n ->
       nth_error (pagesToVisit st) (2 * i) = Some (visit_for n subscribers) /\
       nth_error (pagesToVisit st) (2 * i + 1) = Some (visit_for n followers)) /\
    Permutation (newsletters st)
                (map newsletter_of (scannable_publications subs)) /\
    ((forall s, In s subs ->
        exists q, publication s = Some q /\ scannable q = true) ->
     List.length (pagesToVisit st) = (2 * List.length subs)%nat) /\
    (forall user' pid',
       pagesToVisit (initial_state user' pid' subs) = pagesToVisit st).
Proof.
  intros Hs Hne. exists (initial_state user (profile_id p) subs).
  split; [now apply startScan_persists|].
  unfold initial_state; simpl.
  split; [| split; [| split; [| split; [| split]]]].
  - rewrite plan_pages_length, length_map. reflexivity.
  - apply plan_pages_sorted, plan_newsletters_sorted.
  - intros i n Hn. rewrite nth_error_map in Hn.
    destruct (nth_error (plan_newsletters subs) i) as [nl|] eqn:E;
      [| discriminate].
    injection Hn as <-. now apply plan_pages_nth.
  - apply Permutation_map. unfold plan_newsletters. apply sort_perm.
  - intros Hall. rewrite plan_pages_length. unfold plan_newsletters.
    rewrite sort_length. now rewrite scannable_publications_all.
  - reflexivity.
Qed.

(* ------------------------------------------------------------------ *)
(** ** Extraction pipeline *)

Lemma non_empty_false {A : Type} (l : list A) : non_empty l = false <-> l = [].
Proof. destruct l; simpl; split; congruence. Qed.

Lemma non_empty_true {A : Type} (l : list A) : non_empty l = true <-> l <> [].
Proof. destruct l; simpl; split; congruence. Qed.

Lemma getUsersForPage_tiers (ctx : PageContext) (author : Z) (t : PageType) :
  getUsersForPage ctx author t =
  if non_empty (tier1 ctx author t) then tier1 ctx author t
  else if non_empty (tier2 ctx) then tier2 ctx
  else tier3 ctx.
Proof.
  unfold getUsersForPage, tier1, tier2, tier3.
  now destruct (fetchSubscriberList ctx author t).
Qed.

(** C3. The pipeline returns the result of the first tier that found
    anyone, whole and alone: tier 1's when it is non-empty; tier 2's when
    tier 1 found no one and tier 2 found someone; tier 3's otherwise.  When
    no tier finds anyone the result is empty, and the step that was waiting
    for it still completes: the visit is recorded with no one found, the
    state is persisted with its cursor one further and its appearances
    untouched, and the scan announces its next page, or, after the last
    visit, posts its result; no error is posted. *)
Theorem extraction_tier_order (ctx : PageContext) (author : Z) (t : PageType) :
  let out := getUsersForPage ctx author t in
  (tier1 ctx author t <> [] -> out = tier1 ctx author t) /\
  (tier1 ctx author t = [] -> tier2 ctx <> [] -> out = tier2 ctx) /\
  (tier1 ctx author t = [] -> tier2 ctx = [] -> out = tier3 ctx) /\
  (tier1 ctx author t = [] -> tier2 ctx = [] -> tier3 ctx = [] ->
   out = [] /\
   forall store st page,
     authorId page = author -> pageType page = t ->
     let m := {| storage := store; document := ctx;
                 task := Extracting st page |} in
     (exists next,
        nth_error (pagesToVisit st) (S (currentPageIndex st)) = Some next /\
        step m FetchDone =
        ({| storage := Some (advance st); document := ctx;
            task := Sleeping (advance st) next |},
         [Visited (currentPageIndex st) page [];
          scanning (advance st) next])) \/
     (nth_error (pagesToVisit st) (S (currentPageIndex st)) = None /\
      step m FetchDone =
      ({| storage := None; document := ctx; task := Idle |},
       [Visited (currentPageIndex st) page [];
        Post (PROGRESS (Status ComputingMatches));
        Post (COMPLETE (finishScan (advance st)))]))).
Proof.
  intros out. subst out. rewrite getUsersForPage_tiers.
  split; [| split; [| split]].
  - intros H. apply non_empty_true in H. now rewrite H.
  - intros H1 H2. apply non_empty_false in H1. apply non_empty_true in H2.
    now rewrite H1, H2.
  - intros H1 H2. apply non_empty_false in H1, H2. now rewrite H1, H2.
  - intros H1 H2 H3. split.
    + now rewrite H1, H2.
    + intros store st page <- <- m. subst m. simpl. unfold after_fetch. simpl.
      assert (E : getUsersForPage ctx (authorId page) (pageType page) = []).
      { rewrite getUsersForPage_tiers. rewrite H1, H2. simpl. exact H3. }
      rewrite E. change (record_visit st page []) with (advance st).
      unfold move_on.
      change (pagesToVisit (advance st)) with (pagesToVisit st).
      change (currentPageIndex (advance st)) with (S (currentPageIndex st)).
      destruct (nth_error (pagesToVisit st) (S (currentPageIndex st)))
        as [next|] eqn:N.
      * left. exists next. split; [exact N | reflexivity].
      * right. split; [exact N | reflexivity].
Qed.

(* ------------------------------------------------------------------ *)
(** ** Appearance accumulator *)

Lemma lookup_app (k : string) (m1 m2 : Appearances) :
  lookup k (m1 ++ m2)%list =
  match lookup k m1 with Some a => Some a | None => lookup k m2 end.
Proof.
  induction m1 as [|[k' a] m1 IH]; simpl; [reflexivity|].
  now destruct (k' =? k)%string.
Qed.

Lemma lookup_alter_same (f : Appearance -> Appearance) (k : string)
    (m : Appearances) :
  lookup k (alter f k m) = option_map f (lookup k m).
Proof.
  induction m as [|[k' a] m IH]; simpl; [reflexivity|].
  destruct (k' =? k)%string eqn:E; simpl; rewrite E; [reflexivity | exact IH].
Qed.

Lemma lookup_alter_other (f : Appearance -> Appearance) (k k' : string)
    (m : Appearances) :
  k' <> k -> lookup k (alter f k' m) = lookup k m.
Proof.
  intros Hne. induction m as [|[k0 a] m IH]; simpl; [reflexivity|].
  destruct (k0 =? k')%string eqn:E; simpl.
  - apply String.eqb_eq in E. subst k0.
    destruct (k' =? k)%string eqn:E'; [| reflexivity].
    apply String.eqb_eq in E'. contradiction.
  - destruct (k0 =? k)%string; [reflexivity | exact IH].
Qed.

Lemma alter_fixed (f : Appearance -> Appearance) (k : string)
    (m : Appearances) :
  (forall a, lookup k m = Some a -> f a = a) -> alter f k m = m.
Proof.
  induction m as [|[k' a] m IH]; simpl; intros H; [reflexivity|].
  destruct (k' =? k)%string.
  - now rewrite (H a eq_refl).
  - f_equal. now apply IH.
Qed.

Lemma push_id_includes (id : Z) (a : Appearance) :
  ids_include (newsletterIds (push_id id a)) id = true.
Proof.
  unfold push_id. destruct (ids_include (newsletterIds a) id) eqn:E.
  - exact E.
  - unfold ids_include. simpl. rewrite existsb_app. simpl.
    rewrite Z.eqb_refl. now rewrite orb_true_r.
Qed.

Lemma push_id_profile (id : Z) (a : Appearance) :
  profile (push_id id a) = profile a.
Proof. unfold push_id. now destruct (ids_include (newsletterIds a) id). Qed.

Lemma push_id_noop (id : Z) (a : Appearance) :
  ids_include (newsletterIds a) id = true -> push_id id a = a.
Proof. intros H. unfold push_id. now rewrite H. Qed.

Lemma throws_spec (m : Appearances) (u : User) :
  throws m u = true <->
  exists key, handle u = Some key /\ key <> "" /\
              inherited key = true /\ lookup key m = None.
Proof.
  unfold throws, JS.truthy_str, member. destruct (handle u) as [key|].
  - destruct (String.eqb_spec key "") as [-> | Hne]; simpl.
    + split; [discriminate|]. intros (k & E & Hk & _). congruence.
    + destruct (lookup key m) as [a|] eqn:L.
      * split; [discriminate|]. intros (k & E & _ & _ & Hn). congruence.
      * destruct (inherited key) eqn:I.
        -- split; [| reflexivity]. intros _. now exists key.
        -- split; [discriminate|]. intros (k & E & _ & Hi & _). congruence.
  - split; [discriminate|]. intros (k & E & _). discriminate E.
Qed.

Lemma throws_own (m : Appearances) (u : User) :
  (forall key, handle u = Some key -> key <> "" ->
               exists a, lookup key m = Some a) ->
  throws m u = false.
Proof.
  intros H. destruct (throws m u) eqn:T; [| reflexivity].
  apply throws_spec in T as (key & Hh & Hne & _ & Hn).
  destruct (H key Hh Hne) as (a & Ha). congruence.
Qed.

Lemma throws_plain (m : Appearances) (u : User) :
  (forall key, handle u = Some key -> inherited key = false) ->
  throws m u = false.
Proof.
  intros H. destruct (throws m u) eqn:T; [| reflexivity].
  apply throws_spec in T as (key & Hh & _ & Hi & _).
  rewrite (H key Hh) in Hi. discriminate Hi.
Qed.

Lemma track_user_throws (id : Z) (m : Appearances) (u : User) :
  throws m u = true -> track_user id m u = m.
Proof.
  intros T. apply throws_spec in T as (key & Hh & Hne & Hi & Hn).
  unfold track_user, member. rewrite Hh, Hn, Hi.
  now destruct (JS.truthy_str (Some key)).
Qed.

Lemma track_user_settles (id : Z) (m : Appearances) (u : User) (key : string) :
  handle u = Some key -> key <> "" -> throws m u = false ->
  settled id (track_user id m u) key.
Proof.
  intros Hh Hne Ht. unfold throws, track_user, JS.truthy_str, member in *.
  rewrite Hh in *.
  apply String.eqb_neq in Hne. rewrite Hne in *. simpl in *.
  unfold settled.
  destruct (lookup key m) as [a|] eqn:E.
  - rewrite lookup_alter_same, E. simpl.
    eexists; split; [reflexivity | apply push_id_includes].
  - destruct (inherited key); [discriminate Ht|].
    rewrite lookup_alter_same, lookup_app, E. simpl.
    rewrite String.eqb_refl. simpl.
    eexists; split; [reflexivity | apply push_id_includes].
Qed.

Lemma track_user_preserves (P : Appearance -> Prop) (id : Z)
    (m : Appearances) (u : User) (key : string) :
  (forall a, P a -> P (push_id id a)) ->
  (exists a, lookup key m = Some a /\ P a) ->
  exists a, lookup key (track_user id m u) = Some a /\ P a.
Proof.
  intros HP (a & Ha & Pa). unfold track_user, member.
  destruct (JS.truthy_str (handle u)); [| now exists a].
  destruct (handle u) as [k|]; [| now exists a].
  destruct (String.eqb_spec k key) as [-> | Hne].
  - rewrite Ha, lookup_alter_same, Ha. simpl.
    eexists; split; [reflexivity | now apply HP].
  - destruct (lookup k m).
    + rewrite lookup_alter_other by exact Hne. now exists a.
    + destruct (inherited k); [now exists a|].
      rewrite lookup_alter_other by exact Hne.
      rewrite lookup_app, Ha. now exists a.
Qed.

(** What every iteration keeps, the loop keeps, wherever it stops. *)
Lemma track_users_invariant (id : Z) (Q : Appearances -> Prop)
    (us : list User) :
  (forall m u, In u us -> Q m -> Q (track_user id m u)) ->
  forall m, Q m -> Q (track_users id m us).
Proof.
  induction us as [|u us IH]; intros Hstep m Hm; simpl; [exact Hm|].
  destruct (throws m u); [exact Hm|].
  apply IH.
  - intros m' u' Hin. apply Hstep. now right.
  - apply Hstep; [now left | exact Hm].
Qed.

Lemma track_users_preserves (P : Appearance -> Prop) (id : Z)
    (us : list User) (m : Appearances) (key : string) :
  (forall a, P a -> P (push_id id a)) ->
  (exists a, lookup key m = Some a /\ P a) ->
  exists a, lookup key (track_users id m us) = Some a /\ P a.
Proof.
  intros HP.
  apply track_users_invariant
    with (Q := fun m' => exists a, lookup key m' = Some a /\ P a).
  intros m' u _. now apply track_user_preserves.
Qed.

Lemma track_user_keeps (id : Z) (m : Appearances) (u : User) (key : string) :
  settled id m key -> settled id (track_user id m u) key.
Proof.
  apply track_user_preserves with
    (P := fun a => ids_include (newsletterIds a) id = true).
  intros a _. apply push_id_includes.
Qed.

Lemma track_users_keeps (id : Z) (us : list User) (m : Appearances)
    (key : string) :
  settled id m key -> settled id (track_users id m us) key.
Proof.
  apply track_users_invariant with (Q := fun m' => settled id m' key).
  intros m' u _. apply track_user_keeps.
Qed.

Lemma track_user_noop (id : Z) (m : Appearances) (u : User) :
  (forall key, handle u = Some key -> key <> "" -> settled id m key) ->
  track_user id m u = m.
Proof.
  intros H. unfold track_user, member.
  destruct (JS.truthy_str (handle u)) eqn:T; [| reflexivity].
  destruct (handle u) as [key|]; [| reflexivity].
  simpl in T. apply negb_true_iff, String.eqb_neq in T.
  destruct (H key eq_refl T) as (a & Ha & Hin).
  rewrite Ha. apply alter_fixed. intros a' Ha'.
  rewrite Ha in Ha'. injection Ha' as <-. now apply push_id_noop.
Qed.

Lemma settled_no_throw (id : Z) (m : Appearances) (u : User) :
  (forall key, handle u = Some key -> key <> "" -> settled id m key) ->
  throws m u = false.
Proof.
  intros H. apply throws_own. intros key Hh Hne.
  destruct (H key Hh Hne) as (a & Ha & _). now exists a.
Qed.

Lemma track_users_noop (id : Z) (us : list User) (m : Appearances) :
  (forall u key, In u us -> handle u = Some key -> key <> "" ->
                 settled id m key) ->
  track_users id m us = m.
Proof.
  induction us as [|u us IH]; intros H; simpl; [reflexivity|].
  destruct (throws m u); [reflexivity|].
  rewrite track_user_noop.
  - apply IH. intros u' key Hin. apply H. now right.
  - intros key. apply H. now left.
Qed.

Lemma track_users_settles (id : Z) (us : list User) (m : Appearances)
    (u : User) (key : string) :
  tracking_throws id m us = false ->
  In u us -> handle u = Some key -> key <> "" ->
  settled id (track_users id m us) key.
Proof.
  revert m. induction us as [|u0 us IH]; intros m Ht Hin Hh Hne;
    [contradiction|].
  simpl in *. apply orb_false_iff in Ht as [T Ht]. rewrite T.
  destruct Hin as [-> | Hin].
  - apply track_users_keeps. now apply track_user_settles.
  - now apply IH.
Qed.

Lemma track_users_twice (id : Z) (us : list User) :
  forall m, track_users id (track_users id m us) us = track_users id m us.
Proof.
  induction us as [|u us IH]; intros m; [reflexivity|].
  cbn [track_users]. destruct (throws m u) eqn:T.
  - cbn [track_users]. now rewrite T.
  - set (once := track_users id (track_user id m u) us).
    assert (Hs : forall key, handle u = Some key -> key <> "" ->
                             settled id once key).
    { intros key Hh Hne. apply track_users_keeps.
      now apply track_user_settles. }
    cbn [track_users].
    rewrite (settled_no_throw id once u Hs), (track_user_noop id once u Hs).
    apply IH.
Qed.

Lemma tracking_plain (id : Z) (us : list User) :
  (forall u key, In u us -> handle u = Some key -> inherited key = false) ->
  forall m, tracking_throws id m us = false.
Proof.
  induction us as [|u us IH]; intros H m; simpl; [reflexivity|].
  rewrite throws_plain by (intros key; apply H; now left).
  apply IH. intros u' key Hin. apply H. now right.
Qed.

(** C9. Running the tracking loop a second time over the same extracted
    list for the same page visit changes nothing: the map after two passes
    is the map after one, so every handle has the same newsletter ids; and
    adding an id to an entry a second time leaves the entry as it was. *)
Theorem accumulator_idempotent (m : Appearances) (us : list User)
    (page : PageVisit) :
  let once := track_users (newsletterId page) m us in
  let twice := track_users (newsletterId page) once us in
  twice = once /\
  (forall key, option_map newsletterIds (lookup key twice) =
               option_map newsletterIds (lookup key once)) /\
  (forall id a, push_id id (push_id id a) = push_id id a).
Proof.
  intros once twice.
  assert (E : twice = once).
  { subst twice once. apply track_users_twice. }
  split; [exact E|]. split.
  - intros key. now rewrite E.
  - intros id a. apply push_id_noop, push_id_includes.
Qed.

Lemma track_user_creates (id : Z) (m : Appearances) (u : User) (key : string) :
  handle u = Some key -> key <> "" -> inherited key = false ->
  lookup key m = None ->
  lookup key (track_user id m u) =
  Some {| profile := u; newsletterIds := [id] |}.
Proof.
  intros Hh Hne Hi Hnone. unfold track_user, JS.truthy_str, member.
  rewrite Hh. apply String.eqb_neq in Hne. rewrite Hne. simpl.
  rewrite Hnone, Hi.
  rewrite lookup_alter_same, lookup_app, Hnone. simpl.
  now rewrite String.eqb_refl.
Qed.

(** C8, as the code has it. An entry that is already in the map keeps the
    profile snapshot it was created with, whatever records are processed
    afterwards: no later record, empty or not, changes any of its fields.
    The snapshot of a handle is the first record seen for it.  A handle
    that names a member of [Object.prototype] and has no entry never gets
    one: the loop stops at its record with a [TypeError], the map as it
    was. *)
Theorem snapshot_first_write_wins (id : Z) (m : Appearances) (us : list User)
    (key : string) :
  (forall old,
     lookup key m = Some old ->
     exists new,
       lookup key (track_users id m us) = Some new /\
       profile new = profile old) /\
  (forall u,
     lookup key m = None -> handle u = Some key -> key <> "" ->
     inherited key = false ->
     tracking_throws id m [u] = false /\
     exists new,
       lookup key (track_users id m (u :: us)) = Some new /\
       profile new = u) /\
  (forall u,
     lookup key m = None -> handle u = Some key -> key <> "" ->
     inherited key = true ->
     tracking_throws id m (u :: us) = true /\
     track_users id m (u :: us) = m).
Proof.
  assert (Hkeep : forall m0 p,
            (exists a, lookup key m0 = Some a /\ profile a = p) ->
            exists new, lookup key (track_users id m0 us) = Some new /\
                        profile new = p).
  { intros m0 p H.
    apply track_users_preserves with (P := fun a => profile a = p);
      [| exact H].
    intros a Ha. now rewrite push_id_profile. }
  split; [| split].
  - intros old H. apply Hkeep. now exists old.
  - intros u Hnone Hh Hne Hi.
    assert (T : throws m u = false).
    { apply throws_plain. intros k Hk. congruence. }
    split; [simpl; now rewrite T|].
    cbn [track_users]. rewrite T. apply Hkeep.
    rewrite (track_user_creates id m u key Hh Hne Hi Hnone).
    now eexists.
  - intros u Hnone Hh Hne Hi.
    assert (T : throws m u = true).
    { apply throws_spec. now exists key. }
    simpl. rewrite T. split; reflexivity.
Qed.

(** C8, as stated, fails: a later record with a bio does not reach the
    stored snapshot of a person first seen without one. *)
Lemma snapshot_merge_refuted : ~ merges_snapshot 2 ann_seen_once ann_later "ann".
Proof.
  intros H. destruct (H _ eq_refl) as (new & Hnew & _ & Hbio & _).
  simpl in Hnew. injection Hnew as <-. discriminate Hbio.
Qed.

(* ------------------------------------------------------------------ *)
(** ** Scorer *)

(** The test an entry passes to be scored. *)
Lemma collect_matches_filter (seed : string) (nls : list Newsletter)
    (m : Appearances) :
  collect_matches seed nls m =
  map (fun e => match_of nls (snd e)) (filter (qualifies seed) m).
Proof.
  induction m as [|[h a] m IH]; simpl; [reflexivity|].
  unfold qualifies at 1. simpl.
  destruct (JS.toLowerCase h =? JS.toLowerCase seed)%string; simpl;
    [exact IH|].
  destruct (List.length (newsletterIds a) <? min_overlap)%nat; simpl;
    [exact IH | now rewrite IH].
Qed.

Lemma collect_matches_In (seed : string) (nls : list Newsletter)
    (m : Appearances) (x : Match) :
  In x (collect_matches seed nls m) ->
  exists h a,
    In (h, a) m /\ x = match_of nls a /\
    JS.toLowerCase h <> JS.toLowerCase seed /\
    (min_overlap <= List.length (newsletterIds a))%nat.
Proof.
  rewrite collect_matches_filter, in_map_iff.
  intros ([h a] & <- & Hin). apply filter_In in Hin as (Hin & Hok).
  unfold qualifies in Hok.
  apply andb_true_iff in Hok as (H1 & H2). simpl in *.
  apply negb_true_iff in H1, H2.
  apply String.eqb_neq in H1. apply Nat.ltb_ge in H2.
  now exists h, a.
Qed.

Lemma filter_split_perm {A : Type} (f : A -> bool) (l : list A) :
  Permutation (filter f l ++ filter (fun x => negb (f x)) l)%list l.
Proof.
  induction l as [|a l IH]; simpl; [constructor|].
  destruct (f a); simpl.
  - now constructor.
  - apply Permutation_sym, Permutation_cons_app. now apply Permutation_sym.
Qed.

Lemma perm_filter {A : Type} (f : A -> bool) (l l' : list A) :
  Permutation l l' -> Permutation (filter f l) (filter f l').
Proof.
  induction 1 as [| x l l' _ IH | x y l | l l' l'' _ IH1 _ IH2]; simpl.
  - constructor.
  - destruct (f x); [now constructor | exact IH].
  - destruct (f x), (f y); try apply Permutation_refl. apply perm_swap.
  - now apply perm_trans with (filter f l').
Qed.

(** [Object.entries] lists every entry once. *)
Lemma entries_perm (m : Appearances) : Permutation (entries m) m.
Proof.
  unfold entries.
  eapply perm_trans; [| apply (filter_split_perm indexed)].
  apply Permutation_app_tail. apply sort_perm.
Qed.

Lemma entries_In (e : string * Appearance) (m : Appearances) :
  In e (entries m) <-> In e m.
Proof.
  split; apply Permutation_in;
    [| apply Permutation_sym]; apply entries_perm.
Qed.

Lemma finishScan_In (st : ScanState) (x : Match) :
  In x (finishScan st) <->
  In x (collect_matches (username st) (newsletters st) (personAppearances st)).
Proof.
  unfold finishScan. rewrite sort_In, !collect_matches_filter, !in_map_iff.
  split; intros (e & E & Hin); exists e; (split; [exact E|]);
    apply filter_In in Hin as [H1 H2]; apply filter_In;
    (split; [| exact H2]); now apply entries_In.
Qed.

Lemma track_user_well_keyed (id : Z) (m : Appearances) (u : User) :
  well_keyed m -> well_keyed (track_user id m u).
Proof.
  intros Hm. unfold track_user.
  destruct (JS.truthy_str (handle u)); [| exact Hm].
  destruct (handle u) as [key|] eqn:Hh; [| exact Hm].
  assert (Halter : forall l, well_keyed l ->
                             well_keyed (alter (push_id id) key l)).
  { intros l. induction 1 as [|[k a] l Hk Hl IH]; simpl; [constructor|].
    destruct (k =? key)%string.
    - constructor; [| exact Hl]. simpl in *. now rewrite push_id_profile.
    - constructor; [exact Hk | exact IH]. }
  destruct (member key m); [now apply Halter | exact Hm |].
  apply Halter, Forall_app. split; [exact Hm|].
  constructor; [exact Hh | constructor].
Qed.

Lemma track_users_well_keyed (id : Z) (us : list User) (m : Appearances) :
  well_keyed m -> well_keyed (track_users id m us).
Proof.
  apply track_users_invariant. intros m' u _. apply track_user_well_keyed.
Qed.

Lemma resolve_length (nls : list Newsletter) (ids : list Z) :
  (List.length (resolve nls ids) <= List.length ids)%nat.
Proof.
  induction ids as [|id ids IH]; simpl; [lia|].
  destruct (newsletterMap_get nls id); simpl; lia.
Qed.

(** C10. The overlap test counts the ids stored for a person, whether or
    not they name a newsletter of the scan: an entry that qualifies by that
    count is emitted.  The emitted match lists, and is scored on, only the
    ids that resolve in the newsletter map; an id that does not resolve adds
    nothing to either.  So a match can be emitted whose list of shared
    newsletters is shorter than [min_overlap], even empty. *)
Theorem overlap_counts_raw_ids :
  (forall st e,
     In e (personAppearances st) -> qualifies (username st) e = true ->
     In (match_of (newsletters st) (snd e)) (finishScan st)) /\
  (forall nls a,
     sharedNewsletters (match_of nls a) = resolve nls (newsletterIds a) /\
     score (match_of nls a) =
       (nicheness_sum (resolve nls (newsletterIds a)) +
        computeQualityScore (profile a) * (1 / 10))%R) /\
  (forall nls id ids,
     newsletterMap_get nls id = None ->
     resolve nls (id :: ids) = resolve nls ids) /\
  (forall nls ids, (List.length (resolve nls ids) <= List.length ids)%nat) /\
  (exists x,
     In x (finishScan scan_with_unlisted_ids) /\
     sharedNewsletters x = [] /\
     (List.length (sharedNewsletters x) < min_overlap)%nat).
Proof.
  split; [| split; [| split; [| split]]].
  - intros st e Hin Hq. apply finishScan_In.
    rewrite collect_matches_filter. apply in_map_iff.
    exists e. split; [reflexivity|]. apply filter_In. now split.
  - intros nls a. split; reflexivity.
  - intros nls id ids H. simpl. now rewrite H.
  - apply resolve_length.
  - exists (match_of (newsletters scan_with_unlisted_ids)
                     {| profile := bob; newsletterIds := [8; 9] |}).
    split; [| split].
    + apply finishScan_In. simpl. now left.
    + reflexivity.
    + simpl. unfold min_overlap. lia.
Qed.

(* ------------------------------------------------------------------ *)
(** ** Nicheness weight *)

Local Open Scope R_scope.

Lemma count_R_pos (n : N) : 0 <= count_R n.
Proof. unfold count_R. apply IZR_le. lia. Qed.

Lemma count_R_lt (a b : N) : (a < b)%N -> count_R a < count_R b.
Proof. intros H. unfold count_R. apply IZR_lt. lia. Qed.

Lemma ln_gt_0 (x : R) : 1 < x -> 0 < ln x.
Proof. intros H. rewrite <- ln_1. apply ln_increasing; lra. Qed.

Lemma inv_ln_decreasing (x y : R) : 1 < x -> x < y -> 1 / ln y < 1 / ln x.
Proof.
  intros Hx Hxy.
  assert (H0 : 0 < ln x) by now apply ln_gt_0.
  assert (H1 : ln x < ln y) by (apply ln_increasing; lra).
  unfold Rdiv. rewrite !Rmult_1_l.
  apply Rinv_lt_contravar; [| exact H1].
  apply Rmult_lt_0_compat; lra.
Qed.

Lemma weight_known (n : N) :
  n <> 0%N -> computeNichenessWeight (Some n) = 1 / ln (count_R n + 2).
Proof.
  intros Hn. unfold computeNichenessWeight. simpl.
  apply N.eqb_neq in Hn. now rewrite Hn.
Qed.

Lemma weight_fallback :
  computeNichenessWeight None = 1 / ln (1000 + 2) /\
  computeNichenessWeight (Some 0%N) = 1 / ln (1000 + 2).
Proof. split; reflexivity. Qed.

Lemma weight_zero_not_formula :
  computeNichenessWeight (Some 0%N) <> 1 / ln (count_R 0 + 2).
Proof.
  destruct weight_fallback as [_ ->]. unfold count_R. simpl.
  intros H.
  assert (Hlt : 1 / ln (1000 + 2) < 1 / ln (0 + 2))
    by (apply inv_ln_decreasing; lra).
  lra.
Qed.

Local Close Scope R_scope.

(* ------------------------------------------------------------------ *)
(** ** Navigator *)

Lemma visited_app (a b : list Output) :
  visited (a ++ b)%list = (visited a ++ visited b)%list.
Proof.
  induction a as [|o a IH]; simpl; [reflexivity|].
  destruct o; simpl; now rewrite IH.
Qed.





Lemma prefix_app (n rest : string) : String.prefix n (n ++ rest) = true.
Proof.
  induction n as [|c n IH]; simpl.
  - now destruct rest.
  - destruct (ascii_dec c c) as [_ | Hne]; [exact IH | contradiction].
Qed.

Lemma includes_app (pre needle post : string) :
  JS.includes (pre ++ needle ++ post) needle = true.
Proof.
  induction pre as [|c pre IH]; simpl.
  - pose proof (prefix_app needle post) as H.
    destruct (needle ++ post); cbn [JS.includes]; now rewrite H.
  - rewrite IH. apply orb_true_r.
Qed.

Lemma visit_url_includes (p : PageVisit) :
  JS.includes (visit_url p) ("@" ++ subdomain p) = true.
Proof.
  unfold visit_url.
  change ("https://substack.com/@" ++ subdomain p ++ "/" ++
            pageType_str (pageType p))
    with ("https://substack.com/" ++
            (String "@" (subdomain p ++ "/" ++ pageType_str (pageType p)))).
  change (String "@" (subdomain p ++ "/" ++ pageType_str (pageType p)))
    with (("@" ++ subdomain p) ++ ("/" ++ pageType_str (pageType p))).
  apply includes_app.
Qed.

Section Drive.
Variable world : nat -> string -> PageContext.
Hypothesis world_href : forall n url, href (world n url) = url.
Hypothesis world_plain : forall n url, plain_page (world n url).

Lemma drive_idle (fuel : nat) (m : Machine) :
  task m = Idle -> drive fuel world m = (m, []).
Proof. intros H. destruct fuel; simpl; [reflexivity | now rewrite H]. Qed.

Lemma completed_cons (k d : nat) (m : Machine) (o : Output)
    (out : list Output) :
  visited [o] = [] -> completed k d (m, out) -> completed k d (m, o :: out).
Proof.
  intros Ho (Hv & Hs & Ht & before & ms & E).
  unfold completed. cbn [fst snd] in *.
  split; [| split; [exact Hs | split; [exact Ht|]]].
  - change (o :: out) with ([o] ++ out)%list. now rewrite visited_app, Ho.
  - exists (o :: before), ms. now rewrite E.
Qed.

Lemma completed_visit (k d : nat) (m : Machine) (p : PageVisit)
    (us : list User) (out : list Output) :
  completed (S k) d (m, out) -> completed k (S d) (m, Visited k p us :: out).
Proof.
  intros (Hv & Hs & Ht & before & ms & E).
  unfold completed. cbn [fst snd] in *.
  split; [| split; [exact Hs | split; [exact Ht|]]].
  - cbn [visited seq]. now rewrite Hv.
  - exists (Visited k p us :: before), ms. now rewrite E.
Qed.

Lemma drive_on_page (d : nat) :
  forall fuel st ctx,
    (List.length (pagesToVisit st) - currentPageIndex st = d)%nat ->
    (forall cur, nth_error (pagesToVisit st) (currentPageIndex st) = Some cur ->
                 JS.includes (href ctx) ("@" ++ subdomain cur) = true) ->
    plain_page ctx ->
    (3 * d + 1 <= fuel)%nat ->
    completed (currentPageIndex st) d (drive fuel world (resumed st ctx)).
Proof.
  induction d as [|d IH]; intros fuel st ctx Hd Hurl Hplain Hfuel.
  - destruct fuel as [|fuel]; [lia|].
    assert (N : nth_error (pagesToVisit st) (currentPageIndex st) = None)
      by (apply nth_error_None; lia).
    unfold resumed. cbn [drive task step]. unfold processScan.
    cbn [storage document]. rewrite N. unfold move_on. rewrite N.
    rewrite drive_idle by reflexivity.
    unfold completed. cbn [fst snd app visited].
    split; [reflexivity | split; [reflexivity | split; [reflexivity|]]].
    now exists [Post (PROGRESS (Status ComputingMatches))], (finishScan st).
  - destruct fuel as [|[|[|fuel]]]; try lia.
    destruct (nth_error (pagesToVisit st) (currentPageIndex st)) as [cur|]
      eqn:N; [| apply nth_error_None in N; lia].
    unfold resumed. cbn [drive task step]. unfold processScan.
    cbn [storage document]. rewrite N, (Hurl cur eq_refl).
    cbn [task step]. unfold after_fetch. cbn [document].
    set (found := getUsersForPage ctx (authorId cur) (pageType cur)).
    rewrite (tracking_plain (newsletterId cur) found)
      by (intros u key; apply Hplain).
    set (st' := record_visit st cur found).
    unfold move_on.
    destruct (nth_error (pagesToVisit st') (currentPageIndex st')) as [next|]
      eqn:N'.
    + cbn [task step storage document].
      change {| storage := Some st';
                document := world fuel (visit_url next);
                task := Pending |}
        with (resumed st' (world fuel (visit_url next))).
      assert (Hrest : completed (currentPageIndex st') d
                (drive fuel world (resumed st' (world fuel (visit_url next))))).
      { apply IH.
        - subst st'. simpl. lia.
        - intros cur' Hc. rewrite N' in Hc. injection Hc as <-.
          rewrite world_href. apply visit_url_includes.
        - apply world_plain.
        - lia. }
      destruct (drive fuel world (resumed st' (world fuel (visit_url next))))
        as [m3 out3].
      cbn [app]. apply completed_cons; [reflexivity|].
      apply completed_visit.
      apply completed_cons; [reflexivity|].
      apply completed_cons; [reflexivity|].
      exact Hrest.
    + cbn [task app].
      assert (d = 0)%nat as ->.
      { apply nth_error_None in N'. subst st'. simpl in N'. lia. }
      apply completed_cons; [reflexivity|].
      apply completed_visit.
      unfold completed. cbn [fst snd app visited].
      split; [reflexivity | split; [reflexivity | split; [reflexivity|]]].
      now exists [Post (PROGRESS (Status ComputingMatches))], (finishScan st').
Qed.

Lemma drive_resumed (fuel : nat) (st : ScanState) (ctx : PageContext) :
  let k := currentPageIndex st in
  let d := (List.length (pagesToVisit st) - k)%nat in
  plain_page ctx ->
  (3 * d + 3 <= fuel)%nat ->
  completed k d (drive fuel world (resumed st ctx)).
Proof.
  intros k d Hplain Hfuel. subst k d.
  destruct (nth_error (pagesToVisit st) (currentPageIndex st)) as [cur|] eqn:N.
  - destruct (JS.includes (href ctx) ("@" ++ subdomain cur)) eqn:U.
    + apply drive_on_page; [reflexivity | | exact Hplain | lia].
      intros cur' Hc. rewrite N in Hc. now injection Hc as <-.
    + destruct fuel as [|[|fuel]]; try lia.
      unfold resumed. cbn [drive task step]. unfold processScan.
      cbn [storage document]. rewrite N, U. unfold move_on. rewrite N.
      cbn [task step storage document].
      change {| storage := Some st;
                document := world fuel (visit_url cur);
                task := Pending |}
        with (resumed st (world fuel (visit_url cur))).
      assert (Hrest : completed (currentPageIndex st)
                (List.length (pagesToVisit st) - currentPageIndex st)
                (drive fuel world (resumed st (world fuel (visit_url cur))))).
      { apply drive_on_page; [reflexivity | | apply world_plain | lia].
        intros cur' Hc. rewrite N in Hc. injection Hc as <-.
        rewrite world_href. apply visit_url_includes. }
      destruct (drive fuel world (resumed st (world fuel (visit_url cur))))
        as [m3 out3].
      cbn [app]. apply completed_cons; [reflexivity|].
      apply completed_cons; [reflexivity|].
      exact Hrest.
  - apply drive_on_page; [reflexivity | | exact Hplain | lia].
    intros cur Hc. rewrite N in Hc. discriminate Hc.
Qed.

End Drive.


(* ------------------------------------------------------------------ *)
(** ** Staleness *)

Lemma is_stale_spec (now : Z) (s : Snapshot) :
  is_stale now s = true <->
  exists t, timestamp s = Some t /\ t <> 0 /\ ONE_HOUR < now - t.
Proof.
  unfold is_stale. destruct (timestamp s) as [t|]; split.
  - intros H. apply andb_true_iff in H as [H1 H2].
    apply negb_true_iff, Z.eqb_neq in H1. apply Z.ltb_lt in H2.
    now exists t.
  - intros (t' & E & H1 & H2). injection E as <-.
    apply andb_true_iff. split.
    + now apply negb_true_iff, Z.eqb_neq.
    + now apply Z.ltb_lt.
  - discriminate.
  - intros (t' & E & _). discriminate E.
Qed.

Lemma show_cached_quiet (cached : option CachedResults) :
  reports_error (show_cached cached) = false /\
  shows_progress (show_cached cached) = false.
Proof.
  unfold show_cached. destruct cached as [c|]; [| now split].
  destruct (non_empty (cached_matches c)); now split.
Qed.

Lemma processScan_posts_progress (st : ScanState) (ctx : PageContext) :
  posts_progress (snd (step (resumed st ctx) TimerFired)) = true.
Proof.
  simpl. unfold processScan, move_on. simpl.
  destruct (nth_error (pagesToVisit st) (currentPageIndex st)) as [cur|];
    [| reflexivity].
  destruct (JS.includes _ _); reflexivity.
Qed.

(** C7, as the code has it. When the popup opens on a Substack tab and the
    stored progress snapshot is in progress with a time stamp more than one
    hour old, the popup removes the snapshot and goes on as if no scan were
    running (cached results, else the start form): it shows none of the
    snapshot's progress data and reports no error.  The state the scan
    itself resumes from carries no time stamp: a page load that finds it
    runs [processScan], which posts a PROGRESS message whatever the age of
    the state. *)
Theorem stale_snapshot_cleared (tab_url : option string) (now t : Z)
    (snap : Snapshot) (cached : option CachedResults) :
  isSubstack tab_url = true ->
  inProgress snap = true ->
  timestamp snap = Some t -> t <> 0 -> ONE_HOUR < now - t ->
  let acts := popup_init tab_url now (Some snap) cached in
  acts = ClearScanState :: show_cached cached /\
  shows_progress acts = false /\
  reports_error acts = false /\
  (forall st ctx,
     posts_progress (snd (step (resumed st ctx) TimerFired)) = true).
Proof.
  intros Hsub Hin Ht Hnz Hold acts.
  assert (E : acts = ClearScanState :: show_cached cached).
  { subst acts. unfold popup_init. rewrite Hsub, Hin. simpl.
    assert (Hs : is_stale now snap = true)
      by (apply is_stale_spec; now exists t).
    now rewrite Hs. }
  destruct (show_cached_quiet cached) as [H1 H2].
  rewrite E. simpl. rewrite H1, H2.
  repeat split. apply processScan_posts_progress.
Qed.

(** C7, as stated, fails 61 minutes after the last update: the popup
    clears the snapshot but reports nothing, and the script resumes the
    stored scan and posts PROGRESS from its cursor. *)
Lemma staleness_rule_refuted :
  ~ staleness_rule_at (Some "https://substack.com/home")
      sixty_one_minutes_later old_snapshot None
      demo_state (bare_page "https://substack.com/@tea/subscribers") /\
  reports_error
    (popup_init (Some "https://substack.com/home") sixty_one_minutes_later
       (Some old_snapshot) None) = false /\
  posts_progress
    (snd (step (resumed demo_state
                  (bare_page "https://substack.com/@tea/subscribers"))
               TimerFired)) = true.
Proof.
  split; [| split].
  - intros (_ & H & _). vm_compute in H. discriminate H.
  - vm_compute. reflexivity.
  - vm_compute. reflexivity.
Qed.

(* ------------------------------------------------------------------ *)
(** ** Bounds on logarithms *)

Local Open Scope R_scope.

Lemma sq_up_bound (s a : Z) (E : R) :
  (0 < s)%Z -> 0 < E ->
  IZR s * E <= IZR a -> IZR s * (E * E) <= IZR (sq_up s a).
Proof.
  intros Hs HE Ha. unfold sq_up.
  assert (Hdiv : (a * a < s * (a * a / s + 1))%Z).
  { replace (a * a / s + 1)%Z with (Z.succ (a * a / s)) by lia.
    apply Z.mul_succ_div_gt. exact Hs. }
  apply IZR_lt in Hdiv. rewrite !mult_IZR in Hdiv.
  assert (Hs' : 0 < IZR s) by now apply (IZR_lt 0).
  set (u := IZR (a * a / s + 1)) in *.
  assert (Hsq : (IZR s * E) * (IZR s * E) <= IZR a * IZR a).
  { apply Rmult_le_compat; try exact Ha;
      apply Rlt_le, Rmult_lt_0_compat; assumption. }
  apply Rmult_le_reg_l with (IZR s); [exact Hs'|]. lra.
Qed.

Lemma sq_down_bound (s b : Z) (E : R) :
  (0 < s)%Z -> (0 <= b)%Z ->
  IZR b <= IZR s * E -> IZR (sq_down s b) <= IZR s * (E * E).
Proof.
  intros Hs Hb Hle. unfold sq_down.
  assert (Hdiv : (s * (b * b / s) <= b * b)%Z)
    by (apply Z.mul_div_le; exact Hs).
  apply IZR_le in Hdiv. rewrite !mult_IZR in Hdiv.
  assert (Hs' : 0 < IZR s) by now apply (IZR_lt 0).
  assert (Hb' : 0 <= IZR b) by now apply (IZR_le 0).
  set (u := IZR (b * b / s)) in *.
  assert (Hsq : IZR b * IZR b <= (IZR s * E) * (IZR s * E))
    by (apply Rmult_le_compat; assumption).
  apply Rmult_le_reg_l with (IZR s); [exact Hs'|]. lra.
Qed.

Lemma sq_down_nonneg (s b : Z) : (0 < s)%Z -> (0 <= sq_down s b)%Z.
Proof. intros Hs. unfold sq_down. apply Z.div_pos; nia. Qed.

Lemma exp_double (y : R) : exp (y * 2) = exp y * exp y.
Proof. replace (y * 2) with (y + y) by lra. apply exp_plus. Qed.

Lemma exp_above (s : Z) (n : nat) :
  (0 < s)%Z ->
  forall (y : R) (a : Z),
    IZR s * exp y <= IZR a ->
    IZR s * exp (y * 2 ^ n) <= IZR (repeat_sq (sq_up s) n a).
Proof.
  intros Hs. induction n as [|n IH]; intros y a Ha; simpl.
  - now rewrite Rmult_1_r.
  - replace (y * (2 * 2 ^ n)) with ((y * 2) * 2 ^ n) by ring.
    apply IH. rewrite exp_double.
    apply sq_up_bound; [exact Hs | apply exp_pos | exact Ha].
Qed.

Lemma exp_below (s : Z) (n : nat) :
  (0 < s)%Z ->
  forall (y : R) (b : Z),
    (0 <= b)%Z ->
    IZR b <= IZR s * exp y ->
    IZR (repeat_sq (sq_down s) n b) <= IZR s * exp (y * 2 ^ n).
Proof.
  intros Hs. induction n as [|n IH]; intros y b Hb Hle; simpl.
  - now rewrite Rmult_1_r.
  - replace (y * (2 * 2 ^ n)) with ((y * 2) * 2 ^ n) by ring.
    apply IH; [now apply sq_down_nonneg|]. rewrite exp_double.
    now apply sq_down_bound.
Qed.

Lemma exp_le_inv_1_minus (y : R) : y < 1 -> exp y * (1 - y) <= 1.
Proof.
  intros Hy.
  pose proof (exp_ineq1_le (- y)) as H.
  pose proof (exp_pos y) as Hp.
  assert (E : exp y * exp (- y) = 1)
    by (rewrite <- exp_plus, Rplus_opp_r; apply exp_0).
  rewrite <- E. apply Rmult_le_compat_l; lra.
Qed.

Lemma le_ln (L x : R) : exp L <= x -> L <= ln x.
Proof.
  intros H. pose proof (exp_pos L) as Hp.
  rewrite <- (ln_exp L). destruct H as [H | ->].
  - left. apply ln_increasing; assumption.
  - right. reflexivity.
Qed.

Lemma ln_le_of (U x : R) : 0 < x -> x <= exp U -> ln x <= U.
Proof.
  intros Hx H. rewrite <- (ln_exp U). destruct H as [H | ->].
  - left. apply ln_increasing; assumption.
  - right. reflexivity.
Qed.

Lemma ln_lower (s a0 X : Z) (y : R) (n : nat) :
  (0 < s)%Z -> y < 1 ->
  IZR s <= IZR a0 * (1 - y) ->
  (repeat_sq (sq_up s) n a0 <=? s * X)%Z = true ->
  y * 2 ^ n <= ln (IZR X).
Proof.
  intros Hs Hy Ha Hfin. apply le_ln.
  assert (Hs' : 0 < IZR s) by now apply (IZR_lt 0).
  assert (H0 : IZR s * exp y <= IZR a0).
  { pose proof (exp_le_inv_1_minus y Hy) as H.
    pose proof (exp_pos y) as Hp.
    apply Rmult_le_reg_r with (1 - y); [lra|].
    apply Rle_trans with (IZR s * 1).
    - rewrite Rmult_assoc. apply Rmult_le_compat_l; lra.
    - lra. }
  pose proof (exp_above s n Hs y a0 H0) as H.
  apply Z.leb_le, IZR_le in Hfin. rewrite mult_IZR in Hfin.
  apply Rmult_le_reg_l with (IZR s); [exact Hs' | lra].
Qed.

Lemma ln_upper (s b0 X : Z) (y : R) (n : nat) :
  (0 < s)%Z -> (0 <= b0)%Z -> (0 < X)%Z ->
  IZR b0 <= IZR s * (1 + y) ->
  (s * X <=? repeat_sq (sq_down s) n b0)%Z = true ->
  ln (IZR X) <= y * 2 ^ n.
Proof.
  intros Hs Hb HX Hb0 Hfin.
  assert (Hs' : 0 < IZR s) by now apply (IZR_lt 0).
  apply ln_le_of; [now apply (IZR_lt 0)|].
  assert (H0 : IZR b0 <= IZR s * exp y).
  { pose proof (exp_ineq1_le y) as H.
    apply Rle_trans with (IZR s * (1 + y)); [exact Hb0|].
    apply Rmult_le_compat_l; lra. }
  pose proof (exp_below s n Hs y b0 Hb H0) as H.
  apply Z.leb_le, IZR_le in Hfin. rewrite mult_IZR in Hfin.
  apply Rmult_le_reg_l with (IZR s); [exact Hs' | lra].
Qed.

Lemma ln_102_bounds : 462 / 100 <= ln 102 <= 465 / 100.
Proof.
  split.
  - replace (462 / 100) with (462 / 100 / 4096 * 2 ^ 12) by (simpl; lra).
    apply ln_lower with (s := 1000000000000000000%Z) (a0 := 1001129203349481105%Z).
    + reflexivity.
    + lra.
    + lra.
    + vm_compute. reflexivity.
  - replace (465 / 100) with (465 / 100 / 512 * 2 ^ 9) by (simpl; lra).
    apply ln_upper with (s := 1000000000000000000%Z) (b0 := 1009082031250000000%Z).
    + reflexivity.
    + discriminate.
    + reflexivity.
    + lra.
    + vm_compute. reflexivity.
Qed.

Lemma ln_1000002_bounds : 1380 / 100 <= ln 1000002 <= 1387 / 100.
Proof.
  split.
  - replace (1380 / 100) with (1380 / 100 / 8192 * 2 ^ 13) by (simpl; lra).
    apply ln_lower with (s := 1000000000000000000%Z)
                        (a0 := 1001687412878139444%Z).
    + reflexivity.
    + lra.
    + lra.
    + vm_compute. reflexivity.
  - replace (1387 / 100) with (1387 / 100 / 2048 * 2 ^ 11) by (simpl; lra).
    apply ln_upper with (s := 1000000000000000000%Z)
                        (b0 := 1006772460937500000%Z).
    + reflexivity.
    + discriminate.
    + reflexivity.
    + lra.
    + vm_compute. reflexivity.
Qed.

Lemma inv_between (x lo hi : R) :
  0 < lo -> lo <= x <= hi -> 1 / hi <= 1 / x <= 1 / lo.
Proof.
  intros Hlo [H1 H2]. unfold Rdiv. rewrite !Rmult_1_l.
  split; apply Rinv_le_contravar; lra.
Qed.

(* ------------------------------------------------------------------ *)
(** ** Nicheness weight: formula, example, monotonicity *)

Lemma example_sum :
  nicheness_sum [small_newsletter; large_newsletter] =
  1 / ln 102 + 1 / ln 1000002.
Proof.
  unfold nicheness_sum, computeNichenessWeight, count_R. simpl.
  replace (100 + 2) with 102 by lra.
  replace (1000000 + 2) with 1000002 by lra.
  lra.
Qed.

(** C4, as the code has it. For a subscriber count that is present and not
    zero the weight is 1 / ln(count + 2); a missing count, and a count of
    zero alike, is replaced by 1000 before the formula is applied.  A
    candidate found in newsletters of 100 and of 1,000,000 subscribers is
    scored 1/ln(102) + 1/ln(1000002) plus a tenth of the quality score,
    and that sum is within 0.001 of 0.288. *)
Theorem nicheness_weight_formula :
  (forall n : N, n <> 0%N ->
     computeNichenessWeight (Some n) = 1 / ln (count_R n + 2)) /\
  computeNichenessWeight None = 1 / ln (1000 + 2) /\
  computeNichenessWeight (Some 0%N) = 1 / ln (1000 + 2) /\
  (forall p : User,
     score (match_of [small_newsletter; large_newsletter]
                     {| profile := p; newsletterIds := [1%Z; 2%Z] |}) =
     1 / ln 102 + 1 / ln 1000002 + computeQualityScore p * (1 / 10)) /\
  Rabs (nicheness_sum [small_newsletter; large_newsletter] - 288 / 1000)
    < 1 / 1000.
Proof.
  split; [exact weight_known|].
  split; [apply weight_fallback|]. split; [apply weight_fallback|]. split.
  - intros p. rewrite <- example_sum. reflexivity.
  - rewrite example_sum.
    pose proof (inv_between (ln 102) (462 / 100) (465 / 100)
                  ltac:(lra) ln_102_bounds) as [H1 H2].
    pose proof (inv_between (ln 1000002) (1380 / 100) (1387 / 100)
                  ltac:(lra) ln_1000002_bounds) as [H3 H4].
    apply Rabs_def1; lra.
Qed.

(** C4, as stated, fails for a count of zero: the weight is that of 1000
    subscribers, not 1 / ln(0 + 2). *)
Lemma nicheness_weight_zero_refuted :
  computeNichenessWeight (Some 0%N) <> 1 / ln (count_R 0 + 2).
Proof. exact weight_zero_not_formula. Qed.

(** C5, as the code has it. Between two counts that are present and not
    zero, the smaller has the strictly greater weight. *)
Theorem nicheness_monotone_nonzero (a b : N) :
  (0 < a)%N -> (a < b)%N ->
  computeNichenessWeight (Some a) > computeNichenessWeight (Some b).
Proof.
  intros Ha Hab.
  rewrite !weight_known by lia.
  pose proof (count_R_pos a) as H0.
  pose proof (count_R_lt a b Hab) as H1.
  apply Rlt_gt, inv_ln_decreasing; lra.
Qed.

(** C5, as stated, fails when the smaller count is zero: a newsletter with
    0 subscribers weighs less than one with 500. *)
Lemma nicheness_monotone_refuted :
  (0 < 500)%N /\
  ~ (computeNichenessWeight (Some 0%N) > computeNichenessWeight (Some 500%N)).
Proof.
  split; [reflexivity|].
  destruct weight_fallback as [_ ->]. rewrite weight_known by discriminate.
  unfold count_R. simpl.
  assert (H : 1 / ln (1000 + 2) < 1 / ln (500 + 2))
    by (apply inv_ln_decreasing; lra).
  lra.
Qed.

Local Close Scope R_scope.

(* ------------------------------------------------------------------ *)
(** ** What a scan hands to the scorer *)

Lemma move_on_sound (seed : string) (store : option ScanState)
    (doc : PageContext) (st : ScanState) :
  (forall s, store = Some s -> sound_state seed s) ->
  sound_state seed st ->
  every_state (sound_state seed) (fst (move_on store doc st)) /\
  (forall ms, In (Post (COMPLETE ms)) (snd (move_on store doc st)) ->
              exists st', sound_state seed st' /\ ms = finishScan st').
Proof.
  intros Hstore Hst. unfold move_on.
  destruct (nth_error (pagesToVisit st) (currentPageIndex st)) as [next|];
    simpl.
  - split; [split; [exact Hstore | exact Hst] |].
    intros ms [H | []]. discriminate H.
  - split; [split; [intros s H; discriminate H | exact I] |].
    intros ms [H | [H | []]]; [discriminate H|].
    injection H as <-. now exists st.
Qed.

Lemma step_sound (seed : string) (m : Machine) (e : Event) :
  every_state (sound_state seed) m ->
  every_state (sound_state seed) (fst (step m e)) /\
  (forall ms, In (Post (COMPLETE ms)) (snd (step m e)) ->
              exists st, sound_state seed st /\ ms = finishScan st).
Proof.
  intros [Hstore Htask].
  assert (Hsame : forall m' out,
            every_state (sound_state seed) m' ->
            (forall ms, ~ In (Post (COMPLETE ms)) out) ->
            every_state (sound_state seed) (fst (m', out)) /\
            (forall ms, In (Post (COMPLETE ms)) (snd (m', out)) ->
                        exists st, sound_state seed st /\ ms = finishScan st)).
  { intros m' out H Hno. split; [exact H|].
    intros ms Hin. destruct (Hno ms Hin). }
  destruct e; cbn [step].
  - (* Load *)
    destruct (storage m) as [st0|] eqn:E; apply Hsame.
    + split; [| exact I]. simpl. intros s' H'. apply Hstore. now rewrite <- H'.
    + intros ms [].
    + split; [intros s' H'; discriminate H' | exact I].
    + intros ms [H | []]. discriminate H.
  - (* TimerFired *)
    destruct (task m) eqn:T;
      try (apply Hsame; [split; [exact Hstore | now rewrite T] |
                         intros ms []]).
    unfold processScan. destruct (storage m) as [st|] eqn:E.
    + pose proof (Hstore st eq_refl) as Hst.
      assert (Hmove := move_on_sound seed (Some st) (document m) st).
      destruct (nth_error (pagesToVisit st) (currentPageIndex st)) as [cur|].
      * destruct (JS.includes (href (document m)) ("@" ++ subdomain cur)).
        -- apply Hsame.
           ++ split; [simpl; intros s' H'; injection H' as <-; exact Hst|].
              exact Hst.
           ++ intros ms [H | []]. discriminate H.
        -- apply Hmove; [| exact Hst].
           intros s' H'. injection H' as <-. exact Hst.
      * apply Hmove; [| exact Hst].
        intros s' H'. injection H' as <-. exact Hst.
    + apply Hsame; [| intros ms []].
      split; [intros s' H'; discriminate H' | exact I].
  - (* FetchDone *)
    destruct (task m) as [| | st page |] eqn:T;
      try (apply Hsame; [split; [exact Hstore | now rewrite T] |
                         intros ms []]).
    unfold after_fetch.
    destruct (tracking_throws _ _ _).
    { apply Hsame; [split; [exact Hstore | exact I] | intros ms []]. }
    set (st' := record_visit st page _).
    assert (Hst' : sound_state seed st').
    { destruct Htask as [Hu Hk]. split; [exact Hu|].
      subst st'. simpl. now apply track_users_well_keyed. }
    destruct (move_on_sound seed (Some st') (document m) st') as [H1 H2];
      [| exact Hst' |].
    { intros s' H'. injection H' as <-. exact Hst'. }
    destruct (move_on (Some st') (document m) st') as [m' out]. simpl in *.
    split; [exact H1|].
    intros ms [H | H]; [discriminate H | now apply H2].
  - (* SleepDone *)
    destruct (task m) eqn:T;
      try (apply Hsame; [split; [exact Hstore | now rewrite T] |
                         intros ms []]).
    apply Hsame.
    + split; [exact Hstore | exact I].
    + intros ms [H | []]. discriminate H.
  - (* Cancel *)
    apply Hsame; [| intros ms []].
    split; [intros s' H'; discriminate H' | exact Htask].
Qed.

Lemma run_sound (seed : string) (es : list Event) :
  forall m,
    every_state (sound_state seed) m ->
    forall ms, In (Post (COMPLETE ms)) (snd (run m es)) ->
               exists st, sound_state seed st /\ ms = finishScan st.
Proof.
  induction es as [|e es IH]; intros m Hm ms; simpl; [intros []|].
  destruct (step_sound seed m e Hm) as [Hm1 Hout].
  destruct (step m e) as [m1 out1]. simpl in Hm1, Hout.
  specialize (IH m1 Hm1 ms).
  destruct (run m1 es) as [m2 out2]. simpl in *.
  intros Hin. apply in_app_or in Hin as [Hin | Hin].
  - now apply Hout.
  - now apply IH.
Qed.

Lemma initial_state_sound (seed : string) (pid : option Z)
    (subs : list Subscription) (ctx : PageContext) :
  every_state (sound_state seed) (resumed (initial_state seed pid subs) ctx).
Proof.
  split; [| exact I]. simpl. intros s H. injection H as <-.
  split; [reflexivity | constructor].
Qed.

(** C6. The matches [finishScan] emits are exactly those of the entries
    that qualify, one per entry: every emitted match is computed from an
    entry whose handle is not the seed user's (even up to letter case) and
    whose list of newsletter ids has at least [min_overlap] = 2 elements.
    When entries are stored under their own handle no emitted match
    carries the seed user's handle; the accumulator stores them so, hence
    no match of a result posted by a scan that [startScan] planned does. *)
Theorem scorer_exclusions (st : ScanState) :
  min_overlap = 2%nat /\
  Permutation (finishScan st)
    (map (fun e => match_of (newsletters st) (snd e))
         (filter (qualifies (username st)) (personAppearances st))) /\
  (forall x, In x (finishScan st) ->
     exists h a,
       In (h, a) (personAppearances st) /\
       x = match_of (newsletters st) a /\
       JS.toLowerCase h <> JS.toLowerCase (username st) /\
       h <> username st /\
       (min_overlap <= List.length (newsletterIds a))%nat) /\
  (well_keyed (personAppearances st) ->
   forall x, In x (finishScan st) ->
     JS.toLowerCase (mu_username (user x)) <> JS.toLowerCase (username st) /\
     mu_username (user x) <> username st) /\
  (forall seed pid subs ctx es ms x,
     In (Post (COMPLETE ms))
        (snd (run (resumed (initial_state seed pid subs) ctx) es)) ->
     In x ms ->
     JS.toLowerCase (mu_username (user x)) <> JS.toLowerCase seed /\
     mu_username (user x) <> seed).
Proof.
  assert (Hkeyed : forall st0,
     well_keyed (personAppearances st0) ->
     forall x, In x (finishScan st0) ->
       JS.toLowerCase (mu_username (user x)) <>
         JS.toLowerCase (username st0) /\
       mu_username (user x) <> username st0).
  { intros st0 Hwk x Hx.
    apply finishScan_In, collect_matches_In in Hx.
    destruct Hx as (h & a & H1 & -> & H3 & _).
    unfold well_keyed in Hwk. rewrite Forall_forall in Hwk.
    specialize (Hwk _ H1). simpl in *. rewrite Hwk. simpl.
    split; [exact H3 | intros ->; now apply H3]. }
  assert (Hin : forall x, In x (finishScan st) ->
     exists h a,
       In (h, a) (personAppearances st) /\
       x = match_of (newsletters st) a /\
       JS.toLowerCase h <> JS.toLowerCase (username st) /\
       h <> username st /\
       (min_overlap <= List.length (newsletterIds a))%nat).
  { intros x Hx. apply finishScan_In, collect_matches_In in Hx.
    destruct Hx as (h & a & H1 & H2 & H3 & H4).
    exists h, a. repeat split; try assumption.
    intros ->. now apply H3. }
  split; [reflexivity|]. split; [| split; [| split]].
  - unfold finishScan.
    eapply perm_trans; [apply sort_perm|].
    rewrite collect_matches_filter.
    apply Permutation_map, perm_filter, entries_perm.
  - exact Hin.
  - apply Hkeyed.
  - intros seed pid subs ctx es ms x Hms Hx.
    destruct (run_sound seed es _ (initial_state_sound seed pid subs ctx)
                ms Hms) as (st' & [Hu Hwk] & ->).
    rewrite <- Hu. now apply Hkeyed.
Qed.

(* ------------------------------------------------------------------ *)
(** ** The embedding at work *)

Example lower_case : JS.toLowerCase "SeEd-Writer_1" = "seed-writer_1".
Proof. reflexivity. Qed.

Example includes_examples :
  JS.includes "https://substack.com/@tea/followers" "@tea" = true /\
  JS.includes "https://substack.com/@teapot/followers" "@tea" = true /\
  JS.includes "https://substack.com/home" "@tea" = false.
Proof. repeat split; reflexivity. Qed.

Example match_handle_examples :
  match_handle "/@carol?utm_source=profile" = Some "carol" /\
  match_handle "https://substack.com/@@dan-o_9/about" = Some "dan-o_9" /\
  match_handle "/profile/12" = None.
Proof. repeat split; reflexivity. Qed.

Example sort_is_stable :
  map pub_name
    (JS.sort by_subscriber_count
       [ mkPublication 1 "b" "b" 1 0 (Some 7%N);
         mkPublication 2 "zero" "z" 1 0 (Some 0%N);
         mkPublication 3 "a" "a" 1 0 (Some 7%N);
         mkPublication 4 "missing" "m" 1 0 None;
         mkPublication 5 "c" "c" 1 0 (Some 3%N) ]) =
  ["zero"; "missing"; "c"; "b"; "a"].
Proof. reflexivity. Qed.

Example tiers_of_embedded_page :
  map handle (tier2 embedded_page) = [Some "ann"; Some "bob"] /\
  map handle (tier3 embedded_page) = [Some "carol"] /\
  map handle (getUsersForPage embedded_page 5 subscribers) =
    [Some "ann"; Some "bob"].
Proof. repeat split; reflexivity. Qed.

Example tracking_two_records :
  track_users 2 ann_seen_once [ann_later; bob] =
  [("ann", {| profile := ann_first; newsletterIds := [1; 2] |});
   ("bob", {| profile := bob; newsletterIds := [2] |})].
Proof. reflexivity. Qed.

Example tracking_stops_at_constructor :
  let con := {| user_id := Some 12; handle := Some "constructor";
                user_name := Some "Con"; bio := None; photo_url := None;
                primaryPublication := None |} in
  member "constructor" ann_seen_once = Inherited /\
  tracking_throws 2 ann_seen_once [bob; con; ann_later] = true /\
  track_users 2 ann_seen_once [bob; con; ann_later] =
  [("ann", {| profile := ann_first; newsletterIds := [1] |});
   ("bob", {| profile := bob; newsletterIds := [2] |})].
Proof. repeat split; reflexivity. Qed.

Example demo_scan_visits :
  visited (snd (drive 15 bare_world
                  (resumed demo_state (bare_page "https://substack.com/home"))))
  = [0; 1; 2; 3]%nat.
Proof. vm_compute. reflexivity. Qed.

Example cancelled_scan_stops :
  visited (snd (run (resumed demo_state
                       (bare_page "https://substack.com/@tea/subscribers"))
                  [TimerFired; FetchDone; Cancel; SleepDone;
                   Load (bare_page "https://substack.com/@tea/followers");
                   TimerFired; FetchDone]))
  = [0]%nat.
Proof. vm_compute. reflexivity. Qed.

(* ------------------------------------------------------------------ *)
(** ** The statements at concrete scans *)

Lemma planner_output_witness :
  exists st,
    fst (startScan "seed" (inl demo_profile)) = Some st /\
    List.length (pagesToVisit st) = (2 * List.length (newsletters st))%nat /\
    StronglySorted (fun a b => visit_key a <= visit_key b) (pagesToVisit st).
Proof.
  destruct (planner_output "seed" demo_profile demo_subscriptions eq_refl
              ltac:(discriminate)) as (st & H1 & H2 & H3 & _).
  exists st. split; [exact H1 | split; [exact H2 | exact H3]].
Defined.

Example demo_plan :
  map (fun p => (pv_name p, pageType p)) (pagesToVisit demo_state) =
  [("Tea", subscribers); ("Tea", followers);
   ("Maps", subscribers); ("Maps", followers)].
Proof. reflexivity. Qed.


Lemma extraction_witness :
  tier1 embedded_page 5 subscribers = [] /\
  List.length (tier2 embedded_page) = 2%nat /\
  getUsersForPage embedded_page 5 subscribers = tier2 embedded_page.
Proof.
  split; [reflexivity | split; [reflexivity|]].
  apply (proj1 (proj2 (extraction_tier_order embedded_page 5 subscribers))).
  - reflexivity.
  - discriminate.
Defined.

Lemma stale_snapshot_witness :
  popup_init (Some "https://substack.com/home") sixty_one_minutes_later
    (Some old_snapshot) None =
  [ClearScanState; ShowSection form_section].
Proof.
  apply (stale_snapshot_cleared (Some "https://substack.com/home")
           sixty_one_minutes_later 1700000000000 old_snapshot None).
  - reflexivity.
  - reflexivity.
  - reflexivity.
  - discriminate.
  - reflexivity.
Defined.

Lemma snapshot_witness :
  exists new,
    lookup "ann" (track_users 2 ann_seen_once [ann_later]) = Some new /\
    profile new = ann_first.
Proof.
  apply (proj1 (snapshot_first_write_wins 2 ann_seen_once [ann_later] "ann")
           {| profile := ann_first; newsletterIds := [1] |}).
  reflexivity.
Defined.

Lemma nicheness_monotone_witness :
  (computeNichenessWeight (Some 100%N) >
   computeNichenessWeight (Some 1000000%N))%R.
Proof.
  apply (nicheness_monotone_nonzero 100 1000000); reflexivity.
Defined.

Example seed_and_single_overlap_dropped :
  collect_matches "Seed" [small_newsletter; large_newsletter]
    [("seed", {| profile := bob; newsletterIds := [1; 2] |});
     ("ann", {| profile := ann_first; newsletterIds := [1] |});
     ("bob", {| profile := bob; newsletterIds := [1; 2] |})] =
  [match_of [small_newsletter; large_newsletter]
            {| profile := bob; newsletterIds := [1; 2] |}].
Proof. reflexivity. Qed.

(* ================================================================== *)
(** * Further properties of the code *)

(* ------------------------------------------------------------------ *)
(** ** Handles scraped from addresses *)

Lemma take_handle_chars (s : string) :
  all_chars handle_char (take_handle s) = true.
Proof.
  induction s as [|c s IH]; simpl; [reflexivity|].
  destruct (handle_char c) eqn:E; simpl; [now rewrite E | reflexivity].
Qed.

Lemma match_handle_like (s h : string) :
  match_handle s = Some h -> handle_like h = true.
Proof.
  induction s as [|c s IH]; simpl; [discriminate|].
  destruct (c =? "@")%char; [| exact IH].
  pose proof (take_handle_chars s) as Hc.
  destruct (take_handle s) as [|c' t] eqn:E; [exact IH|].
  intros H. injection H as <-. unfold handle_like. now rewrite Hc.
Qed.

Lemma take_handle_app (h rest : string) :
  all_chars handle_char h = true ->
  stops_handle rest = true ->
  take_handle (h ++ rest) = h.
Proof.
  intros Hh Hrest. induction h as [|c h IH]; simpl in *.
  - destruct rest as [|c rest]; [reflexivity|]. simpl in *.
    apply negb_true_iff in Hrest. now rewrite Hrest.
  - apply andb_true_iff in Hh as [H1 H2]. rewrite H1. f_equal. now apply IH.
Qed.

Lemma match_handle_app (pre h rest : string) :
  all_chars (fun c => negb (c =? "@")%char) pre = true ->
  handle_like h = true ->
  stops_handle rest = true ->
  match_handle (pre ++ String "@" (h ++ rest)) = Some h.
Proof.
  intros Hpre Hh Hrest. induction pre as [|c pre IH]; simpl in *.
  - unfold handle_like in Hh. apply andb_true_iff in Hh as [Hne Hc].
    rewrite (take_handle_app h rest Hc Hrest).
    destruct h; [discriminate Hne | reflexivity].
  - apply andb_true_iff in Hpre as [H1 H2].
    apply negb_true_iff in H1. rewrite H1. now apply IH.
Qed.

(** The pattern [/@([a-zA-Z0-9_-]+)/] only ever yields a non-empty string
    of handle characters; it finds a handle that follows the first [@] of
    an address up to the next character outside the class; and applied to
    the address the script navigates to for a visit, it gives back the
    visit's subdomain. *)
Theorem scraped_handle :
  (forall s h, match_handle s = Some h -> handle_like h = true) /\
  (forall pre h rest,
     all_chars (fun c => negb (c =? "@")%char) pre = true ->
     handle_like h = true ->
     stops_handle rest = true ->
     match_handle (pre ++ String "@" (h ++ rest)) = Some h) /\
  (forall p,
     handle_like (subdomain p) = true ->
     match_handle (visit_url p) = Some (subdomain p)).
Proof.
  split; [exact match_handle_like|]. split; [exact match_handle_app|].
  intros p Hp. unfold visit_url.
  change ("https://substack.com/@" ++ subdomain p ++ "/" ++
            pageType_str (pageType p))
    with ("https://substack.com/" ++
            String "@" (subdomain p ++ ("/" ++ pageType_str (pageType p)))).
  apply match_handle_app; [reflexivity | exact Hp | reflexivity].
Qed.

(* ------------------------------------------------------------------ *)
(** ** Tier 3: the visible-DOM scan *)

Lemma seen_In (h : string) (seen : list string) :
  existsb (String.eqb h) seen = true <-> In h seen.
Proof.
  rewrite existsb_exists. split.
  - intros (x & Hx & E). apply String.eqb_eq in E. now subst.
  - intros H. exists h. split; [exact H | apply String.eqb_refl].
Qed.

Lemma scrapeLinks_spec (links : list Link) :
  forall seen,
    let us := scrapeLinks seen links in
    NoDup (map handle us) /\
    (forall u, In u us ->
       exists h l,
         handle u = Some h /\ ~ In h seen /\
         find (links_to h) links = Some l /\ u = user_of_link h l) /\
    (forall l h, In l links -> match_handle (link_href l) = Some h ->
       In h seen \/ exists u, In u us /\ handle u = Some h).
Proof.
  induction links as [|l links IH]; intros seen; simpl.
  - split; [constructor|]. split; [intros u [] | intros l h []].
  - destruct (match_handle (link_href l)) as [h0|] eqn:M.
    + destruct (existsb (String.eqb h0) seen) eqn:S.
      * apply seen_In in S. destruct (IH seen) as (N & Hfrom & Hall).
        split; [exact N|]. split.
        -- intros u Hu. destruct (Hfrom u Hu) as (h & l' & H1 & H2 & H3 & H4).
           exists h, l'. repeat split; try assumption.
           unfold links_to at 1. rewrite M.
           destruct (String.eqb_spec h0 h) as [-> | _]; [contradiction|].
           exact H3.
        -- intros l' h [<- | Hl] Hm.
           ++ rewrite M in Hm. injection Hm as <-. now left.
           ++ now apply Hall with l'.
      * assert (S' : ~ In h0 seen).
        { intros Hin. apply seen_In in Hin. congruence. }
        destruct (IH (h0 :: seen)) as (N & Hfrom & Hall).
        split; [| split].
        -- simpl. constructor; [| exact N].
           intros Hin. apply in_map_iff in Hin as (u & Hu & Hin).
           destruct (Hfrom u Hin) as (h & l' & H1 & H2 & _).
           rewrite H1 in Hu. injection Hu as ->. apply H2. now left.
        -- intros u [<- | Hu].
           ++ exists h0, l. repeat split; try assumption.
              unfold links_to. rewrite M. now rewrite String.eqb_refl.
           ++ destruct (Hfrom u Hu) as (h & l' & H1 & H2 & H3 & H4).
              exists h, l'. repeat split; try assumption.
              ** intros Hin. apply H2. now right.
              ** unfold links_to at 1. rewrite M.
                 destruct (String.eqb_spec h0 h) as [-> | _]; [| exact H3].
                 exfalso. apply H2. now left.
        -- intros l' h [<- | Hl] Hm.
           ++ rewrite M in Hm. injection Hm as <-.
              right. exists (user_of_link h0 l). split; [now left | reflexivity].
           ++ destruct (Hall l' h Hl Hm) as [[<- | Hin] | (u & Hu & Hh)].
              ** right. exists (user_of_link h0 l).
                 split; [now left | reflexivity].
              ** now left.
              ** right. exists u. split; [now right | exact Hh].
    + destruct (IH seen) as (N & Hfrom & Hall).
      split; [exact N|]. split.
      * intros u Hu. destruct (Hfrom u Hu) as (h & l' & H1 & H2 & H3 & H4).
        exists h, l'. repeat split; try assumption.
        unfold links_to at 1. now rewrite M.
      * intros l' h [<- | Hl] Hm; [congruence|]. now apply Hall with l'.
Qed.

Lemma StronglySorted_weaken_in {A : Type} (R1 R2 : A -> A -> Prop)
    (l : list A) :
  (forall a b, In a l -> In b l -> R1 a b -> R2 a b) ->
  StronglySorted R1 l -> StronglySorted R2 l.
Proof.
  intros HR H. induction H as [|x l Hs IH Hall]; constructor.
  - apply IH. intros a b Ha Hb. apply HR; now right.
  - rewrite Forall_forall in *. intros b Hb.
    apply HR; [now left | now right | now apply Hall].
Qed.

Lemma first_link_skip (l : Link) (links : list Link) (u : User) (h : string) :
  handle u = Some h -> links_to h l = false ->
  first_link (l :: links) u = S (first_link links u).
Proof.
  intros Hh Hl. unfold first_link. rewrite Hh. simpl. now rewrite Hl.
Qed.

Lemma scrapeLinks_order (links : list Link) :
  forall seen,
    StronglySorted
      (fun u v => (first_link links u < first_link links v)%nat)
      (scrapeLinks seen links).
Proof.
  induction links as [|l links IH]; intros seen; [constructor|].
  assert (Hlift : forall seen',
            (forall h, ~ In h seen' -> links_to h l = false) ->
            StronglySorted
              (fun u v => (first_link (l :: links) u
                           < first_link (l :: links) v)%nat)
              (scrapeLinks seen' links)).
  { intros seen' Hskip.
    apply StronglySorted_weaken_in
      with (R1 := fun u v => (first_link links u < first_link links v)%nat);
      [| apply IH].
    destruct (scrapeLinks_spec links seen') as (_ & Hfrom & _).
    intros a b Ha Hb Hab.
    destruct (Hfrom a Ha) as (ha & _ & Ea & Na & _).
    destruct (Hfrom b Hb) as (hb & _ & Eb & Nb & _).
    rewrite (first_link_skip l links a ha Ea (Hskip ha Na)).
    rewrite (first_link_skip l links b hb Eb (Hskip hb Nb)). lia. }
  cbn [scrapeLinks].
  destruct (match_handle (link_href l)) as [h0|] eqn:M.
  - destruct (existsb (String.eqb h0) seen) eqn:S.
    + apply seen_In in S. apply Hlift. intros h Hn.
      unfold links_to. rewrite M.
      destruct (String.eqb_spec h0 h) as [-> | _];
        [contradiction | reflexivity].
    + constructor.
      * apply Hlift. intros h Hn. unfold links_to. rewrite M.
        destruct (String.eqb_spec h0 h) as [-> | _]; [| reflexivity].
        exfalso. apply Hn. now left.
      * destruct (scrapeLinks_spec links (h0 :: seen)) as (_ & Hfrom & _).
        rewrite Forall_forall. intros v Hv.
        destruct (Hfrom v Hv) as (hv & _ & Ev & Nv & _).
        assert (Hskip : links_to hv l = false).
        { unfold links_to. rewrite M.
          destruct (String.eqb_spec h0 hv) as [-> | _]; [| reflexivity].
          exfalso. apply Nv. now left. }
        rewrite (first_link_skip l links v hv Ev Hskip).
        unfold first_link. simpl. unfold links_to at 1. rewrite M.
        rewrite String.eqb_refl. lia.
  - apply Hlift. intros h _. unfold links_to. now rewrite M.
Qed.

(** The visible-DOM scan returns one record per distinct handle found in
    the profile links, in the order of first appearance: no handle occurs
    twice in its result; every link whose address holds a handle is
    represented; each record is built from the first link with that
    handle, has a well-formed handle, a non-empty name, no id and no
    publication; and a record comes before another exactly as the first
    link to its handle comes before the first link to the other's. *)
Theorem dom_scan_distinct (ctx : PageContext) :
  StronglySorted
    (fun u v => (first_link (profileLinks ctx) u
                 < first_link (profileLinks ctx) v)%nat)
    (tier3 ctx) /\
  NoDup (map handle (tier3 ctx)) /\
  (forall l h, In l (profileLinks ctx) ->
     match_handle (link_href l) = Some h ->
     exists u, In u (tier3 ctx) /\ handle u = Some h) /\
  (forall u, In u (tier3 ctx) ->
     exists h l,
       find (links_to h) (profileLinks ctx) = Some l /\
       u = user_of_link h l /\
       handle u = Some h /\ handle_like h = true /\
       JS.truthy_str (user_name u) = true /\
       user_id u = None /\ primaryPublication u = None).
Proof.
  unfold tier3.
  destruct (scrapeLinks_spec (profileLinks ctx) []) as (N & Hfrom & Hall).
  split; [apply scrapeLinks_order|].
  split; [exact N|]. split.
  - intros l h Hl Hm. destruct (Hall l h Hl Hm) as [[] | H]. exact H.
  - intros u Hu. destruct (Hfrom u Hu) as (h & l & H1 & _ & H3 & ->).
    exists h, l.
    assert (Hlike : handle_like h = true).
    { apply find_some in H3 as [_ H3]. unfold links_to in H3.
      destruct (match_handle (link_href l)) as [h'|] eqn:M; [| discriminate].
      apply String.eqb_eq in H3. subst h'. now apply match_handle_like with (link_href l). }
    repeat split; try assumption; try reflexivity.
    simpl. destruct (link_text l =? "")%string eqn:E; simpl.
    + unfold handle_like in Hlike. now apply andb_true_iff in Hlike as [-> _].
    + now rewrite E.
Qed.

(* ------------------------------------------------------------------ *)
(** ** The tracking loop: what it adds and what it leaves alone *)

Lemma lookup_None_keys (key : string) (m : Appearances) :
  lookup key m = None <-> ~ In key (keys m).
Proof.
  induction m as [|[k a] m IH]; simpl.
  - split; [intros _ [] | reflexivity].
  - destruct (String.eqb_spec k key) as [-> | Hne].
    + split; [discriminate | intros H; exfalso; apply H; now left].
    + rewrite IH. split.
      * intros H [E | Hin]; [contradiction | now apply H].
      * intros H Hin. apply H. now right.
Qed.

Lemma keys_alter (f : Appearance -> Appearance) (key : string)
    (m : Appearances) :
  keys (alter f key m) = keys m.
Proof.
  induction m as [|[k a] m IH]; simpl; [reflexivity|].
  destruct (k =? key)%string; simpl; [reflexivity | now rewrite IH].
Qed.

Lemma keys_track_user (id : Z) (m : Appearances) (u : User) :
  keys (track_user id m u) = keys m \/
  exists key, handle u = Some key /\ key <> "" /\ inherited key = false /\
              ~ In key (keys m) /\
              keys (track_user id m u) = (keys m ++ [key])%list.
Proof.
  unfold track_user, member.
  destruct (JS.truthy_str (handle u)) eqn:T; [| now left].
  destruct (handle u) as [key|]; [| now left].
  simpl in T. apply negb_true_iff, String.eqb_neq in T.
  destruct (lookup key m) eqn:L; [rewrite keys_alter; now left|].
  destruct (inherited key) eqn:I; [now left|].
  rewrite keys_alter.
  right. exists key. apply lookup_None_keys in L.
  repeat split; try assumption. unfold keys. now rewrite map_app.
Qed.

Lemma Forall_alter (R : string -> Appearance -> Prop)
    (f : Appearance -> Appearance) (key : string) (m : Appearances) :
  (forall a, R key a -> R key (f a)) ->
  Forall (fun e => R (fst e) (snd e)) m ->
  Forall (fun e => R (fst e) (snd e)) (alter f key m).
Proof.
  intros Hf. induction 1 as [|[k a] m Hk Hm IH]; simpl; [constructor|].
  destruct (String.eqb_spec k key) as [-> | Hne].
  - constructor; [now apply Hf | exact Hm].
  - constructor; [exact Hk | exact IH].
Qed.

Lemma track_user_Forall (R : string -> Appearance -> Prop) (id : Z)
    (m : Appearances) (u : User) :
  (forall key, handle u = Some key -> key <> "" ->
               R key {| profile := u; newsletterIds := [] |}) ->
  (forall key a, R key a -> R key (push_id id a)) ->
  Forall (fun e => R (fst e) (snd e)) m ->
  Forall (fun e => R (fst e) (snd e)) (track_user id m u).
Proof.
  intros Hnew Hpush Hm. unfold track_user.
  destruct (JS.truthy_str (handle u)) eqn:T; [| exact Hm].
  destruct (handle u) as [key|]; [| exact Hm].
  simpl in T. apply negb_true_iff, String.eqb_neq in T.
  destruct (member key m); [| exact Hm |].
  - apply Forall_alter; [apply Hpush | exact Hm].
  - apply Forall_alter; [apply Hpush|].
    apply Forall_app. split; [exact Hm|].
    constructor; [| constructor]. now apply Hnew.
Qed.

Lemma track_users_Forall (R : string -> Appearance -> Prop) (id : Z)
    (us : list User) (m : Appearances) :
  (forall u key, In u us -> handle u = Some key -> key <> "" ->
                 R key {| profile := u; newsletterIds := [] |}) ->
  (forall key a, R key a -> R key (push_id id a)) ->
  Forall (fun e => R (fst e) (snd e)) m ->
  Forall (fun e => R (fst e) (snd e)) (track_users id m us).
Proof.
  intros Hnew Hpush. apply track_users_invariant.
  intros m' u Hin Hm'. apply track_user_Forall; try assumption.
  intros key. now apply Hnew.
Qed.

Lemma ids_include_In (ids : list Z) (id : Z) :
  ids_include ids id = true <-> In id ids.
Proof.
  unfold ids_include. rewrite existsb_exists. split.
  - intros (x & Hx & E). apply Z.eqb_eq in E. now subst.
  - intros H. exists id. split; [exact H | apply Z.eqb_refl].
Qed.

Lemma push_id_NoDup (id : Z) (a : Appearance) :
  NoDup (newsletterIds a) -> NoDup (newsletterIds (push_id id a)).
Proof.
  intros H. unfold push_id.
  destruct (ids_include (newsletterIds a) id) eqn:E; [exact H|]. simpl.
  assert (Hn : ~ In id (newsletterIds a)).
  { intros Hin. apply ids_include_In in Hin. congruence. }
  apply NoDup_app; [exact H | constructor; [intros [] | constructor] |].
  intros x Hx [<- | []]. contradiction.
Qed.

Lemma track_user_tidy (id : Z) (m : Appearances) (u : User) :
  tidy m -> tidy (track_user id m u).
Proof.
  intros [Hk Hall]. split.
  - destruct (keys_track_user id m u) as [-> | (key & _ & _ & _ & Hn & ->)];
      [exact Hk|].
    apply NoDup_app; [exact Hk | constructor; [intros [] | constructor] |].
    intros x Hx [<- | []]. contradiction.
  - apply track_user_Forall
      with (R := fun k a => k <> "" /\ NoDup (newsletterIds a)).
    + intros key _ Hne. split; [exact Hne | constructor].
    + intros key a [H1 H2]. split; [exact H1 | now apply push_id_NoDup].
    + exact Hall.
Qed.

Lemma track_users_tidy (id : Z) (us : list User) (m : Appearances) :
  tidy m -> tidy (track_users id m us).
Proof.
  apply track_users_invariant. intros m' u _. apply track_user_tidy.
Qed.

Lemma keys_track_users (id : Z) (us : list User) :
  forall m,
    exists added,
      keys (track_users id m us) = (keys m ++ added)%list /\
      forall key, In key added ->
        key <> "" /\ inherited key = false /\ ~ In key (keys m) /\
        exists u, In u us /\ handle u = Some key.
Proof.
  induction us as [|u us IH]; intros m; simpl.
  - exists []. split; [now rewrite app_nil_r | intros key []].
  - destruct (throws m u).
    { exists []. split; [now rewrite app_nil_r | intros key []]. }
    destruct (IH (track_user id m u)) as (added & E & Hadded).
    destruct (keys_track_user id m u)
      as [K | (key & Hh & Hne & Hi & Hn & K)]; rewrite K in *.
    + exists added. split; [exact E|].
      intros key Hin.
      destruct (Hadded key Hin) as (H1 & H2 & H3 & u' & H4 & H5).
      repeat split; try assumption. exists u'. split; [now right | exact H5].
    + exists (key :: added). split.
      * rewrite E, <- app_assoc. reflexivity.
      * intros key' [<- | Hin].
        -- repeat split; try assumption. exists u. split; [now left | exact Hh].
        -- destruct (Hadded key' Hin) as (H1 & H2 & H3 & u' & H4 & H5).
           repeat split; try assumption.
           ++ intros Hin'. apply H3. apply in_or_app. now left.
           ++ exists u'. split; [now right | exact H5].
Qed.

Lemma track_user_other (id : Z) (m : Appearances) (u : User) (key : string) :
  handle u <> Some key -> lookup key (track_user id m u) = lookup key m.
Proof.
  intros Hne. unfold track_user.
  destruct (JS.truthy_str (handle u)); [| reflexivity].
  destruct (handle u) as [k|]; [| reflexivity].
  assert (Hk : k <> key) by congruence.
  destruct (member k m); [| reflexivity |].
  - now rewrite lookup_alter_other by exact Hk.
  - rewrite lookup_alter_other by exact Hk.
    rewrite lookup_app. destruct (lookup key m); [reflexivity|]. simpl.
    destruct (String.eqb_spec k key); [contradiction | reflexivity].
Qed.

Lemma track_users_other (id : Z) (us : list User) (m : Appearances)
    (key : string) :
  (forall u, In u us -> handle u <> Some key) ->
  lookup key (track_users id m us) = lookup key m.
Proof.
  revert m. induction us as [|u us IH]; intros m H; simpl; [reflexivity|].
  destruct (throws m u); [reflexivity|].
  rewrite IH by (intros u' Hin; apply H; now right).
  apply track_user_other. apply H. now left.
Qed.

(** An iteration neither gives nor takes an entry under the name of an
    inherited member, so whether a record makes the loop throw can be read
    off the map the loop starts with. *)
Lemma lookup_inherited (id : Z) (m : Appearances) (u : User) (key : string) :
  inherited key = true ->
  (lookup key (track_user id m u) = None <-> lookup key m = None).
Proof.
  intros Hi. split.
  - intros H. destruct (lookup key m) as [a|] eqn:L; [| reflexivity].
    destruct (track_user_preserves (fun _ => True) id m u key)
      as (a' & Ha' & _); [auto | now exists a | congruence].
  - intros H. assert (D : handle u = Some key \/ handle u <> Some key).
    { destruct (handle u) as [k|]; [| right; discriminate].
      destruct (String.eqb_spec k key) as [-> | Hk];
        [now left | right; congruence]. }
    destruct D as [E | E].
    + unfold track_user, member. rewrite E, H, Hi.
      now destruct (JS.truthy_str (Some key)).
    + now rewrite track_user_other.
Qed.

Lemma throws_track_user (id : Z) (m : Appearances) (u0 u : User) :
  throws (track_user id m u0) u = throws m u.
Proof.
  destruct (throws m u) eqn:T.
  - apply throws_spec in T as (key & Hh & Hne & Hi & Hn).
    apply throws_spec. exists key. repeat split; try assumption.
    now apply lookup_inherited.
  - destruct (throws (track_user id m u0) u) eqn:T'; [| reflexivity].
    apply throws_spec in T' as (key & Hh & Hne & Hi & Hn).
    apply lookup_inherited in Hn; [| exact Hi].
    assert (throws m u = true) by (apply throws_spec; now exists key).
    congruence.
Qed.

Lemma tracking_throws_spec (id : Z) (us : list User) :
  forall m, tracking_throws id m us = existsb (throws m) us.
Proof.
  induction us as [|u us IH]; intros m; simpl; [reflexivity|].
  rewrite IH. f_equal. clear IH.
  induction us as [|u' us IH]; simpl; [reflexivity|].
  now rewrite throws_track_user, IH.
Qed.

(** When the tracking loop runs to its end, everyone on the extracted list
    who has a handle is in the map with the page's newsletter id among
    their ids; records without a handle are ignored.  The loop throws
    exactly when a record of the list has, as its handle, the name of a
    member of [Object.prototype] under which the map has no entry. *)
Theorem tracking_records_everyone (id : Z) (m : Appearances) (us : list User) :
  (tracking_throws id m us = false ->
   forall u key,
     In u us -> handle u = Some key -> key <> "" ->
     exists a, lookup key (track_users id m us) = Some a /\
               In id (newsletterIds a)) /\
  ((forall u, In u us -> JS.truthy_str (handle u) = false) ->
   track_users id m us = m /\ tracking_throws id m us = false) /\
  (tracking_throws id m us = true <->
   exists u key,
     In u us /\ handle u = Some key /\ key <> "" /\
     inherited key = true /\ lookup key m = None).
Proof.
  split; [| split].
  - intros Ht u key Hin Hh Hne.
    destruct (track_users_settles id us m u key Ht Hin Hh Hne)
      as (a & Ha & Hi).
    exists a. split; [exact Ha | now apply ids_include_In].
  - revert m. induction us as [|u us IH]; intros m H; simpl; [now split|].
    assert (T : throws m u = false).
    { unfold throws. now rewrite (H u (or_introl eq_refl)). }
    assert (E : track_user id m u = m).
    { unfold track_user. now rewrite (H u (or_introl eq_refl)). }
    rewrite T, E. apply IH. intros u' Hin. apply H. now right.
  - rewrite tracking_throws_spec, existsb_exists. split.
    + intros (u & Hin & T). apply throws_spec in T as (key & H).
      now exists u, key.
    + intros (u & key & Hin & H). exists u. split; [exact Hin|].
      apply throws_spec. now exists key.
Qed.

(** The tracking loop only adds, wherever it stops: no entry is removed;
    a new entry is stored under the handle of a record of the list, a
    handle that is not empty and not the name of an inherited member; an
    entry of a handle that is not on the list is untouched; an entry that
    was there keeps its ids, with at most the page's newsletter id added
    at the end. *)
Theorem tracking_only_adds (id : Z) (m : Appearances) (us : list User) :
  (forall key, In key (keys m) -> In key (keys (track_users id m us))) /\
  (forall key,
     In key (keys (track_users id m us)) -> ~ In key (keys m) ->
     key <> "" /\ inherited key = false /\
     exists u, In u us /\ handle u = Some key) /\
  (forall key,
     (forall u, In u us -> handle u <> Some key) ->
     lookup key (track_users id m us) = lookup key m) /\
  (forall key a,
     lookup key m = Some a ->
     exists a',
       lookup key (track_users id m us) = Some a' /\
       (newsletterIds a' = newsletterIds a \/
        newsletterIds a' = (newsletterIds a ++ [id])%list)).
Proof.
  destruct (keys_track_users id us m) as (added & E & Hadded).
  split; [| split; [| split]].
  - intros key Hin. rewrite E. apply in_or_app. now left.
  - intros key Hin Hn. rewrite E in Hin.
    apply in_app_or in Hin as [Hin | Hin]; [contradiction|].
    destruct (Hadded key Hin) as (H1 & H2 & _ & H3). auto.
  - apply track_users_other.
  - intros key a Ha.
    apply track_users_preserves
      with (P := fun a' => newsletterIds a' = newsletterIds a \/
                           newsletterIds a' = (newsletterIds a ++ [id])%list).
    + intros a' [E' | E']; unfold push_id.
      * destruct (ids_include (newsletterIds a') id); [now left|].
        right. simpl. now rewrite E'.
      * assert (Hin : ids_include (newsletterIds a') id = true).
        { apply ids_include_In. rewrite E'. apply in_or_app. right. now left. }
        rewrite Hin. now right.
    + exists a. split; [exact Ha | now left].
Qed.

(* ------------------------------------------------------------------ *)
(** ** Invariants of the script across page loads *)

Section Keeps.
Variable P : ScanState -> Prop.
Hypothesis P_record :
  forall st page us,
    nth_error (pagesToVisit st) (currentPageIndex st) = Some page ->
    P st -> P (record_visit st page us).

Lemma move_on_keeps (store : option ScanState) (doc : PageContext)
    (st : ScanState) :
  (forall s, store = Some s -> P s) -> P st ->
  every_state P (fst (move_on store doc st)) /\
  task_in_plan (fst (move_on store doc st)) /\
  Forall (emitted_from P) (snd (move_on store doc st)).
Proof.
  intros Hstore Hst. unfold move_on.
  destruct (nth_error (pagesToVisit st) (currentPageIndex st)) as [next|]
    eqn:N; simpl.
  - split; [split; [exact Hstore | exact Hst] |]. split; [exact I|].
    constructor; [| constructor]. simpl. now exists st, next.
  - split; [split; [intros s H; discriminate H | exact I] |].
    split; [exact I|].
    constructor; [exact I|]. constructor; [| constructor].
    simpl. now exists st.
Qed.

Lemma step_keeps (m : Machine) (e : Event) :
  every_state P m -> task_in_plan m ->
  every_state P (fst (step m e)) /\
  task_in_plan (fst (step m e)) /\
  Forall (emitted_from P) (snd (step m e)).
Proof.
  intros [Hstore Htask] Hplan.
  assert (Hsame : every_state P m /\ task_in_plan m /\
                  Forall (emitted_from P) (@nil Output)).
  { split; [now split|]. split; [exact Hplan | constructor]. }
  unfold task_in_plan in Hplan.
  destruct e; cbn [step].
  - (* Load *)
    destruct (storage m) as [st0|] eqn:E; cbn [fst snd].
    + split; [| split; [exact I | constructor]].
      split; [| exact I]. simpl. intros s' H'. apply Hstore. now rewrite <- H'.
    + split; [| split; [exact I | constructor; [exact I | constructor]]].
      split; [intros s' H'; discriminate H' | exact I].
  - (* TimerFired *)
    destruct (task m) eqn:T; try exact Hsame.
    unfold processScan. destruct (storage m) as [st|] eqn:E.
    + pose proof (Hstore st eq_refl) as Hst.
      assert (Hmove := move_on_keeps (Some st) (document m) st).
      destruct (nth_error (pagesToVisit st) (currentPageIndex st)) as [cur|]
        eqn:N.
      * destruct (JS.includes (href (document m)) ("@" ++ subdomain cur)).
        -- cbn [fst snd]. split; [| split].
           ++ split; [simpl; intros s' H'; injection H' as <-; exact Hst|].
              exact Hst.
           ++ exact N.
           ++ constructor; [| constructor]. simpl. now exists st, cur.
        -- apply Hmove; [| exact Hst].
           intros s' H'. injection H' as <-. exact Hst.
      * apply Hmove; [| exact Hst].
        intros s' H'. injection H' as <-. exact Hst.
    + cbn [fst snd]. split; [| split; [exact I | constructor]].
      split; [intros s' H'; discriminate H' | exact I].
  - (* FetchDone *)
    destruct (task m) as [| | st page |] eqn:T; try exact Hsame.
    unfold after_fetch.
    destruct (tracking_throws _ _ _).
    { cbn [fst snd]. split; [split; [exact Hstore | exact I] |].
      split; [exact I | constructor]. }
    set (st' := record_visit st page _).
    assert (Hst' : P st') by (apply P_record; assumption).
    destruct (move_on_keeps (Some st') (document m) st') as (H1 & H2 & H3);
      [| exact Hst' |].
    { intros s' H'. injection H' as <-. exact Hst'. }
    destruct (move_on (Some st') (document m) st') as [m' out]. simpl in *.
    split; [exact H1|]. split; [exact H2|]. constructor; [exact I | exact H3].
  - (* SleepDone *)
    destruct (task m) eqn:T; try exact Hsame.
    cbn [fst snd]. split; [| split; [exact I|]].
    + split; [exact Hstore | exact I].
    + constructor; [exact I | constructor].
  - (* Cancel *)
    cbn [fst snd]. split; [| split; [exact Hplan | constructor]].
    split; [intros s' H'; discriminate H' | exact Htask].
Qed.

Lemma run_keeps (es : list Event) :
  forall m,
    every_state P m -> task_in_plan m ->
    every_state P (fst (run m es)) /\
    Forall (emitted_from P) (snd (run m es)).
Proof.
  induction es as [|e es IH]; intros m Hm Hp; simpl.
  - split; [exact Hm | constructor].
  - destruct (step_keeps m e Hm Hp) as (H1 & H2 & H3).
    destruct (step m e) as [m1 out1]. simpl in H1, H2, H3.
    destruct (IH m1 H1 H2) as [H4 H5].
    destruct (run m1 es) as [m2 out2]. simpl in *.
    split; [exact H4|]. apply Forall_app. now split.
Qed.

End Keeps.

Lemma planned_initial (seed : string) (pid : option Z)
    (subs : list Subscription) :
  planned seed (initial_state seed pid subs).
Proof.
  unfold planned, initial_state. simpl.
  split; [reflexivity|]. split.
  { rewrite plan_pages_length, length_map. reflexivity. }
  split.
  { generalize (plan_newsletters subs). intros nls p Hp.
    induction nls as [|nl nls IH]; simpl in Hp; [contradiction|].
    destruct Hp as [<- | [<- | Hp]].
    - exists (newsletter_of nl). split; [now left | reflexivity].
    - exists (newsletter_of nl). split; [now left | reflexivity].
    - destruct (IH Hp) as (n & Hn & E). exists n. split; [now right | exact E]. }
  split; [constructor|]. split; [| constructor].
  split; constructor.
Qed.

Lemma planned_record (seed : string) (st : ScanState) (page : PageVisit)
    (us : list User) :
  nth_error (pagesToVisit st) (currentPageIndex st) = Some page ->
  planned seed st -> planned seed (record_visit st page us).
Proof.
  intros N (H1 & H2 & H3 & H4 & H5 & H6). unfold planned. simpl.
  split; [exact H1|]. split; [exact H2|]. split; [exact H3|].
  split; [now apply track_users_well_keyed|].
  split; [now apply track_users_tidy|].
  apply track_users_Forall
    with (R := fun _ a => Forall (names_newsletter (newsletters st))
                                 (newsletterIds a)).
  - intros u key _ _ _. constructor.
  - intros key a Ha. unfold push_id.
    destruct (ids_include (newsletterIds a) (newsletterId page)); [exact Ha|].
    simpl. apply Forall_app. split; [exact Ha|].
    constructor; [| constructor]. apply H3. now apply nth_error_In in N.
  - exact H6.
Qed.

Lemma planned_resumed (seed : string) (st : ScanState) (ctx : PageContext) :
  planned seed st ->
  every_state (planned seed) (resumed st ctx) /\ task_in_plan (resumed st ctx).
Proof.
  intros H. split; [| exact I]. split; [| exact I].
  simpl. intros s E. now injection E as <-.
Qed.

(** Throughout a scan that [startScan] planned, whatever the host does,
    the persisted state keeps the seed's name, a plan of twice as many
    visits as newsletters, every planned visit and every recorded
    newsletter id naming a newsletter of the scan, and a tidy map whose
    entries are stored under their own handles. *)
Theorem planned_scan_invariant (seed : string) (pid : option Z)
    (subs : list Subscription) (ctx : PageContext) (es : list Event) :
  forall st,
    storage (fst (run (resumed (initial_state seed pid subs) ctx) es))
      = Some st ->
    planned seed st.
Proof.
  destruct (planned_resumed seed _ ctx (planned_initial seed pid subs))
    as [H1 H2].
  destruct (run_keeps (planned seed) (planned_record seed) es _ H1 H2)
    as [[Hs _] _].
  exact Hs.
Qed.

(* ------------------------------------------------------------------ *)
(** ** What a planned scan reports *)

Lemma newsletterMap_get_listed (nls : list Newsletter) (id : Z) :
  names_newsletter nls id ->
  exists n, newsletterMap_get nls id = Some n /\ nl_id n = id /\ In n nls.
Proof.
  intros (n & Hn & E). unfold newsletterMap_get.
  destruct (find (fun n0 => (nl_id n0 =? id)%Z) (rev nls)) as [n'|] eqn:F.
  - apply find_some in F as [H1 H2]. apply Z.eqb_eq in H2.
    exists n'. repeat split; try assumption. now apply in_rev.
  - exfalso. apply find_none with (x := n) in F.
    + apply Z.eqb_neq in F. contradiction.
    + now apply in_rev in Hn.
Qed.

Lemma resolve_listed (nls : list Newsletter) (ids : list Z) :
  Forall (names_newsletter nls) ids ->
  map nl_id (resolve nls ids) = ids /\
  Forall (fun n => In n nls) (resolve nls ids).
Proof.
  induction 1 as [|id ids Hid Hids [IH1 IH2]]; simpl.
  - split; [reflexivity | constructor].
  - destruct (newsletterMap_get_listed nls id Hid) as (n & -> & E & Hn).
    simpl. rewrite E, IH1. split; [reflexivity | now constructor].
Qed.

(** Every match of a result posted by a scan that [startScan] planned
    lists at least [min_overlap] shared newsletters, all of them
    newsletters of the scan and no two with the same id: on such scans
    every recorded id resolves, so the overlap counted and the overlap
    listed agree. *)
Theorem planned_scan_matches (seed : string) (pid : option Z)
    (subs : list Subscription) (ctx : PageContext) (es : list Event)
    (ms : list Match) (x : Match) :
  In (Post (COMPLETE ms))
     (snd (run (resumed (initial_state seed pid subs) ctx) es)) ->
  In x ms ->
  (min_overlap <= List.length (sharedNewsletters x))%nat /\
  NoDup (map nl_id (sharedNewsletters x)) /\
  Forall (fun n => In n (map newsletter_of (plan_newsletters subs)))
         (sharedNewsletters x).
Proof.
  intros Hms Hx.
  set (nls := map newsletter_of (plan_newsletters subs)).
  set (P := fun st => planned seed st /\ newsletters st = nls).
  assert (HP : forall st page us,
             nth_error (pagesToVisit st) (currentPageIndex st) = Some page ->
             P st -> P (record_visit st page us)).
  { intros st page us N [H1 H2]. split; [now apply planned_record | exact H2]. }
  assert (H0 : every_state P (resumed (initial_state seed pid subs) ctx) /\
               task_in_plan (resumed (initial_state seed pid subs) ctx)).
  { split; [| exact I]. split; [| exact I]. simpl.
    intros s E. injection E as <-.
    split; [apply planned_initial | reflexivity]. }
  destruct H0 as [H1 H2].
  destruct (run_keeps P HP es _ H1 H2) as [_ Hout].
  rewrite Forall_forall in Hout. specialize (Hout _ Hms). simpl in Hout.
  destruct Hout as (st & [(_ & _ & _ & _ & [_ Htidy] & Hlisted) Hnls] & ->).
  apply finishScan_In, collect_matches_In in Hx.
  destruct Hx as (h & a & Hin & -> & _ & Hlen).
  rewrite Forall_forall in Htidy, Hlisted.
  destruct (Htidy _ Hin) as [_ Hnd]. specialize (Hlisted _ Hin).
  simpl in *. rewrite Hnls in *.
  destruct (resolve_listed nls (newsletterIds a) Hlisted) as [E1 E2].
  split; [| split].
  - rewrite <- (length_map nl_id), E1. exact Hlen.
  - now rewrite E1.
  - exact E2.
Qed.

(** A scanning progress message of a planned scan always has its page
    number between 1 and the total, the total twice the newsletter count,
    and hence a newsletter number, the page number halved and rounded up,
    between 1 and the newsletter count.  The script across page loads
    never posts an error. *)
Theorem progress_within_bounds (seed : string) (pid : option Z)
    (subs : list Subscription) (ctx : PageContext) (es : list Event) :
  (forall current total name pt newsletterCount matchCount,
     In (Post (PROGRESS (Scanning current total name pt
                                  newsletterCount matchCount)))
        (snd (run (resumed (initial_state seed pid subs) ctx) es)) ->
     (1 <= current <= total)%nat /\
     total = (2 * newsletterCount)%nat /\
     (1 <= half_up current <= newsletterCount)%nat) /\
  (forall e,
     ~ In (Post (ERROR e))
          (snd (run (resumed (initial_state seed pid subs) ctx) es))).
Proof.
  destruct (planned_resumed seed _ ctx (planned_initial seed pid subs))
    as [H1 H2].
  destruct (run_keeps (planned seed) (planned_record seed) es _ H1 H2)
    as [_ Hout].
  rewrite Forall_forall in Hout. split.
  - intros c t name pt nc mc Hin. specialize (Hout _ Hin). simpl in Hout.
    destruct Hout as (st & p & (_ & Hlen & _) & N & E).
    unfold scanning in E. injection E as -> -> _ _ -> _.
    assert (Hlt : (currentPageIndex st < List.length (pagesToVisit st))%nat).
    { apply nth_error_Some. now rewrite N. }
    unfold half_up. rewrite Hlen in Hlt.
    split; [rewrite Hlen; lia|]. split; [exact Hlen|].
    pose proof (Nat.div_mod_eq (currentPageIndex st + 1 + 1) 2) as Hd.
    pose proof (Nat.mod_upper_bound (currentPageIndex st + 1 + 1) 2) as Hm.
    lia.
  - intros e Hin. specialize (Hout _ Hin). exact Hout.
Qed.

(* ------------------------------------------------------------------ *)
(** ** The end of a scan, and cancellation *)

Lemma finished_step (m : Machine) (e : Event) :
  finished m ->
  finished (fst (step m e)) /\
  Forall (fun o => o = Post READY) (snd (step m e)).
Proof.
  intros [Hs Ht]. destruct e; cbn [step]; rewrite ?Hs, ?Ht; cbn [fst snd].
  - split; [now split | constructor; [reflexivity | constructor]].
  - split; [now split | constructor].
  - split; [now split | constructor].
  - split; [now split | constructor].
  - split; [split; reflexivity | constructor].
Qed.

Lemma finished_run (es : list Event) :
  forall m,
    finished m ->
    finished (fst (run m es)) /\
    Forall (fun o => o = Post READY) (snd (run m es)).
Proof.
  induction es as [|e es IH]; intros m Hm; simpl.
  - split; [exact Hm | constructor].
  - destruct (finished_step m e Hm) as [H1 H2].
    destruct (step m e) as [m1 out1]. simpl in H1, H2.
    destruct (IH m1 H1) as [H3 H4].
    destruct (run m1 es) as [m2 out2]. simpl in *.
    split; [exact H3 | apply Forall_app; now split].
Qed.

Lemma move_on_last (store : option ScanState) (doc : PageContext)
    (st : ScanState) :
  existsb is_complete (snd (move_on store doc st)) = false \/
  (exists o ms, snd (move_on store doc st) = [o; Post (COMPLETE ms)] /\
                is_complete o = false /\
                finished (fst (move_on store doc st))).
Proof.
  unfold move_on.
  destruct (nth_error (pagesToVisit st) (currentPageIndex st)); simpl.
  - now left.
  - right. eexists; eexists. split; [reflexivity|]. now split.
Qed.

Lemma step_last (m : Machine) (e : Event) :
  existsb is_complete (snd (step m e)) = false \/
  (exists before ms,
     snd (step m e) = (before ++ [Post (COMPLETE ms)])%list /\
     existsb is_complete before = false /\
     finished (fst (step m e))).
Proof.
  assert (Hmove : forall store doc st,
            existsb is_complete (snd (move_on store doc st)) = false \/
            (exists before ms,
               snd (move_on store doc st)
                 = (before ++ [Post (COMPLETE ms)])%list /\
               existsb is_complete before = false /\
               finished (fst (move_on store doc st)))).
  { intros store doc st.
    destruct (move_on_last store doc st) as [H | (o & ms & E & Ho & F)];
      [now left|].
    right. exists [o], ms. split; [exact E|]. split; [| exact F].
    simpl. now rewrite Ho. }
  destruct e; cbn [step].
  - destruct (storage m); now left.
  - destruct (task m); try now left.
    unfold processScan. destruct (storage m) as [st|]; [| now left].
    destruct (nth_error (pagesToVisit st) (currentPageIndex st)) as [cur|];
      [| apply Hmove].
    destruct (JS.includes (href (document m)) ("@" ++ subdomain cur));
      [now left | apply Hmove].
  - destruct (task m) as [| | st page |]; try now left.
    unfold after_fetch.
    destruct (tracking_throws _ _ _); [now left|].
    set (st' := record_visit st page _).
    destruct (Hmove (Some st') (document m) st')
      as [H | (before & ms & E & Hb & F)];
      destruct (move_on (Some st') (document m) st') as [m' out];
      simpl in *.
    + now left.
    + right. exists (Visited (currentPageIndex st) page
                       (getUsersForPage (document m) (authorId page)
                          (pageType page)) :: before), ms.
      split; [now rewrite E|]. now split.
  - destruct (task m); now left.
  - now left.
Qed.

Lemma orderly_app_quiet (a b : list Output) :
  existsb is_complete a = false -> orderly b -> orderly (a ++ b).
Proof.
  induction a as [|o a IH]; simpl; intros Ha Hb; [exact Hb|].
  apply orb_false_iff in Ha as [Ho Ha].
  destruct o as [[ | | ms | ] | | ]; simpl in *;
    try (now apply IH); discriminate Ho.
Qed.

Lemma orderly_split (before after : list Output) (ms : list Match) :
  orderly (before ++ Post (COMPLETE ms) :: after) ->
  Forall (fun o => o = Post READY) after.
Proof.
  induction before as [|o before IH]; simpl; [trivial|].
  destruct o as [[ | | ms' | ] | | ]; simpl; try exact IH.
  intros H. apply Forall_app in H as [_ H].
  inversion H as [|x l Hx _]. discriminate Hx.
Qed.

Lemma run_orderly (es : list Event) :
  forall m,
    orderly (snd (run m es)) /\
    (existsb is_complete (snd (run m es)) = true ->
     finished (fst (run m es))).
Proof.
  induction es as [|e es IH]; intros m; simpl.
  - split; [exact I | discriminate].
  - destruct (step_last m e) as [Hq | (before & ms & E & Hb & F)];
      destruct (step m e) as [m1 out1]; simpl in *.
    + destruct (IH m1) as [H1 H2]. destruct (run m1 es) as [m2 out2].
      simpl in *. split; [now apply orderly_app_quiet|].
      rewrite existsb_app, Hq. exact H2.
    + destruct (finished_run es m1 F) as [H1 H2].
      destruct (run m1 es) as [m2 out2]. simpl in *.
      split; [| intros _; exact H1].
      rewrite E, <- app_assoc. apply orderly_app_quiet; [exact Hb|].
      simpl. exact H2.
Qed.

(** Until a new scan is started, the script posts its result at most once:
    whatever follows a COMPLETE message is READY, and once the result is
    posted the store is empty and nothing is pending. *)
Theorem result_posted_once (m : Machine) (es : list Event)
    (before after : list Output) (ms : list Match) :
  snd (run m es) = (before ++ Post (COMPLETE ms) :: after)%list ->
  Forall (fun o => o = Post READY) after /\
  (forall ms', ~ In (Post (COMPLETE ms')) after) /\
  storage (fst (run m es)) = None /\
  task (fst (run m es)) = Idle.
Proof.
  intros E. destruct (run_orderly es m) as [H1 H2]. rewrite E in H1, H2.
  assert (Hafter : Forall (fun o => o = Post READY) after)
    by now apply orderly_split with before ms.
  split; [exact Hafter|]. split.
  - intros ms' Hin. rewrite Forall_forall in Hafter.
    apply Hafter in Hin. discriminate Hin.
  - apply H2. rewrite existsb_app. simpl. apply orb_true_r.
Qed.

Lemma cancelled_step (m : Machine) (e : Event) :
  cancelled m ->
  cancelled (fst (step m e)) /\ Forall silent (snd (step m e)).
Proof.
  intros [Hs Ht]. destruct e; cbn [step].
  - rewrite Hs. cbn [fst snd]. split; [now split|].
    constructor; [now left | constructor].
  - destruct (task m) eqn:T; cbn [fst snd];
      try (split; [split; [exact Hs | now rewrite T] | constructor]).
    unfold processScan. rewrite Hs. cbn [fst snd].
    split; [now split | constructor].
  - destruct (task m) eqn:T; cbn [fst snd];
      try (split; [split; [exact Hs | now rewrite T] | constructor]).
    destruct Ht.
  - destruct (task m) eqn:T; cbn [fst snd];
      try (split; [split; [exact Hs | now rewrite T] | constructor]).
    split; [now split|].
    constructor; [right; eexists; reflexivity | constructor].
  - cbn [fst snd]. split; [split; [reflexivity | exact Ht] | constructor].
Qed.

Lemma cancelled_run (es : list Event) :
  forall m,
    cancelled m ->
    cancelled (fst (run m es)) /\ Forall silent (snd (run m es)).
Proof.
  induction es as [|e es IH]; intros m Hm; simpl.
  - split; [exact Hm | constructor].
  - destruct (cancelled_step m e Hm) as [H1 H2].
    destruct (step m e) as [m1 out1]. simpl in H1, H2.
    destruct (IH m1 H1) as [H3 H4].
    destruct (run m1 es) as [m2 out2]. simpl in *.
    split; [exact H3 | apply Forall_app; now split].
Qed.

Lemma cancelled_step_navigates (m : Machine) (e : Event) :
  cancelled m ->
  (List.length (filter is_navigation (snd (step m e))) +
   awaiting_navigation (fst (step m e)) <= awaiting_navigation m)%nat.
Proof.
  intros [Hs Ht]. unfold awaiting_navigation.
  destruct e; cbn [step].
  - rewrite Hs. cbn [fst snd task filter is_navigation List.length]. lia.
  - destruct (task m) eqn:T; try (simpl; rewrite T; lia).
    unfold processScan. rewrite Hs. simpl. lia.
  - destruct (task m) eqn:T; try (simpl; rewrite T; lia).
    destruct Ht.
  - destruct (task m) eqn:T; try (simpl; rewrite T; lia).
    simpl. lia.
  - simpl. lia.
Qed.

Lemma cancelled_run_navigates (es : list Event) :
  forall m,
    cancelled m ->
    (List.length (filter is_navigation (snd (run m es)))
     <= awaiting_navigation m)%nat.
Proof.
  induction es as [|e es IH]; intros m Hm; simpl; [lia|].
  pose proof (cancelled_step_navigates m e Hm) as H1.
  destruct (cancelled_step m e Hm) as [Hm1 _].
  destruct (step m e) as [m1 out1]. cbn [fst snd] in *.
  specialize (IH m1 Hm1).
  destruct (run m1 es) as [m2 out2]. cbn [fst snd] in *.
  rewrite filter_app, length_app. lia.
Qed.

(** A CANCEL_SCAN that reaches a script instance of a scan in progress (one
    that resumes or runs [processScan]; a [startScan] in flight is not such
    an instance) while no extraction is in flight ends the scan for good:
    the store stays empty, no visit is processed and no progress or result
    is posted any more; all the script still does is answer READY on later
    loads and, if the command came during the delay before a navigation,
    carry out that one navigation and no other. *)
Theorem cancel_ends_scan (m : Machine) (es : list Event) :
  (forall st page, task m <> Extracting st page) ->
  let r := run (fst (step m Cancel)) es in
  storage (fst r) = None /\
  Forall silent (snd r) /\
  (List.length (filter is_navigation (snd r))
   <= awaiting_navigation m <= 1)%nat /\
  visited (snd r) = [] /\
  posts_progress (snd r) = false /\
  existsb is_complete (snd r) = false.
Proof.
  intros Ht r.
  assert (Hc : cancelled (fst (step m Cancel))).
  { split; [reflexivity|]. simpl. destruct (task m); try exact I.
    now apply (Ht state page). }
  destruct (cancelled_run es _ Hc) as [[Hs _] Hout]. fold r in Hs, Hout.
  pose proof (cancelled_run_navigates es _ Hc) as Hnav. fold r in Hnav.
  split; [exact Hs|]. split; [exact Hout|]. split.
  { split; [exact Hnav|]. unfold awaiting_navigation.
    destruct (task m); lia. }
  clear Hnav.
  induction Hout as [|o out Ho _ (IH1 & IH2 & IH3)]; [now repeat split|].
  destruct Ho as [-> | (url & ->)]; simpl; now repeat split.
Qed.

(** A CANCEL_SCAN that arrives while an extraction is in flight does not
    stop the scan: when the extraction completes and the tracking loop runs
    to its end, the state the script holds is written back to the store
    with the visit recorded, and the scan announces its next page, or,
    after the last visit, posts its result.  Only when the tracking loop
    throws does the store stay empty, and the script then does nothing
    more. *)
Theorem cancel_during_extraction (store : option ScanState)
    (doc : PageContext) (st : ScanState) (page : PageVisit) :
  let m := {| storage := store; document := doc;
              task := Extracting st page |} in
  let found := getUsersForPage doc (authorId page) (pageType page) in
  let st' := record_visit st page found in
  storage (fst (step m Cancel)) = None /\
  (tracking_throws (newsletterId page) (personAppearances st) found = false ->
   (forall next,
      nth_error (pagesToVisit st) (S (currentPageIndex st)) = Some next ->
      fst (run m [Cancel; FetchDone]) =
        {| storage := Some st'; document := doc;
           task := Sleeping st' next |} /\
      visited (snd (run m [Cancel; FetchDone])) = [currentPageIndex st]) /\
   (nth_error (pagesToVisit st) (S (currentPageIndex st)) = None ->
    In (Post (COMPLETE (finishScan st')))
       (snd (run m [Cancel; FetchDone])))) /\
  (tracking_throws (newsletterId page) (personAppearances st) found = true ->
   run m [Cancel; FetchDone] =
     ({| storage := None; document := doc; task := Idle |}, [])).
Proof.
  intros m found st'. split; [reflexivity|]. split.
  - intros Ht.
    assert (E : run m [Cancel; FetchDone] =
                (fst (move_on (Some st') doc st'),
                 Visited (currentPageIndex st) page found
                   :: snd (move_on (Some st') doc st'))).
    { subst m. cbn [run step task storage document]. unfold after_fetch.
      cbn [document storage]. fold found. rewrite Ht. fold st'.
      destruct (move_on (Some st') doc st') as [m' out]. simpl.
      now rewrite app_nil_r. }
    rewrite E. unfold move_on.
    change (pagesToVisit st') with (pagesToVisit st).
    change (currentPageIndex st') with (S (currentPageIndex st)).
    split.
    + intros next N. rewrite N. simpl. now split.
    + intros N. rewrite N. simpl. right. right. now left.
  - intros Hthrow. subst m. cbn [run step task storage document].
    unfold after_fetch. cbn [document storage]. fold found.
    now rewrite Hthrow.
Qed.

(* ------------------------------------------------------------------ *)
(** ** Order of ties *)

Section Stable.
Context {A : Type}.
Variable cmp_le : A -> A -> bool.
Variable p : A -> bool.
Hypothesis p_tied : forall x z, p x = true -> p z = true -> cmp_le x z = true.

Lemma insert_filter (x : A) (l : list A) :
  filter p (JS.insert cmp_le x l) = filter p (x :: l).
Proof.
  induction l as [|y l IH]; [reflexivity|]. cbn [JS.insert].
  destruct (cmp_le x y) eqn:E; [reflexivity|].
  cbn [filter] in *. rewrite IH.
  destruct (p x) eqn:Px; [| reflexivity].
  destruct (p y) eqn:Py; [| reflexivity].
  rewrite (p_tied x y Px Py) in E. discriminate E.
Qed.

Lemma sort_filter (l : list A) :
  filter p (JS.sort cmp_le l) = filter p l.
Proof.
  induction l as [|x l IH]; [reflexivity|]. cbn [JS.sort].
  rewrite insert_filter. cbn [filter]. now rewrite IH.
Qed.

End Stable.

(** Newsletters with the same subscriber count (a missing count and a
    count of zero are the same count here) are planned in the order of the
    subscription list. *)
Theorem planner_keeps_tie_order (subs : list Subscription) (k : Z) :
  filter (has_key k) (plan_newsletters subs) =
  filter (has_key k) (scannable_publications subs).
Proof.
  unfold plan_newsletters. apply sort_filter.
  intros x z Hx Hz. unfold has_key in *.
  apply Z.eqb_eq in Hx, Hz. unfold by_subscriber_count.
  apply Z.leb_le. lia.
Qed.

Lemma entries_plain (m : Appearances) :
  (forall e, In e m -> indexed e = false) -> entries m = m.
Proof.
  intros H. unfold entries.
  assert (E1 : filter indexed m = []).
  { induction m as [|e m IH]; [reflexivity|]. simpl.
    rewrite (H e (or_introl eq_refl)).
    apply IH. intros e' Hin. apply H. now right. }
  assert (E2 : filter (fun e => negb (indexed e)) m = m).
  { induction m as [|e m IH]; [reflexivity|]. simpl.
    rewrite (H e (or_introl eq_refl)). simpl. f_equal.
    apply IH; [intros e' Hin; apply H; now right|].
    simpl in E1. rewrite (H e (or_introl eq_refl)) in E1. exact E1. }
  now rewrite E1, E2.
Qed.

Example digit_handles_first :
  keys (entries [("ann", {| profile := ann_first; newsletterIds := [1] |});
                 ("42", {| profile := bob; newsletterIds := [1] |});
                 ("007", {| profile := bob; newsletterIds := [1] |});
                 ("7", {| profile := bob; newsletterIds := [1] |})]) =
  ["7"; "42"; "ann"; "007"].
Proof. reflexivity. Qed.

Local Open Scope R_scope.

(** The matches [finishScan] hands over are in descending order of score,
    and matches with equal scores are in the order in which
    [Object.entries] lists their people: handles that are array indices
    first, in ascending order, then the others in the order in which they
    were first recorded; when no handle is an array index this is the
    order of first recording. *)
Theorem matches_ranked (st : ScanState) :
  StronglySorted (fun a b => score a >= score b) (finishScan st) /\
  (forall v,
     filter (has_score v) (finishScan st) =
     filter (has_score v)
       (collect_matches (username st) (newsletters st)
                        (entries (personAppearances st)))) /\
  (exists idx,
     entries (personAppearances st) =
       (idx ++ filter (fun e => negb (indexed e)) (personAppearances st))%list /\
     Permutation idx (filter indexed (personAppearances st)) /\
     StronglySorted (fun a b => (entry_index a <= entry_index b)%N) idx) /\
  ((forall e, In e (personAppearances st) -> array_index (fst e) = None) ->
   forall v,
     filter (has_score v) (finishScan st) =
     filter (has_score v)
       (collect_matches (username st) (newsletters st)
                        (personAppearances st))).
Proof.
  assert (Hties : forall v,
     filter (has_score v) (finishScan st) =
     filter (has_score v)
       (collect_matches (username st) (newsletters st)
                        (entries (personAppearances st)))).
  { intros v. unfold finishScan. apply sort_filter.
    intros x z Hx Hz. unfold has_score, by_score_desc in *.
    destruct (Req_dec_T (score x) v); [| discriminate].
    destruct (Req_dec_T (score z) v); [| discriminate].
    destruct (Rle_dec (score z - score x) 0); [reflexivity | lra]. }
  split; [| split; [exact Hties | split]].
  2:{ exists (JS.sort index_le (filter indexed (personAppearances st))).
      split; [reflexivity|]. split; [apply sort_perm|].
      apply StronglySorted_weaken
        with (R1 := fun a b => index_le a b = true).
      { intros a b H. now apply N.leb_le. }
      apply sort_sorted.
      - intros x y H. unfold index_le in *.
        apply N.leb_le. apply N.leb_gt in H. lia.
      - intros x y z H1 H2. unfold index_le in *.
        apply N.leb_le. apply N.leb_le in H1, H2. lia. }
  2:{ intros Hplain v. rewrite Hties, entries_plain; [reflexivity|].
      intros e He. unfold indexed. now rewrite (Hplain e He). }
  - unfold finishScan.
    apply StronglySorted_weaken
      with (R1 := fun a b => by_score_desc a b = true).
    + intros a b H. unfold by_score_desc in H.
      destruct (Rle_dec (score b - score a) 0); [lra | discriminate].
    + apply sort_sorted.
      * intros x y H. unfold by_score_desc in *.
        destruct (Rle_dec (score y - score x) 0); [discriminate|].
        destruct (Rle_dec (score x - score y) 0); [reflexivity | lra].
      * intros x y z H1 H2. unfold by_score_desc in *.
        destruct (Rle_dec (score y - score x) 0); [| discriminate].
        destruct (Rle_dec (score z - score y) 0); [| discriminate].
        destruct (Rle_dec (score z - score x) 0); [reflexivity | lra].
Qed.

(* ------------------------------------------------------------------ *)
(** ** Bounds on scores *)

Lemma ln_3_ge_1 : 1 <= ln 3.
Proof.
  rewrite <- (ln_exp 1) at 1.
  destruct exp_le_3 as [H | H].
  - left. apply ln_increasing; [apply exp_pos | exact H].
  - right. now rewrite H.
Qed.

Lemma weight_bounds (c : option N) :
  0 < computeNichenessWeight c <= 1.
Proof.
  unfold computeNichenessWeight.
  assert (H1 : 1 <= count_R (JS.or_count c 1000)).
  { unfold count_R. apply IZR_le.
    destruct c as [n|]; simpl; [| lia].
    destruct (N.eqb_spec n 0); lia. }
  assert (H3 : 1 <= ln (count_R (JS.or_count c 1000) + 2)).
  { apply Rle_trans with (ln 3); [exact ln_3_ge_1|].
    destruct (Req_dec (count_R (JS.or_count c 1000) + 2) 3) as [-> | Hne].
    - right. reflexivity.
    - left. apply ln_increasing; lra. }
  unfold Rdiv. rewrite Rmult_1_l. split.
  - apply Rinv_0_lt_compat. lra.
  - rewrite <- Rinv_1. apply Rinv_le_contravar; lra.
Qed.

Lemma quality_bounds (p : User) : 0 <= computeQualityScore p <= 35 / 10.
Proof.
  unfold computeQualityScore.
  destruct (JS.truthy_str (bio p)), (JS.truthy_obj (primaryPublication p)),
    (JS.truthy_str (photo_url p)); lra.
Qed.

Lemma sum_bounds (l : list Newsletter) :
  forall acc,
    acc <= fold_left (fun s nl => s + computeNichenessWeight
                                       (nl_subscriberCount nl)) l acc
        <= acc + INR (List.length l) /\
    (l <> [] ->
     acc < fold_left (fun s nl => s + computeNichenessWeight
                                        (nl_subscriberCount nl)) l acc).
Proof.
  induction l as [|nl l IH]; intros acc.
  - simpl. split; [lra | congruence].
  - cbn [fold_left]. rewrite length_cons, S_INR.
    pose proof (weight_bounds (nl_subscriberCount nl)) as Hw.
    destruct (IH (acc + computeNichenessWeight (nl_subscriberCount nl)))
      as [H1 _].
    split; [lra | intros _; lra].
Qed.

(** Every shared newsletter adds a weight between 0 (excluded) and 1 to a
    score, and the profile adds at most 0.35: the score of a match lies
    between 0 and the number of its shared newsletters plus 0.35, and is
    positive as soon as one newsletter is shared. *)
Theorem score_bounds (nls : list Newsletter) (a : Appearance) :
  (forall c, 0 < computeNichenessWeight c <= 1) /\
  0 <= computeQualityScore (profile a) * (1 / 10) <= 35 / 100 /\
  0 <= score (match_of nls a)
    <= INR (List.length (sharedNewsletters (match_of nls a))) + 35 / 100 /\
  (sharedNewsletters (match_of nls a) <> [] -> 0 < score (match_of nls a)).
Proof.
  pose proof (quality_bounds (profile a)) as Hq.
  destruct (sum_bounds (resolve nls (newsletterIds a)) 0) as [Hs Hpos].
  split; [exact weight_bounds|]. split; [lra|].
  unfold match_of. cbn [score sharedNewsletters]. unfold nicheness_sum.
  split; [lra|]. intros Hne. specialize (Hpos Hne). lra.
Qed.

Local Close Scope R_scope.

(* ------------------------------------------------------------------ *)
(** ** Starting a scan *)

Lemma plan_pages_head (nls : list Publication) :
  match plan_pages nls with
  | [] => nls = []
  | first :: _ => exists nl rest, nls = nl :: rest /\
                                  first = visit_of nl subscribers
  end.
Proof.
  destruct nls as [|nl rest]; simpl; [reflexivity|]. now exists nl, rest.
Qed.

(** [startScan] ends in exactly one of two ways.  Either it posts an error
    and does not navigate, and then the store is empty or holds a state
    with an empty plan; or it posts no error, stores a fresh state (cursor
    0, nobody seen) and navigates to the first visit of its plan, which is
    the subscribers list of a newsletter with the lowest subscriber count
    of the plan. *)
Theorem startScan_outcome (user : string) (fetched : Profile + nat) :
  let r := startScan user fetched in
  (existsb is_error (snd r) = true /\
   existsb is_navigation (snd r) = false /\
   (forall st, fst r = Some st -> pagesToVisit st = [])) \/
  (existsb is_error (snd r) = false /\
   exists st first rest,
     fst r = Some st /\
     pagesToVisit st = first :: rest /\
     currentPageIndex st = 0%nat /\
     personAppearances st = [] /\
     pageType first = subscribers /\
     (forall p, In p (pagesToVisit st) -> visit_key first <= visit_key p) /\
     filter is_navigation (snd r) = [Navigate (visit_url first)]).
Proof.
  intros r. subst r. unfold startScan.
  destruct fetched as [p | status].
  2:{ left. repeat split. intros st H. discriminate H. }
  destruct (or_empty (subscriptions p)) as [|s subs] eqn:E.
  { left. repeat split. intros st H. discriminate H. }
  set (st := initial_state user (profile_id p) (s :: subs)).
  destruct (pagesToVisit st) as [|first rest] eqn:Hp.
  - left. repeat split. cbn [fst]. intros st' H. now injection H as <-.
  - right. split; [reflexivity|]. exists st, first, rest.
    split; [reflexivity|]. split; [exact Hp|].
    split; [reflexivity|]. split; [reflexivity|].
    pose proof (plan_pages_head (plan_newsletters (s :: subs))) as Hh.
    pose proof (plan_pages_sorted _ (plan_newsletters_sorted (s :: subs)))
      as Hs.
    change (plan_pages (plan_newsletters (s :: subs)))
      with (pagesToVisit st) in Hh, Hs.
    rewrite Hp in Hh, Hs. destruct Hh as (nl & nls & _ & ->).
    split; [reflexivity|]. split; [| reflexivity].
    intros q Hq. rewrite Hp in Hq.
    destruct Hq as [<- | Hq]; [apply Z.le_refl|].
    inversion Hs as [|x l _ Hall]. rewrite Forall_forall in Hall.
    now apply Hall.
Qed.

Lemma finishScan_nobody (st : ScanState) :
  personAppearances st = [] -> finishScan st = [].
Proof. intros H. unfold finishScan. now rewrite H. Qed.

(** When a profile has subscriptions but none of them is scannable,
    [startScan] posts an error after it has stored a state with an empty
    plan; the state stays in the store, and the next page load resumes it
    and at once posts an empty result and clears the store. *)
Theorem unscannable_profile_leaves_state (user : string) (p : Profile)
    (subs : list Subscription) :
  subscriptions p = Some subs -> subs <> [] ->
  scannable_publications subs = [] ->
  exists st,
    startScan user (inl p) =
      (Some st,
       [Post (PROGRESS (Status (FetchingProfile user)));
        Post (PROGRESS (Status (FoundSubscriptions (List.length subs))));
        Post (ERROR TypeError)]) /\
    pagesToVisit st = [] /\
    forall ctx,
      run {| storage := Some st; document := ctx; task := Idle |}
          [Load ctx; TimerFired] =
      ({| storage := None; document := ctx; task := Idle |},
       [Post (PROGRESS (Status ComputingMatches)); Post (COMPLETE [])]).
Proof.
  intros Hs Hne Hnone.
  exists (initial_state user (profile_id p) subs).
  assert (Hp : pagesToVisit (initial_state user (profile_id p) subs) = []).
  { unfold initial_state, plan_newsletters. simpl. now rewrite Hnone. }
  split; [| split; [exact Hp|]].
  - unfold startScan. rewrite Hs. unfold or_empty.
    destruct subs as [|s subs]; [congruence|]. now rewrite Hp.
  - intros ctx. cbn [run step storage task document]. unfold processScan.
    cbn [storage document]. rewrite Hp. simpl nth_error.
    replace (nth_error (@nil PageVisit)
               (currentPageIndex (initial_state user (profile_id p) subs)))
      with (@None PageVisit) by (now destruct (currentPageIndex _)).
    unfold move_on. rewrite Hp.
    replace (nth_error (@nil PageVisit)
               (currentPageIndex (initial_state user (profile_id p) subs)))
      with (@None PageVisit) by (now destruct (currentPageIndex _)).
    rewrite finishScan_nobody by reflexivity. reflexivity.
Qed.

(** A scan started on a profile with at least one scannable subscription,
    on a host that loads the pages the script navigates to and on whose
    pages no record has the name of a member of [Object.prototype] as its
    handle, processes every planned visit, two per scannable subscription,
    in plan order, and ends by posting its result and clearing the
    store. *)
Theorem scan_from_start (user : string) (p : Profile)
    (subs : list Subscription) (world : nat -> string -> PageContext)
    (fuel : nat) :
  subscriptions p = Some subs ->
  scannable_publications subs <> [] ->
  (forall n url, href (world n url) = url) ->
  (forall n url, plain_page (world n url)) ->
  (6 * List.length (scannable_publications subs) + 3 <= fuel)%nat ->
  exists st first,
    fst (startScan user (inl p)) = Some st /\
    filter is_navigation (snd (startScan user (inl p)))
      = [Navigate (visit_url first)] /\
    completed 0 (2 * List.length (scannable_publications subs))
      (drive fuel world (resumed st (world fuel (visit_url first)))).
Proof.
  intros Hs Hne Hworld Hplain Hfuel.
  assert (Hsubs : subs <> []).
  { intros ->. now apply Hne. }
  set (st := initial_state user (profile_id p) subs).
  assert (Hlen : List.length (pagesToVisit st)
                 = (2 * List.length (scannable_publications subs))%nat).
  { unfold st, initial_state. simpl. rewrite plan_pages_length.
    unfold plan_newsletters. now rewrite sort_length. }
  destruct (pagesToVisit st) as [|first rest] eqn:Hp.
  { simpl in Hlen. destruct (scannable_publications subs);
      [now contradiction Hne | discriminate Hlen]. }
  exists st, first. split; [| split].
  - now apply startScan_persists.
  - unfold startScan. rewrite Hs. unfold or_empty.
    destruct subs as [|s subs']; [congruence|]. fold st. now rewrite Hp.
  - pose proof (drive_resumed world Hworld Hplain fuel st
                  (world fuel (visit_url first))) as H.
    cbv zeta in H. change (currentPageIndex st) with 0%nat in H.
    rewrite Nat.sub_0_r, Hp, Hlen in H.
    apply H; [apply Hplain | lia].
Qed.

(** A page that lists, as a handle, the name of a member of
    [Object.prototype] under which the map has no entry stalls the scan:
    the script announces the page, the tracking loop throws, and neither
    the cursor nor the store changes; nothing more is posted, no navigation
    follows, and a reload of the page repeats this. *)
Theorem throwing_page_stalls_scan (st : ScanState) (page : PageVisit)
    (ctx : PageContext) (world : nat -> string -> PageContext) (fuel : nat) :
  nth_error (pagesToVisit st) (currentPageIndex st) = Some page ->
  JS.includes (href ctx) ("@" ++ subdomain page) = true ->
  tracking_throws (newsletterId page) (personAppearances st)
    (getUsersForPage ctx (authorId page) (pageType page)) = true ->
  drive (S (S fuel)) world (resumed st ctx) =
    ({| storage := Some st; document := ctx; task := Idle |},
     [scanning st page]) /\
  run (resumed st ctx) [TimerFired; FetchDone; Load ctx; TimerFired; FetchDone]
    = ({| storage := Some st; document := ctx; task := Idle |},
       [scanning st page; scanning st page]).
Proof.
  intros N U T.
  assert (E : run (resumed st ctx) [TimerFired; FetchDone] =
              ({| storage := Some st; document := ctx; task := Idle |},
               [scanning st page])).
  { unfold resumed. cbn [run step task]. unfold processScan.
    cbn [storage document]. rewrite N, U.
    cbn [step task]. unfold after_fetch. cbn [storage document].
    now rewrite T. }
  split.
  - unfold resumed. cbn [drive step task]. unfold processScan.
    cbn [storage document]. rewrite N, U.
    cbn [step task]. unfold after_fetch. cbn [storage document].
    rewrite T. now rewrite drive_idle.
  - change [TimerFired; FetchDone; Load ctx; TimerFired; FetchDone]
      with ([TimerFired; FetchDone] ++
            Load ctx :: [TimerFired; FetchDone])%list.
    unfold resumed in *. cbn [run step task app] in *.
    unfold processScan in *. cbn [storage document] in *.
    rewrite N, U in *. cbn [step task] in *.
    unfold after_fetch in *. cbn [storage document] in *.
    rewrite T in *. cbn [step storage document task].
    unfold processScan. cbn [storage document]. rewrite N, U.
    cbn [step task]. unfold after_fetch. cbn [storage document].
    now rewrite T.
Qed.

(* ------------------------------------------------------------------ *)
(** ** The popup between two openings *)

Lemma restore_scanning_snapshot (now c t : Z) (name : string)
    (nc : option Z) (mc : Z) :
  restore_progress (scanning_snapshot now c t name nc mc) =
  [ShowSection progress_section;
   SetProgressStatus (ceil_half (Some c))
     (if truthy_Z nc then nc else ceil_half (Some t));
   SetProgressDetail name (if 0 <? mc then Some mc else None);
   SetProgressFill (Some c) (Some t)].
Proof.
  unfold restore_progress, scanning_snapshot.
  cbn [snap_current snap_total snap_name snap_newsletterCount
       snap_matchCount str_or_empty].
  destruct (truthy_Z nc) eqn:E.
  - rewrite E. reflexivity.
  - destruct (truthy_Z (ceil_half (Some t))); reflexivity.
Qed.

Lemma fresh_snapshot (now later : Z) (s : Snapshot) :
  timestamp s = Some now -> later - now <= ONE_HOUR -> is_stale later s = false.
Proof.
  intros Ht Hle. unfold is_stale. rewrite Ht.
  replace (ONE_HOUR <? later - now) with false.
  - apply andb_false_r.
  - symmetry. apply Z.ltb_ge. exact Hle.
Qed.

(** The progress display survives closing the popup: when a scanning
    progress message was handled at [now] and the popup is opened again on
    a Substack tab no more than an hour later, it shows the progress
    section with the same status line, detail line and bar as the handler
    had put up; the cached results are not touched. *)
Theorem progress_survives_reopening
    (url : option string) (now later : Z) (p : Progress) (s : ExtStorage) :
  isSubstack url = true ->
  later - now <= ONE_HOUR ->
  (forall t, p <> Status t) ->
  snd (store_effects s (handleProgress now p)) = snd s /\
  popup_init url later
    (fst (store_effects s (handleProgress now p)))
    (snd (store_effects s (handleProgress now p))) =
  ShowSection progress_section :: displayed (handleProgress now p).
Proof.
  intros Hurl Hle Hp.
  destruct p as [c t name pt nc mc | c t name mc | t];
    [| | exfalso; exact (Hp t eq_refl)].
  - split; [reflexivity|].
    unfold popup_init. rewrite Hurl.
    cbn [negb handleProgress progress_fields store_effects fold_left
         store_effect fst snd displayed].
    cbn [scanning_snapshot inProgress].
    rewrite (fresh_snapshot now) by (reflexivity || exact Hle).
    apply restore_scanning_snapshot.
  - split; [reflexivity|].
    unfold popup_init. rewrite Hurl.
    cbn [negb handleProgress progress_fields store_effects fold_left
         store_effect fst snd displayed].
    cbn [scanning_snapshot inProgress].
    rewrite (fresh_snapshot now) by (reflexivity || exact Hle).
    apply restore_scanning_snapshot.
Qed.

(** A status message ("Fetching profile ...") leaves a snapshot without
    counts when the popup handles it: opened again within the hour, the
    popup shows the progress section with an undefined newsletter index,
    count and bar, and not the status text.  The content script stores
    nothing for a status message. *)
Theorem status_progress_restores_blank
    (url : option string) (now later : Z) (t : StatusText)
    (s : ExtStorage) (b : Bridge) :
  isSubstack url = true ->
  later - now <= ONE_HOUR ->
  popup_init url later
    (fst (store_effects s (handleProgress now (Status t))))
    (snd (store_effects s (handleProgress now (Status t)))) =
  [ShowSection progress_section;
   SetProgressStatus None None;
   SetProgressDetail "" None;
   SetProgressFill None None] /\
  fold_left bridge_store
    (snd (on_page_message now b (PROGRESS (Status t)))) s = s.
Proof.
  intros Hurl Hle. split; [| reflexivity].
  unfold popup_init. rewrite Hurl.
  cbn [negb handleProgress store_effects fold_left store_effect fst snd].
  cbn [status_snapshot inProgress].
  rewrite (fresh_snapshot now) by (reflexivity || exact Hle).
  reflexivity.
Qed.

(** Results survive closing the popup, at any later time: after a
    [COMPLETE], handled by the popup or by the content script alone, the
    storage holds no progress snapshot and the matches with the time; the
    popup opened on a Substack tab then shows these results with their time
    stamp, and the start form when the list of matches is empty. *)
Theorem results_survive_reopening
    (url : option string) (now later : Z) (ms : list Match)
    (s : ExtStorage) (b : Bridge) :
  isSubstack url = true ->
  store_effects s (handleComplete now ms) =
    fold_left bridge_store (snd (on_page_message now b (COMPLETE ms))) s /\
  fst (store_effects s (handleComplete now ms)) = None /\
  popup_init url later
    (fst (store_effects s (handleComplete now ms)))
    (snd (store_effects s (handleComplete now ms))) =
  if non_empty ms
  then [DisplayResults ms now; ShowSection results_section]
  else [ShowSection form_section].
Proof.
  intros Hurl. split; [reflexivity|]. split; [reflexivity|].
  unfold popup_init. rewrite Hurl. reflexivity.
Qed.

(** An error ends the scan without touching earlier results: the popup's
    handler and the content script both remove the progress snapshot and
    leave the cached results, the handler shows the form with the message,
    and the popup opened afterwards shows the earlier results, or the form,
    and no progress. *)
Theorem error_keeps_earlier_results
    (url : option string) (now later : Z) (msg : string) (e : ErrorText)
    (s : ExtStorage) (b : Bridge) :
  isSubstack url = true ->
  store_effects s (handleError msg) = (None, snd s) /\
  fold_left bridge_store (snd (on_page_message now b (ERROR e))) s =
    (None, snd s) /\
  popup_init url later
    (fst (store_effects s (handleError msg)))
    (snd (store_effects s (handleError msg))) = show_cached (snd s) /\
  shows_progress
    (popup_init url later
       (fst (store_effects s (handleError msg)))
       (snd (store_effects s (handleError msg)))) = false.
Proof.
  intros Hurl.
  assert (H : popup_init url later
    (fst (store_effects s (handleError msg)))
    (snd (store_effects s (handleError msg))) = show_cached (snd s)).
  { unfold popup_init. rewrite Hurl. reflexivity. }
  repeat split; try reflexivity; try exact H.
  rewrite H. unfold show_cached.
  destruct (snd s) as [c|]; [destruct (non_empty (cached_matches c))|];
    reflexivity.
Qed.

(* ------------------------------------------------------------------ *)
(** ** Time stamps *)

(** The phrase under the results counts whole units of the elapsed time:
    below a minute (and for a time stamp in the future) "just now",
    then 1 to 59 minutes, 1 to 23 hours, and days from 1 on, each the
    elapsed time rounded down to that unit. *)
Theorem time_ago_buckets (now date : Z) :
  match getTimeAgo now date with
  | JustNow => now - date < 60000
  | MinutesAgo n =>
      1 <= n <= 59 /\ 60000 * n <= now - date < 60000 * (n + 1)
  | HoursAgo n =>
      1 <= n <= 23 /\ 3600000 * n <= now - date < 3600000 * (n + 1)
  | DaysAgo n =>
      1 <= n /\ 86400000 * n <= now - date < 86400000 * (n + 1)
  end.
Proof.
  unfold getTimeAgo. cbv zeta.
  destruct ((now - date) / 1000 <? 60) eqn:E1.
  - apply Z.ltb_lt in E1. Z.div_mod_to_equations. lia.
  - apply Z.ltb_ge in E1.
    destruct ((now - date) / 1000 <? 3600) eqn:E2.
    + apply Z.ltb_lt in E2. Z.div_mod_to_equations. lia.
    + apply Z.ltb_ge in E2.
      destruct ((now - date) / 1000 <? 86400) eqn:E3.
      * apply Z.ltb_lt in E3. Z.div_mod_to_equations. lia.
      * apply Z.ltb_ge in E3. Z.div_mod_to_equations. lia.
Qed.

(* ------------------------------------------------------------------ *)
(** ** The result list *)

Lemma sorted_app_inv {A : Type} (R : A -> A -> Prop) (l1 l2 : list A) :
  StronglySorted R (l1 ++ l2)%list ->
  forall x y, In x l1 -> In y l2 -> R x y.
Proof.
  induction l1 as [|a l1 IH]; intros Hs x y Hx Hy.
  - destruct Hx.
  - simpl in Hs. inversion Hs as [|a' l' Hs' Hall]; subst.
    destruct Hx as [<- | Hx].
    + rewrite Forall_forall in Hall. apply Hall.
      apply in_or_app. now right.
    + now apply IH.
Qed.

Lemma finishScan_descending (st : ScanState) :
  StronglySorted (fun a b => (score b <= score a)%R) (finishScan st).
Proof.
  unfold finishScan.
  apply StronglySorted_weaken
    with (R1 := fun a b => by_score_desc a b = true).
  - intros a b H. unfold by_score_desc in H.
    destruct (Rle_dec (score b - score a) 0); [lra | discriminate].
  - apply sort_sorted.
    + intros x y H. unfold by_score_desc in *.
      destruct (Rle_dec (score y - score x) 0); [discriminate|].
      destruct (Rle_dec (score x - score y) 0); [reflexivity | lra].
    + intros x y z H1 H2. unfold by_score_desc in *.
      destruct (Rle_dec (score y - score x) 0); [| discriminate].
      destruct (Rle_dec (score z - score y) 0); [| discriminate].
      destruct (Rle_dec (score z - score x) 0); [reflexivity | lra].
Qed.

(** Of the matches of a finished scan the popup shows at most 50 cards,
    all of them when there are no more than 50, and otherwise the 50 that
    come first: no match left out has a higher score than a match shown. *)
Theorem cards_are_top_scored (st : ScanState) :
  (List.length (shown_matches (finishScan st)) <= 50)%nat /\
  ((List.length (finishScan st) <= 50)%nat ->
   shown_matches (finishScan st) = finishScan st) /\
  (forall m m',
     In m (shown_matches (finishScan st)) ->
     In m' (skipn 50 (finishScan st)) ->
     (score m' <= score m)%R).
Proof.
  unfold shown_matches. split; [| split].
  - apply firstn_le_length.
  - intros H. now apply firstn_all2.
  - intros m m' Hm Hm'.
    apply (sorted_app_inv (fun a b => (score b <= score a)%R)
             (firstn 50 (finishScan st)) (skipn 50 (finishScan st)));
      try assumption.
    rewrite firstn_skipn. apply finishScan_descending.
Qed.

Lemma length_app_string (a b : string) :
  String.length (a ++ b) = (String.length a + String.length b)%nat.
Proof. induction a as [|c a IH]; simpl; [reflexivity | now rewrite IH]. Qed.

Lemma substring_prefix_length (n : nat) (s : string) :
  String.length (substring 0 n s) = Nat.min n (String.length s).
Proof.
  revert s. induction n as [|n IH]; intros [|c s]; simpl; try reflexivity.
  now rewrite IH.
Qed.

Lemma substring_all (n : nat) (s : string) :
  (String.length s <= n)%nat -> substring 0 n s = s.
Proof.
  revert s. induction n as [|n IH]; intros [|c s] H; simpl in *;
    try reflexivity; try lia.
  rewrite IH by lia. reflexivity.
Qed.

Lemma append_empty_r (s : string) : s ++ "" = s.
Proof. induction s as [|c s IH]; simpl; [reflexivity | now rewrite IH]. Qed.

(** The bio on a card is the bio itself when it has at most 100
    characters, and otherwise its first 100 characters followed by three
    dots: never more than 103 characters. *)
Theorem bio_snippet_bounded (bio : string) :
  (String.length (bioSnippet bio) <= 103)%nat /\
  ((String.length bio <= 100)%nat -> bioSnippet bio = bio) /\
  ((100 < String.length bio)%nat ->
   bioSnippet bio = substring 0 100 bio ++ "..." /\
   String.length (bioSnippet bio) = 103%nat).
Proof.
  unfold bioSnippet.
  destruct (String.eqb_spec bio "") as [-> | Hne].
  - split; [simpl; lia|]. split; [reflexivity | simpl; intros; lia].
  - destruct (Nat.ltb_spec 100 (String.length bio)) as [Hlong | Hshort].
    + assert (Hlen : String.length (substring 0 100 bio ++ "...") = 103%nat).
      { rewrite length_app_string, substring_prefix_length.
        rewrite Nat.min_l by lia. reflexivity. }
      split; [rewrite Hlen; lia|]. split; [intros; lia|].
      intros _. split; [reflexivity | exact Hlen].
    + rewrite append_empty_r, substring_all by exact Hshort.
      split; [lia|]. split; [reflexivity | intros; lia].
Qed.

(* ------------------------------------------------------------------ *)
(** ** The exported file *)

Lemma append_assoc (a b c : string) : (a ++ b) ++ c = a ++ (b ++ c).
Proof. induction a as [|x a IH]; simpl; [reflexivity | now rewrite IH]. Qed.

Lemma join_cons (sep x : string) (rest : list string) :
  join sep (x :: rest) =
  x ++ match rest with [] => "" | _ :: _ => sep ++ join sep rest end.
Proof.
  destruct rest as [|y rest]; simpl; [now rewrite append_empty_r | reflexivity].
Qed.

Lemma double_quotes_delimited (a b r r' : string) :
  empty_or_starts "," r = true -> empty_or_starts "," r' = true ->
  double_quotes a ++ String dquote r = double_quotes b ++ String dquote r' ->
  a = b /\ r = r'.
Proof.
  intros Hr Hr'. revert b.
  induction a as [|c a IH]; intros [|d b] H; simpl in H.
  - injection H as H. now split.
  - destruct (Ascii.eqb_spec d dquote) as [-> | Hd]; simpl in H.
    + injection H as H. subst r. discriminate Hr.
    + injection H as H _. congruence.
  - destruct (Ascii.eqb_spec c dquote) as [-> | Hc]; simpl in H.
    + injection H as H. subst r'. discriminate Hr'.
    + injection H as H _. congruence.
  - destruct (Ascii.eqb_spec c dquote) as [-> | Hc];
      destruct (Ascii.eqb_spec d dquote) as [-> | Hd]; simpl in H.
    + injection H as H. destruct (IH b H) as [-> ->]. now split.
    + injection H as H _. congruence.
    + injection H as H _. congruence.
    + injection H as Hcd H. destruct (IH b H) as [-> ->]. now subst.
Qed.

Lemma plain_delimited (a b r r' : string) :
  has_char "," a = false -> has_char "," b = false ->
  empty_or_starts "," r = true -> empty_or_starts "," r' = true ->
  a ++ r = b ++ r' -> a = b /\ r = r'.
Proof.
  intros Ha Hb Hr Hr'. revert b Hb.
  induction a as [|c a IH]; intros [|d b] Hb H; simpl in *.
  - now split.
  - subst r. simpl in Hr. rewrite Hr in Hb. discriminate.
  - subst r'. simpl in Hr'. rewrite Hr' in Ha. discriminate.
  - injection H as -> H.
    apply orb_false_iff in Ha as [_ Ha]. apply orb_false_iff in Hb as [_ Hb].
    destruct (IH Ha b Hb H) as [-> ->]. now split.
Qed.

Lemma escapeCSV_delimited (x y r r' : string) :
  empty_or_starts "," r = true -> empty_or_starts "," r' = true ->
  escapeCSV x ++ r = escapeCSV y ++ r' -> x = y /\ r = r'.
Proof.
  intros Hr Hr' H. unfold escapeCSV in H.
  destruct (needs_quoting x) eqn:Qx; destruct (needs_quoting y) eqn:Qy.
  - simpl in H. injection H as H. rewrite !append_assoc in H. simpl in H.
    now apply double_quotes_delimited.
  - exfalso. unfold needs_quoting in Qy.
    apply orb_false_iff in Qy as [Qy _]. apply orb_false_iff in Qy as [_ Qy].
    simpl in H. destruct y as [|d y]; simpl in *.
    + subst r'. discriminate Hr'.
    + injection H as <- _. simpl in Qy. discriminate Qy.
  - exfalso. unfold needs_quoting in Qx.
    apply orb_false_iff in Qx as [Qx _]. apply orb_false_iff in Qx as [_ Qx].
    simpl in H. destruct x as [|d x]; simpl in *.
    + subst r. discriminate Hr.
    + injection H as -> _. simpl in Qx. discriminate Qx.
  - unfold needs_quoting in Qx, Qy.
    apply orb_false_iff in Qx as [Qx _]. apply orb_false_iff in Qx as [Qx _].
    apply orb_false_iff in Qy as [Qy _]. apply orb_false_iff in Qy as [Qy _].
    now apply plain_delimited.
Qed.

(** A line of the exported file determines its fields: two rows with the
    same number of values that are written as the same line have the same
    values, whatever commas, quotes and line breaks the values contain. *)
Theorem csv_row_unambiguous (xs ys : list string) :
  List.length xs = List.length ys ->
  csv_row xs = csv_row ys ->
  xs = ys.
Proof.
  unfold csv_row. revert ys.
  induction xs as [|x xs IH]; intros [|y ys] Hlen H;
    try discriminate Hlen; [reflexivity|].
  simpl map in H. rewrite !join_cons in H.
  apply escapeCSV_delimited in H.
  - destruct H as [-> H]. f_equal.
    destruct xs as [|x' xs]; destruct ys as [|y' ys];
      try discriminate Hlen; [reflexivity|].
    apply IH; [simpl in *; lia|].
    simpl map in H. injection H as H. exact H.
  - destruct (map escapeCSV xs); reflexivity.
  - destruct (map escapeCSV ys); reflexivity.
Qed.

Lemma has_char_app (c : ascii) (a b : string) :
  has_char c (a ++ b) = has_char c a || has_char c b.
Proof.
  induction a as [|d a IH]; simpl; [reflexivity|].
  now rewrite IH, orb_assoc.
Qed.

Lemma has_char_double_quotes (c : ascii) (s : string) :
  c <> dquote -> has_char c (double_quotes s) = has_char c s.
Proof.
  intros Hc.
  assert (E : (dquote =? c)%char = false) by (apply Ascii.eqb_neq; congruence).
  induction s as [|d s IH]; cbn [double_quotes has_char]; [reflexivity|].
  destruct (Ascii.eqb_spec d dquote) as [-> | Hd]; cbn [has_char]; rewrite IH.
  - rewrite E. reflexivity.
  - reflexivity.
Qed.

Lemma has_char_escapeCSV (c : ascii) (s : string) :
  c <> dquote -> has_char c s = false -> has_char c (escapeCSV s) = false.
Proof.
  intros Hc H.
  assert (E : (dquote =? c)%char = false) by (apply Ascii.eqb_neq; congruence).
  unfold escapeCSV. destruct (needs_quoting s); [| exact H].
  cbn [has_char].
  rewrite has_char_app, has_char_double_quotes, H by exact Hc.
  cbn [has_char]. rewrite E. reflexivity.
Qed.

Lemma flatten_breaks_clean (c : ascii) (in_run : bool) (s : string) :
  is_break c = true -> has_char c (flatten_breaks in_run s) = false.
Proof.
  intros Hc.
  assert (E : (" " =? c)%char = false).
  { destruct (Ascii.eqb_spec " " c) as [<- | _];
      [discriminate Hc | reflexivity]. }
  revert in_run.
  induction s as [|d s IH]; intros in_run; cbn [flatten_breaks has_char];
    [reflexivity|].
  destruct (is_break d) eqn:Hd.
  - destruct in_run; cbn [has_char]; rewrite IH; [reflexivity|].
    rewrite E. reflexivity.
  - cbn [has_char]. rewrite IH.
    destruct (Ascii.eqb_spec d c) as [-> | _]; [congruence | reflexivity].
Qed.

Lemma flatten_breaks_id (in_run : bool) (s : string) :
  has_char newline s = false -> has_char carriage_return s = false ->
  flatten_breaks in_run s = s.
Proof.
  revert in_run.
  induction s as [|d s IH]; intros in_run Hn Hr;
    cbn [flatten_breaks has_char] in *; [reflexivity|].
  apply orb_false_iff in Hn as [Hn1 Hn]. apply orb_false_iff in Hr as [Hr1 Hr].
  unfold is_break. rewrite Hn1, Hr1. cbn [orb]. now rewrite IH.
Qed.

Lemma flatten_breaks_text (a s : string) :
  all_chars (fun c => negb (is_break c)) a = true ->
  flatten_breaks false (a ++ s) = a ++ flatten_breaks false s.
Proof.
  induction a as [|c a IH]; intros H; [reflexivity|].
  cbn [all_chars] in H. apply andb_true_iff in H as [Hc Ha].
  apply negb_true_iff in Hc.
  cbn [append flatten_breaks]. rewrite Hc. now rewrite IH.
Qed.

Lemma flatten_breaks_run (r b : string) :
  all_chars is_break r = true -> starts_plain b = true ->
  flatten_breaks true (r ++ b) = flatten_breaks false b.
Proof.
  intros Hr Hb. induction r as [|c r IH].
  - destruct b as [|c b]; [reflexivity|].
    cbn [starts_plain] in Hb. apply negb_true_iff in Hb.
    cbn [append flatten_breaks]. now rewrite Hb.
  - cbn [all_chars] in Hr. apply andb_true_iff in Hr as [Hc Hr].
    cbn [append flatten_breaks]. rewrite Hc. now apply IH.
Qed.

(** The Bio field of the exported file holds no line break: every run of
    line feeds and carriage returns of the bio is written as one space
    before the value is quoted, and the text around the runs is written as
    it is.  A bio without line breaks is written like any other value. *)
Theorem csv_bio_single_line (bio : string) :
  has_char newline (csv_bio bio) = false /\
  has_char carriage_return (csv_bio bio) = false /\
  (has_char newline bio = false ->
   has_char carriage_return bio = false ->
   csv_bio bio = escapeCSV bio) /\
  (forall text run rest,
     bio = text ++ run ++ rest ->
     all_chars (fun c => negb (is_break c)) text = true ->
     run <> "" -> all_chars is_break run = true ->
     starts_plain rest = true ->
     csv_bio bio = escapeCSV (text ++ " " ++ flatten_breaks false rest)).
Proof.
  unfold csv_bio. split; [| split; [| split]].
  - apply has_char_escapeCSV; [discriminate|].
    now apply flatten_breaks_clean.
  - apply has_char_escapeCSV; [discriminate|].
    now apply flatten_breaks_clean.
  - intros Hn Hr. now rewrite flatten_breaks_id.
  - intros text run rest -> Htext Hne Hrun Hrest. f_equal.
    rewrite flatten_breaks_text by exact Htext. f_equal.
    destruct run as [|c run]; [congruence|].
    cbn [all_chars] in Hrun. apply andb_true_iff in Hrun as [Hc Hrun].
    cbn [append flatten_breaks]. rewrite Hc.
    now rewrite flatten_breaks_run.
Qed.

(* ------------------------------------------------------------------ *)
(** ** The content script between popup and page script *)

Lemma to_page_app (a b : list BridgeEffect) :
  to_page (a ++ b) = (to_page a ++ to_page b)%list.
Proof.
  induction a as [|e a IH]; simpl; [reflexivity|].
  destruct e; simpl; now rewrite IH.
Qed.

Lemma to_popup_app (a b : list BridgeEffect) :
  to_popup (a ++ b) = (to_popup a ++ to_popup b)%list.
Proof.
  induction a as [|e a IH]; simpl; [reflexivity|].
  destruct e; simpl; now rewrite IH.
Qed.

Lemma responses_app (a b : list BridgeEffect) :
  responses (a ++ b) = (responses a ++ responses b)%list.
Proof.
  induction a as [|e a IH]; simpl; [reflexivity|].
  destruct e; simpl; now rewrite IH.
Qed.

Lemma popup_requests_cons (b : Bridge) (r : PopupRequest)
    (rs : list PopupRequest) :
  popup_requests b (r :: rs) =
  (fst (popup_requests (fst (on_popup_message b r)) rs),
   (snd (on_popup_message b r) ++
    snd (popup_requests (fst (on_popup_message b r)) rs))%list).
Proof.
  cbn [popup_requests]. destruct (on_popup_message b r) as [b1 e1].
  cbn [fst snd]. destruct (popup_requests b1 rs) as [b2 e2]. reflexivity.
Qed.

Lemma page_messages_cons (now : Z) (b : Bridge) (m : Message)
    (ms : list Message) :
  page_messages now b (m :: ms) =
  (fst (page_messages now (fst (on_page_message now b m)) ms),
   (snd (on_page_message now b m) ++
    snd (page_messages now (fst (on_page_message now b m)) ms))%list).
Proof.
  cbn [page_messages]. destruct (on_page_message now b m) as [b1 e1].
  cbn [fst snd]. destruct (page_messages now b1 ms) as [b2 e2]. reflexivity.
Qed.

(** While the page script has not reported [READY], no start reaches it:
    the content script answers every request, keeps only the last start
    requested and posts every cancellation at once.  At [READY] it posts
    the start it kept, once, also when a cancellation was requested after
    it. *)
Theorem queued_start_delivered_on_ready
    (now : Z) (b : Bridge) (rs : list PopupRequest) :
  injectedReady b = false ->
  to_page (snd (popup_requests b rs)) = filter is_cancel (requested rs) /\
  responses (snd (popup_requests b rs)) = map (response_to false) rs /\
  injectedReady (fst (popup_requests b rs)) = false /\
  pendingCommand (fst (popup_requests b rs)) =
    last_start rs (pendingCommand b) /\
  on_page_message now (fst (popup_requests b rs)) READY =
    ({| injectedReady := true; pendingCommand := None |},
     match last_start rs (pendingCommand b) with
     | Some c => [ToPage c]
     | None => []
     end).
Proof.
  intros Hb.
  assert (H : to_page (snd (popup_requests b rs)) =
                filter is_cancel (requested rs) /\
              responses (snd (popup_requests b rs)) =
                map (response_to false) rs /\
              injectedReady (fst (popup_requests b rs)) = false /\
              pendingCommand (fst (popup_requests b rs)) =
                last_start rs (pendingCommand b)).
  { revert b Hb. induction rs as [|r rs IH]; intros b Hb.
    - simpl. auto.
    - rewrite popup_requests_cons. cbn [fst snd].
      rewrite to_page_app, responses_app.
      destruct r as [u | |]; unfold on_popup_message; rewrite ?Hb;
        cbn [fst snd to_page responses requested filter is_cancel
             last_start map response_to app].
      + destruct (IH {| injectedReady := false;
                        pendingCommand := Some (START_SCAN u) |} eq_refl)
          as (H1 & H2 & H3 & H4).
        rewrite H1, H2, H3, H4. auto.
      + destruct (IH b Hb) as (H1 & H2 & H3 & H4).
        rewrite H1, H2, H3, H4. auto.
      + destruct (IH b Hb) as (H1 & H2 & H3 & H4).
        rewrite H1, H2, H3, H4. auto. }
  destruct H as (H1 & H2 & H3 & H4).
  repeat split; try assumption.
  unfold on_page_message. rewrite H4. reflexivity.
Qed.

(** Once the page script has reported [READY], the content script posts
    every start and every cancellation at once and in the order requested,
    answers every request, and keeps nothing for later. *)
Theorem ready_bridge_posts_in_order (b : Bridge) (rs : list PopupRequest) :
  injectedReady b = true ->
  fst (popup_requests b rs) = b /\
  to_page (snd (popup_requests b rs)) = requested rs /\
  responses (snd (popup_requests b rs)) = map (response_to true) rs.
Proof.
  intros Hb. induction rs as [|r rs IH].
  - simpl. auto.
  - rewrite popup_requests_cons. cbn [fst snd].
    rewrite to_page_app, responses_app.
    assert (E : fst (on_popup_message b r) = b).
    { destruct r; unfold on_popup_message; rewrite ?Hb; reflexivity. }
    rewrite E. destruct IH as (H1 & H2 & H3). rewrite H1, H2, H3.
    destruct r; unfold on_popup_message; rewrite ?Hb; auto.
Qed.

(** The popup gets every message of the page script except [READY],
    unchanged and in order.  A command kept for the page script is posted
    at the first [READY] and at no other message, and nothing is kept
    afterwards. *)
Theorem bridge_relays_in_order (now : Z) (b : Bridge) (ms : list Message) :
  to_popup (snd (page_messages now b ms)) =
    filter (fun m => negb (is_ready m)) ms /\
  to_page (snd (page_messages now b ms)) =
    match pendingCommand b with
    | Some c => if existsb is_ready ms then [c] else []
    | None => []
    end /\
  fst (page_messages now b ms) =
    if existsb is_ready ms
    then {| injectedReady := true; pendingCommand := None |}
    else b.
Proof.
  revert b. induction ms as [|m ms IH]; intros b.
  - simpl. destruct (pendingCommand b); auto.
  - rewrite page_messages_cons. cbn [fst snd].
    rewrite to_popup_app, to_page_app.
    destruct (IH (fst (on_page_message now b m))) as (H1 & H2 & H3).
    rewrite H1, H2, H3. clear IH H1 H2 H3.
    destruct m as [| p | matches | e];
      cbn [on_page_message fst snd filter is_ready negb existsb orb
           pendingCommand to_popup to_page app].
    + destruct (pendingCommand b); cbn [to_page app];
        destruct (existsb is_ready ms); auto.
    + destruct (progress_fields p) as [[[[[c t] name] nc] mc]|];
        cbn [to_popup to_page app];
        destruct (pendingCommand b); auto.
    + destruct (pendingCommand b); auto.
    + destruct (pendingCommand b); auto.
Qed.

(* ------------------------------------------------------------------ *)
(** ** Delays *)

(** The delay before a visit lies between the two bounds, both included,
    for every random number of the unit interval (taken as a fraction). *)
Theorem randomDelay_bounds (num den min max : Z) :
  0 <= num < den ->
  min <= max ->
  min <= randomDelay num den min max <= max.
Proof.
  intros Hn Hm. unfold randomDelay.
  assert (H0 : 0 <= num * (max - min + 1) / den).
  { apply Z.div_pos; nia. }
  assert (H1 : num * (max - min + 1) / den < max - min + 1).
  { apply Z.div_lt_upper_bound; nia. }
  lia.
Qed.

(* ------------------------------------------------------------------ *)
(** ** The further properties at concrete inputs *)

Lemma planned_scan_witness :
  exists st,
    storage (fst (run (resumed demo_state tea_subscribers)
                      [TimerFired; FetchDone])) = Some st /\
    planned "seed" st.
Proof.
  eexists. split; [reflexivity|].
  apply (planned_scan_invariant "seed" (Some 99) demo_subscriptions
           tea_subscribers [TimerFired; FetchDone]).
  reflexivity.
Defined.

Lemma planned_matches_witness :
  (min_overlap <=
   List.length (sharedNewsletters
                  (match_of (newsletters demo_state) ann_recorded)))%nat /\
  NoDup (map nl_id (sharedNewsletters
                      (match_of (newsletters demo_state) ann_recorded))) /\
  Forall (fun n => In n (map newsletter_of (plan_newsletters demo_subscriptions)))
         (sharedNewsletters (match_of (newsletters demo_state) ann_recorded)).
Proof.
  apply (planned_scan_matches "seed" (Some 99) demo_subscriptions
           tea_subscribers busy_scan (finishScan busy_final)).
  - cbv -[finishScan].
    repeat (first [left; reflexivity | right]).
  - apply finishScan_In. left. reflexivity.
Defined.

Lemma result_posted_once_witness :
  Forall (fun o => o = Post READY) [Post READY] /\
  (forall ms', ~ In (Post (COMPLETE ms')) [Post READY]) /\
  storage (fst (run empty_plan_scan
                    [TimerFired; Load (bare_page "https://substack.com/home")]))
    = None /\
  task (fst (run empty_plan_scan
                 [TimerFired; Load (bare_page "https://substack.com/home")]))
    = Idle.
Proof.
  apply (result_posted_once empty_plan_scan
           [TimerFired; Load (bare_page "https://substack.com/home")]
           [Post (PROGRESS (Status ComputingMatches))] [Post READY]
           (finishScan scan_with_unlisted_ids)).
  reflexivity.
Defined.

Lemma cancel_ends_scan_witness :
  storage (fst (run (fst (step sleeping_scan Cancel))
                    [SleepDone; Load tea_subscribers; TimerFired])) = None /\
  (List.length
     (filter is_navigation
        (snd (run (fst (step sleeping_scan Cancel))
                  [SleepDone; Load tea_subscribers; TimerFired]))) <= 1)%nat /\
  visited (snd (run (fst (step sleeping_scan Cancel))
                    [SleepDone; Load tea_subscribers; TimerFired])) = [].
Proof.
  destruct (cancel_ends_scan sleeping_scan
              [SleepDone; Load tea_subscribers; TimerFired])
    as (H1 & _ & H3 & H4 & _).
  - intros st page H. discriminate H.
  - split; [exact H1 | split; [lia | exact H4]].
Defined.

Lemma unscannable_profile_witness :
  exists st,
    fst (startScan "seed" (inl unscannable_profile)) = Some st /\
    pagesToVisit st = [] /\
    snd (run {| storage := Some st;
                document := bare_page "https://substack.com/home";
                task := Idle |}
             [Load (bare_page "https://substack.com/home"); TimerFired]) =
    [Post (PROGRESS (Status ComputingMatches)); Post (COMPLETE [])].
Proof.
  destruct (unscannable_profile_leaves_state "seed" unscannable_profile
              _ eq_refl ltac:(discriminate) eq_refl) as (st & H1 & H2 & H3).
  exists st. split; [now rewrite H1 | split; [exact H2|]].
  now rewrite H3.
Defined.

Lemma scan_from_start_witness :
  exists st first,
    fst (startScan "seed" (inl demo_profile)) = Some st /\
    filter is_navigation (snd (startScan "seed" (inl demo_profile)))
      = [Navigate (visit_url first)] /\
    completed 0 4 (drive 15 busy_world
                     (resumed st (busy_world 15 (visit_url first)))).
Proof.
  apply (scan_from_start "seed" demo_profile demo_subscriptions
           busy_world 15%nat eq_refl).
  - discriminate.
  - intros n url. reflexivity.
  - intros n url author t u key Hin Hh. simpl in Hin.
    destruct Hin as [<- | [<- | []]]; injection Hh as <-; reflexivity.
  - vm_compute. lia.
Defined.

Lemma stalled_scan_witness :
  storage (fst (drive 5 busy_world (resumed demo_state constructor_page)))
    = Some demo_state /\
  visited (snd (drive 5 busy_world (resumed demo_state constructor_page)))
    = [].
Proof.
  destruct (throwing_page_stalls_scan demo_state tea_visit constructor_page
              busy_world 3) as [H _].
  - reflexivity.
  - reflexivity.
  - reflexivity.
  - rewrite H. split; reflexivity.
Defined.

Lemma progress_survives_witness :
  popup_init home a_minute_later
    (fst (store_effects (None, None)
            (handleProgress 1700000000000
               (Scanning 3 4 "Maps" subscribers 2 12))))
    (snd (store_effects (None, None)
            (handleProgress 1700000000000
               (Scanning 3 4 "Maps" subscribers 2 12)))) =
  [ShowSection progress_section;
   SetProgressStatus (Some 2) (Some 2);
   SetProgressDetail "Maps" (Some 12);
   SetProgressFill (Some 3) (Some 4)].
Proof.
  apply (proj2 (progress_survives_reopening home 1700000000000 a_minute_later
                  (Scanning 3 4 "Maps" subscribers 2 12) (None, None)
                  eq_refl ltac:(vm_compute; discriminate)
                  ltac:(intros t; discriminate))).
Defined.

Lemma status_progress_witness :
  popup_init home a_minute_later
    (fst (store_effects (None, None)
            (handleProgress 1700000000000 (Status (FetchingProfile "seed")))))
    (snd (store_effects (None, None)
            (handleProgress 1700000000000 (Status (FetchingProfile "seed")))))
  = [ShowSection progress_section;
     SetProgressStatus None None;
     SetProgressDetail "" None;
     SetProgressFill None None].
Proof.
  apply (proj1 (status_progress_restores_blank home 1700000000000
                  a_minute_later (FetchingProfile "seed") (None, None)
                  not_ready eq_refl ltac:(vm_compute; discriminate))).
Defined.

Lemma results_survive_witness :
  popup_init home sixty_one_minutes_later None
    (Some {| cached_matches := finishScan scan_with_unlisted_ids;
             cached_timestamp := 1700000000000 |}) =
  [DisplayResults (finishScan scan_with_unlisted_ids) 1700000000000;
   ShowSection results_section].
Proof.
  apply (proj2 (proj2 (results_survive_reopening home 1700000000000
                         sixty_one_minutes_later
                         (finishScan scan_with_unlisted_ids)
                         (Some old_snapshot, None) ready eq_refl))).
Defined.

Lemma error_keeps_results_witness :
  store_effects (Some old_snapshot, None) (handleError "TypeError") =
    (None, None) /\
  popup_init home a_minute_later None None = [ShowSection form_section].
Proof.
  destruct (error_keeps_earlier_results home 1700000000000 a_minute_later
              "TypeError" TypeError (Some old_snapshot, None) ready eq_refl)
    as (H1 & _ & H3 & _).
  split; [exact H1 | exact H3].
Defined.

Lemma csv_row_witness :
  csv_row ["Smith, Ann"; "ann"] = csv_row ["Smith, Ann"; "ann"] /\
  ["Smith, Ann"; "ann"] = ["Smith, Ann"; "ann"].
Proof.
  split; [reflexivity|].
  apply (csv_row_unambiguous ["Smith, Ann"; "ann"] ["Smith, Ann"; "ann"]);
    reflexivity.
Defined.

Lemma queued_start_witness :
  on_page_message 1700000000000
    (fst (popup_requests not_ready [RequestStart "seed"; RequestCancel]))
    READY =
  (ready, [ToPage (START_SCAN "seed")]).
Proof.
  apply (proj2 (proj2 (proj2 (proj2
    (queued_start_delivered_on_ready 1700000000000 not_ready
       [RequestStart "seed"; RequestCancel] eq_refl))))).
Defined.

Lemma ready_bridge_witness :
  to_page (snd (popup_requests ready
                  [RequestPing; RequestStart "seed"; RequestCancel])) =
  [START_SCAN "seed"; CANCEL_SCAN].
Proof.
  apply (proj1 (proj2
    (ready_bridge_posts_in_order ready
       [RequestPing; RequestStart "seed"; RequestCancel] eq_refl))).
Defined.

Lemma randomDelay_witness :
  2000 <= randomDelay 1 2 2000 4000 <= 4000.
Proof.
  apply (randomDelay_bounds 1 2 2000 4000); lia.
Defined.
